(** * Which-flag-game: the flag source loader and the round state machine

    A shallow embedding of [script.js] (class [FlagGame]): the JSON values the
    endpoints answer with, the three response parsers, the allow-list filter,
    the Uzbek translation table, the loader with its fallback over endpoints,
    and the round life cycle driven by clicks, key presses, animation
    completions and interval ticks. *)

From Stdlib Require Import ZArith QArith Qround Qpower Lqa String Ascii List Bool Lia DecimalString.
From Stdlib Require SpecFloat.
From stdpp Require Import base option list strings gmap.
Import ListNotations.

Close Scope Q_scope.
Set Warnings "-register-all".
Local Open Scope string_scope.
Local Open Scope list_scope.

(** ** JavaScript values

    What [response.json()] yields, plus [undefined] and the members every
    object inherits from [Object.prototype].  A number is identified by its
    canonical rendering ([Number::toString], which tells apart all numbers a
    JSON text can denote): zero is ["0"], four hundred is ["400"].  An object
    is the list of its own properties, each key once. *)

Inductive value : Type :=
| VUndefined
| VNull
| VBool (b : bool)
| VNum (repr : string)
| VStr (s : string)
| VArr (elems : list value)
| VObj (props : list (string * value))
| VBuiltin (name : string).

(** Thrown values; every [throw] of the program and of the engine carries an
    [Error] object, of which only [message] is read. *)
Record JsError : Type := mkError { message : string }.

Inductive result (A : Type) : Type :=
| Ok (a : A)
| Throw (e : JsError).
Arguments Ok {A} a.
Arguments Throw {A} e.

Definition bindR {A B : Type} (r : result A) (k : A -> result B) : result B :=
  match r with
  | Ok a => k a
  | Throw e => Throw e
  end.

Notation "'let!' x ':=' r 'in' k" := (bindR r (fun x => k))
  (at level 10, x name, r at level 100, k at level 200).

(** [Array.prototype.filter] and [map] with callbacks that may throw: the
    callbacks run left to right and the first exception ends the call. *)
Fixpoint filterR {A : Type} (p : A -> result bool) (l : list A) : result (list A) :=
  match l with
  | [] => Ok []
  | x :: rest =>
      let! b := p x in
      let! kept := filterR p rest in
      Ok (if b then x :: kept else kept)
  end.

Fixpoint mapR {A B : Type} (f : A -> result B) (l : list A) : result (list B) :=
  match l with
  | [] => Ok []
  | x :: rest =>
      let! y := f x in
      let! ys := mapR f rest in
      Ok (y :: ys)
  end.

(** ToBoolean. *)
Definition truthy (v : value) : bool :=
  match v with
  | VUndefined | VNull => false
  | VBool b => b
  | VNum r => negb (String.eqb r "0")
  | VStr s => negb (String.eqb s "")
  | VArr _ | VObj _ | VBuiltin _ => true
  end.

(** [a || b] on values already computed. *)
Definition orElse (a b : value) : value := if truthy a then a else b.

Fixpoint assoc (k : string) (props : list (string * value)) : option value :=
  match props with
  | [] => None
  | (k', v) :: rest => if String.eqb k k' then Some v else assoc k rest
  end.

(** The property names of [Object.prototype]. *)
Definition objectPrototypeKeys : list string :=
  [ "constructor"; "hasOwnProperty"; "isPrototypeOf"; "propertyIsEnumerable";
    "toLocaleString"; "toString"; "valueOf"; "__proto__";
    "__defineGetter__"; "__defineSetter__"; "__lookupGetter__"; "__lookupSetter__" ].

Definition inStrings (k : string) (l : list string) : bool :=
  existsb (String.eqb k) l.

Definition protoLookup (k : string) : value :=
  if inStrings k objectPrototypeKeys then VBuiltin k else VUndefined.

(** The engine's message when a property of [null] or [undefined] is read. *)
Definition cannotRead (base k : string) : JsError :=
  mkError ("Cannot read properties of " +:+ base +:+ " (reading '" +:+ k +:+ "')").

(** [v.k].  On arrays and primitives only the inherited [Object.prototype]
    members are modelled: the program reads no index, no [length] and no
    member of the other prototypes from a response. *)
Definition getProp (v : value) (k : string) : result value :=
  match v with
  | VUndefined => Throw (cannotRead "undefined" k)
  | VNull => Throw (cannotRead "null" k)
  | VObj props =>
      Ok (match assoc k props with
          | Some x => x
          | None => protoLookup k
          end)
  | _ => Ok (protoLookup k)
  end.

(** [v?.k] *)
Definition getPropOpt (v : value) (k : string) : result value :=
  match v with
  | VUndefined | VNull => Ok VUndefined
  | _ => getProp v k
  end.

Definition isArray (v : value) : bool :=
  match v with
  | VArr _ => true
  | _ => false
  end.

Definition arrayItems (v : value) : list value :=
  match v with
  | VArr xs => xs
  | _ => []
  end.

(** [a === b] where [b] is a number or a string literal. *)
Definition strictEqNum (a : value) (r : string) : bool :=
  match a with
  | VNum r' => String.eqb r' r
  | _ => false
  end.

Definition strictEqStr (a : value) (s : string) : bool :=
  match a with
  | VStr s' => String.eqb s' s
  | _ => false
  end.

(** ToString.  An object of a response that has an own [toString] or
    [valueOf] property hides the inherited method behind a value that cannot
    be called: with [toString] hidden the conversion falls to [valueOf], which
    returns the object itself, and the engine throws; an array joins the
    strings of its elements, [null] and [undefined] giving the empty string.
    A member inherited from [Object.prototype] prints as a native function
    under its own name; [constructor] is the function [Object], and
    [__proto__] is [Object.prototype] itself, an object. *)
Definition cannotConvert : JsError :=
  mkError "Cannot convert object to primitive value".

Fixpoint toStr (v : value) : result string :=
  match v with
  | VUndefined => Ok "undefined"
  | VNull => Ok "null"
  | VBool true => Ok "true"
  | VBool false => Ok "false"
  | VNum r => Ok r
  | VStr s => Ok s
  | VArr xs =>
      (fix join (l : list value) : result string :=
         match l with
         | [] => Ok ""
         | x :: rest =>
             let! s := match x with
                  | VUndefined | VNull => Ok ""
                  | _ => toStr x
                  end in
             match rest with
             | [] => Ok s
             | _ => let! t := join rest in Ok (s +:+ "," +:+ t)
             end
         end) xs
  | VObj props =>
      match assoc "toString" props with
      | Some _ => Throw cannotConvert
      | None => Ok "[object Object]"
      end
  | VBuiltin name =>
      if String.eqb name "__proto__" then Ok "[object Object]"
      else
        Ok ("function "
            +:+ (if String.eqb name "constructor" then "Object" else name)
            +:+ "() { [native code] }")
  end.

(** ** FlagEntry *)

Record FlagEntry : Type := mkFlag {
  name : value;
  nameUzbek : value;
  flagUrl : value;
  code : value
}.

(** ** translateToUzbek *)

Definition translationPairs : list (string * string) :=
  [ ("France", "Fransiya");
    ("Japan", "Yaponiya");
    ("Kazakhstan", "Qozog'iston");
    ("Germany", "Germaniya");
    ("United Kingdom", "Buyuk Britaniya");
    ("United States", "Amerika Qo'shma Shtatlari");
    ("Russia", "Rossiya");
    ("China", "Xitoy");
    ("India", "Hindiston");
    ("Brazil", "Braziliya");
    ("Italy", "Italiya");
    ("Spain", "Ispaniya");
    ("Canada", "Kanada");
    ("Australia", "Avstraliya");
    ("South Korea", "Janubiy Koreya");
    ("Mexico", "Meksika");
    ("Argentina", "Argentina");
    ("Turkey", "Turkiya");
    ("Poland", "Polsha");
    ("Netherlands", "Niderlandiya");
    ("Belgium", "Belgiya");
    ("Sweden", "Shvetsiya");
    ("Norway", "Norvegiya");
    ("Denmark", "Daniya");
    ("Finland", "Finlandiya");
    ("Switzerland", "Shveytsariya");
    ("Austria", "Avstriya");
    ("Greece", "Gretsiya");
    ("Portugal", "Portugaliya");
    ("Egypt", "Misr");
    ("South Africa", "Janubiy Afrika");
    ("Nigeria", "Nigeriya");
    ("Kenya", "Keniya");
    ("Morocco", "Marokash");
    ("Algeria", "Jazoir");
    ("Tunisia", "Tunis");
    ("Saudi Arabia", "Saudiya Arabistoni");
    ("Iran", "Eron");
    ("Iraq", "Iroq");
    ("Israel", "Isroil");
    ("Pakistan", "Pokiston");
    ("Bangladesh", "Bangladesh");
    ("Indonesia", "Indoneziya");
    ("Thailand", "Tailand");
    ("Vietnam", "Vyetnam");
    ("Philippines", "Filippin");
    ("Malaysia", "Malayziya");
    ("Singapore", "Singapur");
    ("New Zealand", "Yangi Zelandiya");
    ("Chile", "Chili");
    ("Colombia", "Kolumbiya");
    ("Peru", "Peru");
    ("Venezuela", "Venesuela");
    ("Ukraine", "Ukraina");
    ("Romania", "Ruminiya");
    ("Czech Republic", "Chexiya");
    ("Hungary", "Vengriya");
    ("Ireland", "Irlandiya");
    ("Croatia", "Xorvatiya");
    ("Serbia", "Serbiya");
    ("Bulgaria", "Bolgariya");
    ("Uzbekistan", "O'zbekiston") ].

(** The object literal [translations]: its own properties. *)
Definition translations : gmap string string := list_to_map translationPairs.

(** [translations[countryName]]: the key is converted to a string, own
    properties come first, then the prototype chain. *)
Definition translationsAt (key : string) : value :=
  match translations !! key with
  | Some t => VStr t
  | None => protoLookup key
  end.

Definition translateToUzbek (countryName : value) : result value :=
  let! key := toStr countryName in
  Ok (orElse (translationsAt key) countryName).

(** ** filterPopularCountries *)

Definition popularCountryNames : list string :=
  [ "France"; "Germany"; "Italy"; "Spain"; "United Kingdom"; "Netherlands";
    "Belgium"; "Switzerland"; "Austria"; "Sweden"; "Norway"; "Denmark";
    "Finland"; "Poland"; "Greece"; "Portugal"; "Ireland"; "Czech Republic";
    "Hungary"; "Romania"; "Croatia"; "Serbia"; "Bulgaria"; "Ukraine";
    "Russia"; "Turkey";
    "United States"; "Canada"; "Mexico"; "Brazil"; "Argentina"; "Chile";
    "Colombia"; "Peru"; "Venezuela";
    "China"; "Japan"; "India"; "South Korea"; "Indonesia"; "Thailand";
    "Vietnam"; "Philippines"; "Malaysia"; "Singapore"; "Pakistan";
    "Bangladesh"; "Saudi Arabia"; "Iran"; "Iraq"; "Uzbekistan"; "Kazakhstan";
    "Australia"; "New Zealand"; "South Africa"; "Egypt"; "Nigeria" ].

(** [popularCountryNames.includes(v)]: the list holds strings only, so only
    a string can be found in it. *)
Definition includesName (v : value) : bool :=
  match v with
  | VStr s => inStrings s popularCountryNames
  | _ => false
  end.

Definition filterPopularCountries (allCountries : list FlagEntry) : list FlagEntry :=
  List.filter (fun country => includesName (name country)) allCountries.

(** ** The three parsers.  [None] is the [null] they return for a shape they
    do not recognise. *)

(** [country.flags && (country.flags.svg || country.flags.png)] *)
Definition hasFlagImage (country : value) : result bool :=
  let! flags := getProp country "flags" in
  if truthy flags then
    let! svg := getProp flags "svg" in
    if truthy svg then Ok true
    else let! png := getProp flags "png" in Ok (truthy png)
  else Ok false.

(** [country.flags?.svg || country.flags?.png] *)
Definition flagsSvgOrPng (country : value) : result value :=
  let! flags := getProp country "flags" in
  let! svg := getPropOpt flags "svg" in
  if truthy svg then Ok svg
  else
    let! flags' := getProp country "flags" in
    getPropOpt flags' "png".

(** [country.name?.common || country.name] *)
Definition commonName (country : value) : result value :=
  let! nm := getProp country "name" in
  let! common := getPropOpt nm "common" in
  if truthy common then Ok common else getProp country "name".

Definition parseRestCountriesV3 (data : value) : result (option (list FlagEntry)) :=
  if negb (isArray data) then Ok None
  else
    let! kept := filterR hasFlagImage (arrayItems data) in
    let! allFlags := mapR (fun country =>
        let! nm := commonName country in
        let! nm' := commonName country in
        let! uz := translateToUzbek nm' in
        let! url := flagsSvgOrPng country in
        let! cca2 := getProp country "cca2" in
        Ok (mkFlag nm uz url cca2)) kept in
    Ok (Some (filterPopularCountries allFlags)).

Definition parseRestCountriesV2 (data : value) : result (option (list FlagEntry)) :=
  if negb (isArray data) then Ok None
  else
    let! kept := filterR hasFlagImage (arrayItems data) in
    let! allFlags := mapR (fun country =>
        let! nm := getProp country "name" in
        let! nm' := getProp country "name" in
        let! uz := translateToUzbek nm' in
        let! url := flagsSvgOrPng country in
        let! alpha2 := getProp country "alpha2Code" in
        Ok (mkFlag nm uz url alpha2)) kept in
    Ok (Some (filterPopularCountries allFlags)).

(** The [if / else if / else if] that looks for the list of countries. *)
Definition findCountries (data : value) : result value :=
  let! pageProps := getProp data "pageProps" in
  let! viaPage := (if truthy pageProps
              then let! c := getProp pageProps "countries" in Ok (truthy c)
              else Ok false) in
  if (viaPage : bool) then
    let! pp := getProp data "pageProps" in getProp pp "countries"
  else if isArray data then Ok data
  else
    let! d := getProp data "data" in
    if truthy d && isArray d then getProp data "data" else Ok VNull.

(** [country.flag || country.flags || country.flagUrl || country.flagSvg] *)
Definition hasAnyFlagField (country : value) : result bool :=
  let! flag := getProp country "flag" in
  if truthy flag then Ok true
  else
    let! flags := getProp country "flags" in
    if truthy flags then Ok true
    else
      let! fu := getProp country "flagUrl" in
      if truthy fu then Ok true
      else let! fs := getProp country "flagSvg" in Ok (truthy fs).

Definition nextJsFlagUrl (country : value) : result value :=
  let! flag := getProp country "flag" in
  if truthy flag then Ok flag
  else
    let! flags := getProp country "flags" in
    let! svg := getPropOpt flags "svg" in
    if truthy svg then Ok svg
    else
      let! flags' := getProp country "flags" in
      let! png := getPropOpt flags' "png" in
      if truthy png then Ok png
      else
        let! fu := getProp country "flagUrl" in
        if truthy fu then Ok fu else getProp country "flagSvg".

Definition nextJsName (country : value) : result value :=
  let! nm := getProp country "name" in
  let! common := getPropOpt nm "common" in
  if truthy common then Ok common
  else
    let! nm' := getProp country "name" in
    if truthy nm' then Ok nm' else getProp country "nameCommon".

Definition nextJsCode (country : value) : result value :=
  let! cca2 := getProp country "cca2" in
  if truthy cca2 then Ok cca2
  else
    let! a2 := getProp country "alpha2Code" in
    if truthy a2 then Ok a2 else getProp country "code".

Definition parseNextJsCountries (data : value) : result (option (list FlagEntry)) :=
  let! countries := findCountries data in
  if negb (truthy countries) || negb (isArray countries) then Ok None
  else
    let! kept := filterR hasAnyFlagField (arrayItems countries) in
    let! allFlags := mapR (fun country =>
        let! url := nextJsFlagUrl country in
        let! nm := nextJsName country in
        let! uz := translateToUzbek nm in
        let! cd := nextJsCode country in
        Ok (mkFlag nm uz url cd)) kept in
    Ok (Some (filterPopularCountries allFlags)).

(** ** Numbers

    A JavaScript Number that is finite is identified with the rational it
    denotes, and arithmetic on Numbers is IEEE 754 binary64 arithmetic: the
    exact result, rounded to the nearest double, a tie going to the double
    whose significand is even.  Doubles have 53 significant bits and no
    exponent below -1074; nothing the program computes comes near the
    largest double, so overflow is left out. *)

Definition pow2 (k : Z) : Q := (2 ^ k)%Q.

(** The exponent of the power of two at or below a positive [x]. *)
Definition binade (x : Q) : Z :=
  let k := (Z.log2 (Qnum x) - Z.log2 (Zpos (Qden x)))%Z in
  if Qle_bool (pow2 k) x then k else (k - 1)%Z.

(** The nearest integer, a tie going to the even one. *)
Definition roundHalfEven (y : Q) : Z :=
  let n := Qfloor y in
  match (y - inject_Z n ?= 1 # 2)%Q with
  | Lt => n
  | Gt => (n + 1)%Z
  | Eq => if Z.even n then n else (n + 1)%Z
  end.

(** The exponent of the unit in the last place of the doubles around [x]. *)
Definition ulpExponent (x : Q) : Z := Z.max (binade x - 52) (-1074).

Definition roundPositive (x : Q) : Q :=
  let u := pow2 (ulpExponent x) in
  (inject_Z (roundHalfEven (x / u)) * u)%Q.

(** The double nearest to [x]. *)
Definition roundDouble (x : Q) : Q :=
  match (x ?= 0)%Q with
  | Eq => 0%Q
  | Gt => roundPositive x
  | Lt => (- roundPositive (- x))%Q
  end.

(** [x * y], [x + y] and [x / y] on Numbers, and the Number a decimal
    literal of the source denotes. *)
Definition fmul (x y : Q) : Q := roundDouble (x * y).
Definition fadd (x y : Q) : Q := roundDouble (x + y).
Definition fdiv (x y : Q) : Q := roundDouble (x / y).
Definition literal (q : Q) : Q := roundDouble q.

(** The Standard Library specifies binary64 arithmetic on sign, significand
    and exponent ([SpecFloat], with 53 bits and exponents below 1024);
    [binary64Value] is the rational such a number denotes, and [sameRounding]
    checks an operation of the library against the rounding of the exact
    result on two of them. *)
Definition binary64Value (f : SpecFloat.spec_float) : option Q :=
  match f with
  | SpecFloat.S754_zero _ => Some 0%Q
  | SpecFloat.S754_finite s m e =>
      Some ((if s then -1 else 1) * inject_Z (Zpos m) * pow2 e)%Q
  | _ => None
  end.

Definition sameRounding
    (op : SpecFloat.spec_float -> SpecFloat.spec_float -> SpecFloat.spec_float)
    (exact : Q -> Q -> Q) (x y : SpecFloat.spec_float) : bool :=
  match binary64Value x, binary64Value y, binary64Value (op x y) with
  | Some a, Some b, Some c => Qeq_bool c (roundDouble (exact a b))
  | _, _, _ => false
  end.

(** Doubles the program meets, and doubles at the ends of the range: 0.7,
    0.3, the doubles just below 2/3 and 1/3, the last double below 1, 1/2,
    6, 3, 13 and 57; then the least positive double and the double after the
    least normal one. *)
Definition sampleDoubles : list SpecFloat.spec_float :=
  List.map (fun me => SpecFloat.S754_finite false (fst me) (snd me))
    [ (6305039478318694%positive, -53); (5404319552844595%positive, -54);
      (6004799503160661%positive, -53); (6004799503160661%positive, -54);
      (9007199254740991%positive, -53); (4503599627370496%positive, -53);
      (6755399441055744%positive, -50); (6755399441055744%positive, -51);
      (7318349394477056%positive, -49); (8021936836771840%positive, -47);
      (1%positive, -1074); (4503599627370497%positive, -1074) ]%Z.

(** ** The environment

    What the program cannot decide itself: the answer to each [fetch] (by the
    number of requests made before it and the address), the numbers behind
    the successive values of [Math.random()], and, where the browser refuses
    a Web Audio call, the error it throws and how many oscillators had got
    their frequency by then. *)

Inductive Body : Type :=
| BadJson (msg : string)
| Json (data : value).

Inductive Response : Type :=
| Rejected (msg : string)
| Responded (status : nat) (body : Body).

Record World : Type := mkWorld {
  net : nat -> string -> Response;
  randomSource : nat -> Q;
  audioError : option (nat * string)
}.

(** [Math.random()], called for the [i]-th time: a Number, the double
    nearest to the [i]-th number of the world's source. *)
Definition random (w : World) (i : nat) : Q := roundDouble (randomSource w i).

(** ** Animations, timers and the console *)

Inductive Target : Type :=
| StartScreen | LoadingScreen | ShuffleIndicator | FlagImage
| CountdownNumber | CountryNameContainer.

(** The [onComplete] closures of the tweens. *)
Inductive Callback : Type :=
| NoCallback
| HideStartScreen
| LoadingHidden
| IndicatorHidden
| RevealDone
| ShowCount (id : nat)
| CountdownHidden
| NameHidden
| FlagReset.

(** One tween of the shuffle timeline: its duration and, for a shuffle step,
    the [randomFlag] its [onStart] closure captured ([None] when the index
    drawn was outside [this.flags]). *)
Record TimelineStep : Type := mkStep {
  stepDuration : Q;
  onStart : option (option FlagEntry)
}.

(** A running animation: a tween ([gsap.to], [gsap.fromTo]) with its
    [onComplete], or the timeline [playRound] awaits, with the tweens it has
    not started yet.  A duration the source writes as a decimal literal is
    kept as written ([3 # 10] for [0.3]): it is handed to the animation
    library and enters no arithmetic here.  The duration of a shuffle step
    is computed, and is a double. *)
Inductive Task : Type :=
| Tween (target : Target) (duration : Q) (onComplete : Callback)
| ShuffleTimeline (steps : list TimelineStep).

(** A [setInterval] timer of [startCountdown] with the [count] variable its
    closure captured; [clearInterval] makes it inactive. *)
Record Timer : Type := mkTimer {
  timerId : nat;
  count : Z;
  active : bool
}.

Inductive ConsoleEntry : Type :=
| ConsoleLog (text : string)
| ConsoleWarn (text detail : string)
| ConsoleError (text : string) (error : JsError).

(** ** The game object and the page

    The fields of [FlagGame] the logic reads and writes, the parts of the
    document it sets (class lists, [style.display], [textContent], [src],
    [alt]), the animations and timers it has started, and what it has
    printed, alerted, fetched and drawn so far. *)

Record State : Type := mkState {
  flags : list FlagEntry;
  isLoading : bool;
  isAnimating : bool;
  isShuffling : bool;
  currentFlag : option FlagEntry;
  countdownInterval : option nat;
  startScreenHidden : bool;
  loadingScreenActive : bool;
  gameScreenActive : bool;
  countdownDisplay : string;
  countdownText : string;
  countryNameVisible : bool;
  countryNameText : string;
  infoDisplay : string;
  shuffleIndicatorActive : bool;
  flagImageSrc : string;
  flagImageAlt : string;
  flagImageVisible : bool;
  animations : list Task;
  timers : list Timer;
  console : list ConsoleEntry;
  alerts : list string;
  fetched : list string;
  randomCalls : nat
}.

Definition set_flags (x : list FlagEntry) (st : State) : State :=
  mkState x (isLoading st) (isAnimating st) (isShuffling st) (currentFlag st)
    (countdownInterval st) (startScreenHidden st) (loadingScreenActive st)
    (gameScreenActive st) (countdownDisplay st) (countdownText st)
    (countryNameVisible st) (countryNameText st) (infoDisplay st)
    (shuffleIndicatorActive st) (flagImageSrc st) (flagImageAlt st)
    (flagImageVisible st) (animations st) (timers st) (console st)
    (alerts st) (fetched st) (randomCalls st).
Definition set_isLoading (x : bool) (st : State) : State :=
  mkState (flags st) x (isAnimating st) (isShuffling st) (currentFlag st)
    (countdownInterval st) (startScreenHidden st) (loadingScreenActive st)
    (gameScreenActive st) (countdownDisplay st) (countdownText st)
    (countryNameVisible st) (countryNameText st) (infoDisplay st)
    (shuffleIndicatorActive st) (flagImageSrc st) (flagImageAlt st)
    (flagImageVisible st) (animations st) (timers st) (console st)
    (alerts st) (fetched st) (randomCalls st).
Definition set_isAnimating (x : bool) (st : State) : State :=
  mkState (flags st) (isLoading st) x (isShuffling st) (currentFlag st)
    (countdownInterval st) (startScreenHidden st) (loadingScreenActive st)
    (gameScreenActive st) (countdownDisplay st) (countdownText st)
    (countryNameVisible st) (countryNameText st) (infoDisplay st)
    (shuffleIndicatorActive st) (flagImageSrc st) (flagImageAlt st)
    (flagImageVisible st) (animations st) (timers st) (console st)
    (alerts st) (fetched st) (randomCalls st).
Definition set_isShuffling (x : bool) (st : State) : State :=
  mkState (flags st) (isLoading st) (isAnimating st) x (currentFlag st)
    (countdownInterval st) (startScreenHidden st) (loadingScreenActive st)
    (gameScreenActive st) (countdownDisplay st) (countdownText st)
    (countryNameVisible st) (countryNameText st) (infoDisplay st)
    (shuffleIndicatorActive st) (flagImageSrc st) (flagImageAlt st)
    (flagImageVisible st) (animations st) (timers st) (console st)
    (alerts st) (fetched st) (randomCalls st).
Definition set_currentFlag (x : option FlagEntry) (st : State) : State :=
  mkState (flags st) (isLoading st) (isAnimating st) (isShuffling st) x
    (countdownInterval st) (startScreenHidden st) (loadingScreenActive st)
    (gameScreenActive st) (countdownDisplay st) (countdownText st)
    (countryNameVisible st) (countryNameText st) (infoDisplay st)
    (shuffleIndicatorActive st) (flagImageSrc st) (flagImageAlt st)
    (flagImageVisible st) (animations st) (timers st) (console st)
    (alerts st) (fetched st) (randomCalls st).
Definition set_countdownInterval (x : option nat) (st : State) : State :=
  mkState (flags st) (isLoading st) (isAnimating st) (isShuffling st)
    (currentFlag st) x (startScreenHidden st) (loadingScreenActive st)
    (gameScreenActive st) (countdownDisplay st) (countdownText st)
    (countryNameVisible st) (countryNameText st) (infoDisplay st)
    (shuffleIndicatorActive st) (flagImageSrc st) (flagImageAlt st)
    (flagImageVisible st) (animations st) (timers st) (console st)
    (alerts st) (fetched st) (randomCalls st).
Definition set_startScreenHidden (x : bool) (st : State) : State :=
  mkState (flags st) (isLoading st) (isAnimating st) (isShuffling st)
    (currentFlag st) (countdownInterval st) x (loadingScreenActive st)
    (gameScreenActive st) (countdownDisplay st) (countdownText st)
    (countryNameVisible st) (countryNameText st) (infoDisplay st)
    (shuffleIndicatorActive st) (flagImageSrc st) (flagImageAlt st)
    (flagImageVisible st) (animations st) (timers st) (console st)
    (alerts st) (fetched st) (randomCalls st).
Definition set_loadingScreenActive (x : bool) (st : State) : State :=
  mkState (flags st) (isLoading st) (isAnimating st) (isShuffling st)
    (currentFlag st) (countdownInterval st) (startScreenHidden st) x
    (gameScreenActive st) (countdownDisplay st) (countdownText st)
    (countryNameVisible st) (countryNameText st) (infoDisplay st)
    (shuffleIndicatorActive st) (flagImageSrc st) (flagImageAlt st)
    (flagImageVisible st) (animations st) (timers st) (console st)
    (alerts st) (fetched st) (randomCalls st).
Definition set_gameScreenActive (x : bool) (st : State) : State :=
  mkState (flags st) (isLoading st) (isAnimating st) (isShuffling st)
    (currentFlag st) (countdownInterval st) (startScreenHidden st)
    (loadingScreenActive st) x (countdownDisplay st) (countdownText st)
    (countryNameVisible st) (countryNameText st) (infoDisplay st)
    (shuffleIndicatorActive st) (flagImageSrc st) (flagImageAlt st)
    (flagImageVisible st) (animations st) (timers st) (console st)
    (alerts st) (fetched st) (randomCalls st).
Definition set_countdownDisplay (x : string) (st : State) : State :=
  mkState (flags st) (isLoading st) (isAnimating st) (isShuffling st)
    (currentFlag st) (countdownInterval st) (startScreenHidden st)
    (loadingScreenActive st) (gameScreenActive st) x (countdownText st)
    (countryNameVisible st) (countryNameText st) (infoDisplay st)
    (shuffleIndicatorActive st) (flagImageSrc st) (flagImageAlt st)
    (flagImageVisible st) (animations st) (timers st) (console st)
    (alerts st) (fetched st) (randomCalls st).
Definition set_countdownText (x : string) (st : State) : State :=
  mkState (flags st) (isLoading st) (isAnimating st) (isShuffling st)
    (currentFlag st) (countdownInterval st) (startScreenHidden st)
    (loadingScreenActive st) (gameScreenActive st) (countdownDisplay st) x
    (countryNameVisible st) (countryNameText st) (infoDisplay st)
    (shuffleIndicatorActive st) (flagImageSrc st) (flagImageAlt st)
    (flagImageVisible st) (animations st) (timers st) (console st)
    (alerts st) (fetched st) (randomCalls st).
Definition set_countryNameVisible (x : bool) (st : State) : State :=
  mkState (flags st) (isLoading st) (isAnimating st) (isShuffling st)
    (currentFlag st) (countdownInterval st) (startScreenHidden st)
    (loadingScreenActive st) (gameScreenActive st) (countdownDisplay st)
    (countdownText st) x (countryNameText st) (infoDisplay st)
    (shuffleIndicatorActive st) (flagImageSrc st) (flagImageAlt st)
    (flagImageVisible st) (animations st) (timers st) (console st)
    (alerts st) (fetched st) (randomCalls st).
Definition set_countryNameText (x : string) (st : State) : State :=
  mkState (flags st) (isLoading st) (isAnimating st) (isShuffling st)
    (currentFlag st) (countdownInterval st) (startScreenHidden st)
    (loadingScreenActive st) (gameScreenActive st) (countdownDisplay st)
    (countdownText st) (countryNameVisible st) x (infoDisplay st)
    (shuffleIndicatorActive st) (flagImageSrc st) (flagImageAlt st)
    (flagImageVisible st) (animations st) (timers st) (console st)
    (alerts st) (fetched st) (randomCalls st).
Definition set_infoDisplay (x : string) (st : State) : State :=
  mkState (flags st) (isLoading st) (isAnimating st) (isShuffling st)
    (currentFlag st) (countdownInterval st) (startScreenHidden st)
    (loadingScreenActive st) (gameScreenActive st) (countdownDisplay st)
    (countdownText st) (countryNameVisible st) (countryNameText st) x
    (shuffleIndicatorActive st) (flagImageSrc st) (flagImageAlt st)
    (flagImageVisible st) (animations st) (timers st) (console st)
    (alerts st) (fetched st) (randomCalls st).
Definition set_shuffleIndicatorActive (x : bool) (st : State) : State :=
  mkState (flags st) (isLoading st) (isAnimating st) (isShuffling st)
    (currentFlag st) (countdownInterval st) (startScreenHidden st)
    (loadingScreenActive st) (gameScreenActive st) (countdownDisplay st)
    (countdownText st) (countryNameVisible st) (countryNameText st)
    (infoDisplay st) x (flagImageSrc st) (flagImageAlt st)
    (flagImageVisible st) (animations st) (timers st) (console st)
    (alerts st) (fetched st) (randomCalls st).
Definition set_flagImageSrc (x : string) (st : State) : State :=
  mkState (flags st) (isLoading st) (isAnimating st) (isShuffling st)
    (currentFlag st) (countdownInterval st) (startScreenHidden st)
    (loadingScreenActive st) (gameScreenActive st) (countdownDisplay st)
    (countdownText st) (countryNameVisible st) (countryNameText st)
    (infoDisplay st) (shuffleIndicatorActive st) x (flagImageAlt st)
    (flagImageVisible st) (animations st) (timers st) (console st)
    (alerts st) (fetched st) (randomCalls st).
Definition set_flagImageAlt (x : string) (st : State) : State :=
  mkState (flags st) (isLoading st) (isAnimating st) (isShuffling st)
    (currentFlag st) (countdownInterval st) (startScreenHidden st)
    (loadingScreenActive st) (gameScreenActive st) (countdownDisplay st)
    (countdownText st) (countryNameVisible st) (countryNameText st)
    (infoDisplay st) (shuffleIndicatorActive st) (flagImageSrc st) x
    (flagImageVisible st) (animations st) (timers st) (console st)
    (alerts st) (fetched st) (randomCalls st).
Definition set_flagImageVisible (x : bool) (st : State) : State :=
  mkState (flags st) (isLoading st) (isAnimating st) (isShuffling st)
    (currentFlag st) (countdownInterval st) (startScreenHidden st)
    (loadingScreenActive st) (gameScreenActive st) (countdownDisplay st)
    (countdownText st) (countryNameVisible st) (countryNameText st)
    (infoDisplay st) (shuffleIndicatorActive st) (flagImageSrc st)
    (flagImageAlt st) x (animations st) (timers st) (console st) (alerts st)
    (fetched st) (randomCalls st).
Definition set_animations (x : list Task) (st : State) : State :=
  mkState (flags st) (isLoading st) (isAnimating st) (isShuffling st)
    (currentFlag st) (countdownInterval st) (startScreenHidden st)
    (loadingScreenActive st) (gameScreenActive st) (countdownDisplay st)
    (countdownText st) (countryNameVisible st) (countryNameText st)
    (infoDisplay st) (shuffleIndicatorActive st) (flagImageSrc st)
    (flagImageAlt st) (flagImageVisible st) x (timers st) (console st)
    (alerts st) (fetched st) (randomCalls st).
Definition set_timers (x : list Timer) (st : State) : State :=
  mkState (flags st) (isLoading st) (isAnimating st) (isShuffling st)
    (currentFlag st) (countdownInterval st) (startScreenHidden st)
    (loadingScreenActive st) (gameScreenActive st) (countdownDisplay st)
    (countdownText st) (countryNameVisible st) (countryNameText st)
    (infoDisplay st) (shuffleIndicatorActive st) (flagImageSrc st)
    (flagImageAlt st) (flagImageVisible st) (animations st) x (console st)
    (alerts st) (fetched st) (randomCalls st).
Definition set_console (x : list ConsoleEntry) (st : State) : State :=
  mkState (flags st) (isLoading st) (isAnimating st) (isShuffling st)
    (currentFlag st) (countdownInterval st) (startScreenHidden st)
    (loadingScreenActive st) (gameScreenActive st) (countdownDisplay st)
    (countdownText st) (countryNameVisible st) (countryNameText st)
    (infoDisplay st) (shuffleIndicatorActive st) (flagImageSrc st)
    (flagImageAlt st) (flagImageVisible st) (animations st) (timers st) x
    (alerts st) (fetched st) (randomCalls st).
Definition set_alerts (x : list string) (st : State) : State :=
  mkState (flags st) (isLoading st) (isAnimating st) (isShuffling st)
    (currentFlag st) (countdownInterval st) (startScreenHidden st)
    (loadingScreenActive st) (gameScreenActive st) (countdownDisplay st)
    (countdownText st) (countryNameVisible st) (countryNameText st)
    (infoDisplay st) (shuffleIndicatorActive st) (flagImageSrc st)
    (flagImageAlt st) (flagImageVisible st) (animations st) (timers st)
    (console st) x (fetched st) (randomCalls st).
Definition set_fetched (x : list string) (st : State) : State :=
  mkState (flags st) (isLoading st) (isAnimating st) (isShuffling st)
    (currentFlag st) (countdownInterval st) (startScreenHidden st)
    (loadingScreenActive st) (gameScreenActive st) (countdownDisplay st)
    (countdownText st) (countryNameVisible st) (countryNameText st)
    (infoDisplay st) (shuffleIndicatorActive st) (flagImageSrc st)
    (flagImageAlt st) (flagImageVisible st) (animations st) (timers st)
    (console st) (alerts st) x (randomCalls st).
Definition set_randomCalls (x : nat) (st : State) : State :=
  mkState (flags st) (isLoading st) (isAnimating st) (isShuffling st)
    (currentFlag st) (countdownInterval st) (startScreenHidden st)
    (loadingScreenActive st) (gameScreenActive st) (countdownDisplay st)
    (countdownText st) (countryNameVisible st) (countryNameText st)
    (infoDisplay st) (shuffleIndicatorActive st) (flagImageSrc st)
    (flagImageAlt st) (flagImageVisible st) (animations st) (timers st)
    (console st) (alerts st) (fetched st) x.

Notation "st |> f" := (f st) (at level 51, left associativity, only parsing).

Definition logLine (entry : ConsoleEntry) (st : State) : State :=
  st |> set_console (console st ++ [entry]).

Definition startTask (task : Task) (st : State) : State :=
  st |> set_animations (animations st ++ [task]).

Definition startTween (target : Target) (duration : Q) (onComplete : Callback)
    (st : State) : State :=
  startTask (Tween target duration onComplete) st.

(** Decimal rendering of the integers the program prints. *)
Definition showNat (n : nat) : string := NilZero.string_of_uint (Nat.to_uint n).
Definition showZ (z : Z) : string := NilZero.string_of_int (Z.to_int z).

(** [s.includes(sub)] *)
Definition includes (sub s : string) : bool :=
  match String.index 0 sub s with
  | Some _ => true
  | None => false
  end.

(** ** loadFlags *)

Record Endpoint : Type := mkEndpoint {
  url : string;
  parser : value -> result (option (list FlagEntry))
}.

Definition apiEndpoints : list Endpoint :=
  [ mkEndpoint "https://restcountries.com/v3.1/all?fields=name,flags,cca2"
      parseRestCountriesV3;
    mkEndpoint "https://restcountries.com/v3.1/all"
      parseRestCountriesV3;
    mkEndpoint
      "https://next-js-countries-eight.vercel.app/_next/data/iLjXAfUjjvB63POmLec0M/index.json"
      parseNextJsCountries;
    mkEndpoint "https://restcountries.com/v2/all"
      parseRestCountriesV2 ].

(** [response.ok] *)
Definition responseOk (status : nat) : bool :=
  (200 <=? status)%nat && (status <=? 299)%nat.

(** [responseData.status === 400 || responseData.message === "Not Found" ||
    responseData._embedded?.errors] *)
Definition isErrorObject (responseData : value) : result bool :=
  let! status := getProp responseData "status" in
  if strictEqNum status "400" then Ok true
  else
    let! msg := getProp responseData "message" in
    if strictEqStr msg "Not Found" then Ok true
    else
      let! embedded := getProp responseData "_embedded" in
      let! errors := getPropOpt embedded "errors" in
      Ok (truthy errors).

(** [new Error(v)]: the message is [v] converted to a string. *)
Definition newError {A : Type} (v : value) : result A :=
  let! msg := toStr v in
  Throw (mkError msg).

(** The body of the inner [try]: fetch, check, parse. *)
Definition fetchAndParse (w : World) (requestNo : nat) (endpoint : Endpoint)
  : result (option (list FlagEntry)) :=
  match net w requestNo (url endpoint) with
  | Rejected msg => Throw (mkError msg)
  | Responded status body =>
      if negb (responseOk status) then Throw (mkError ("HTTP " +:+ showNat status))
      else
        match body with
        | BadJson msg => Throw (mkError msg)
        | Json responseData =>
            let! bad := isErrorObject responseData in
            if (bad : bool) then
              let! msg := getProp responseData "message" in
              newError (orElse msg (VStr "API error"))
            else parser endpoint responseData
        end
  end.

(** [flags && flags.length > 0] *)
Definition nonEmpty (flags : option (list FlagEntry)) : bool :=
  match flags with
  | Some (_ :: _) => true
  | _ => false
  end.

(** The [for ... of] loop, with its two locals [flags] and [lastError]. *)
Fixpoint tryEndpoints (w : World) (endpoints : list Endpoint)
    (flags : option (list FlagEntry)) (lastError : option JsError) (st : State)
  : State * option (list FlagEntry) * option JsError :=
  match endpoints with
  | [] => (st, flags, lastError)
  | endpoint :: rest =>
      let st1 := st |> logLine (ConsoleLog ("Trying API: " +:+ url endpoint)) in
      let requestNo := length (fetched st1) in
      let st2 := st1 |> set_fetched (fetched st1 ++ [url endpoint]) in
      match fetchAndParse w requestNo endpoint with
      | Ok parsed =>
          if nonEmpty parsed then
            (st2 |> set_flags (default [] parsed)
                 |> logLine (ConsoleLog
                      ("Successfully loaded " +:+ showNat (length (default [] parsed))
                       +:+ " flags from " +:+ url endpoint)),
             parsed, lastError)
          else tryEndpoints w rest parsed lastError st2
      | Throw error =>
          tryEndpoints w rest flags (Some error)
            (st2 |> logLine (ConsoleWarn
                      ("Failed to load from " +:+ url endpoint +:+ ":")
                      (message error)))
      end
  end.

(** The outer [try] block: it ends normally, having started the tween that
    hides the loading screen, or it throws. *)
Definition loadFlagsTry (w : World) (st : State) : State * result unit :=
  let '(st1, flags, lastError) := tryEndpoints w apiEndpoints None None st in
  if nonEmpty flags then
    (st1 |> startTween LoadingScreen (1 # 2) LoadingHidden, Ok tt)
  else
    (st1, Throw (default (mkError "All API endpoints failed") lastError)).

Definition fieldsMessage : string :=
  "API sozlamalari o'zgardi. Iltimos, biroz kutib, qayta urinib ko'ring.".
Definition connectionMessage : string :=
  "Bayroqlarni yuklashda xatolik yuz berdi. Internet aloqasini tekshiring va sahifani yangilang.".

(** The [catch] block. *)
Definition loadFlagsCatch (error : JsError) (st : State) : State :=
  let errorMessage :=
    if includes "fields" (message error) then fieldsMessage else connectionMessage in
  st |> logLine (ConsoleError "Error loading flags:" error)
     |> set_alerts (alerts st ++ [errorMessage])
     |> set_isLoading false
     |> set_loadingScreenActive false
     |> set_startScreenHidden false
     |> startTween StartScreen (1 # 2) NoCallback.

(** [loadFlags], run from its first statement to its last: what other
    handlers do while it waits for the network is not part of it. *)
Definition loadFlags (w : World) (st : State) : State :=
  let st0 := st |> set_isLoading true |> set_loadingScreenActive true in
  match loadFlagsTry w st0 with
  | (st1, Ok _) => st1
  | (st1, Throw error) => loadFlagsCatch error st1
  end.

(** ** The round *)

(** [playDrumRollSound]: twelve oscillators, one [Math.random()] each; an
    exception of the audio interface ends the loop where it is, and is
    caught and reported. *)
Definition playDrumRollSound (w : World) (st : State) : State :=
  match audioError w with
  | None => st |> set_randomCalls (randomCalls st + 12)
  | Some (made, msg) =>
      st |> set_randomCalls (randomCalls st + Nat.min made 12)
         |> logLine (ConsoleWarn "Could not play drum roll sound:" msg)
  end.

(** [Math.floor(Math.random() * this.flags.length)] for the draw [r]. *)
Definition randomIndex (r : Q) (len : nat) : Z :=
  Qfloor (fmul r (inject_Z (Z.of_nat len))).

(** [this.flags[i]]; [None] is [undefined]. *)
Definition flagAt (flags : list FlagEntry) (i : Z) : option FlagEntry :=
  if (i <? 0)%Z then None else nth_error flags (Z.to_nat i).

(** [0.7 + Math.random() * 0.3] and [10 + Math.floor(Math.random() * 6)].
    The sum of 10 and a small integer is exact. *)
Definition shuffleDuration (r : Q) : Q :=
  fadd (literal (7 # 10)) (fmul r (literal (3 # 10))).
Definition shuffleCount (r : Q) : Z := 10 + Qfloor (fmul r 6).

(** The body of the [for] loop of [shuffleFlags], [n] more times, the next
    draw being number [next]. *)
Fixpoint shuffleSteps (w : World) (flags : list FlagEntry) (interval : Q)
    (next n : nat) : list TimelineStep :=
  match n with
  | O => []
  | S n' =>
      mkStep interval
        (Some (flagAt flags (randomIndex (random w next) (length flags))))
      :: shuffleSteps w flags interval (S next) n'
  end.

(** [shuffleFlags] up to its [await]: the timeline is built and running. *)
Definition shuffleFlags (w : World) (st : State) : State :=
  let p := randomCalls st in
  let duration := shuffleDuration (random w p) in
  let steps := shuffleCount (random w (p + 1)) in
  let interval := fdiv duration (inject_Z steps) in
  let n := Z.to_nat steps in
  st |> set_randomCalls (p + 2 + n)
     |> startTask (ShuffleTimeline
          (shuffleSteps w (flags st) interval (p + 2) n ++ [mkStep (1 # 5) None])).

(** [playRound] up to [await this.shuffleFlags()]. *)
Definition playRound (w : World) (st : State) : State :=
  if isShuffling st || isAnimating st then st
  else
    st |> set_isShuffling true
       |> set_isAnimating true
       |> set_gameScreenActive true
       |> set_countdownDisplay "flex"
       |> set_countdownText "1"
       |> set_countryNameVisible false
       |> set_countryNameText ""
       |> set_infoDisplay "flex"
       |> set_shuffleIndicatorActive true
       |> startTween ShuffleIndicator (3 # 10) NoCallback
       |> playDrumRollSound w
       |> shuffleFlags w.

(** The rest of [playRound], run when the timeline has finished.  Reading
    [flagUrl] of [undefined], or converting an image address that cannot be
    converted, throws: the round stops where it is. *)
Definition afterShuffle (w : World) (st : State) : State :=
  let p := randomCalls st in
  let i := randomIndex (random w p) (length (flags st)) in
  let st1 := st |> set_randomCalls (S p) |> set_currentFlag (flagAt (flags st) i) in
  match currentFlag st1 with
  | None => st1
  | Some flag =>
      match toStr (flagUrl flag) with
      | Throw _ => st1
      | Ok src =>
          let st2 := st1 |> set_flagImageSrc src in
          match toStr (name flag) with
          | Throw _ => st2
          | Ok alt =>
              st2 |> set_flagImageAlt alt
                  |> startTween ShuffleIndicator (3 # 10) IndicatorHidden
                  |> startTween FlagImage (1 # 2) RevealDone
          end
      end
  end.

Definition findTimer (id : nat) (st : State) : option Timer :=
  List.find (fun t => Nat.eqb (timerId t) id) (timers st).

Definition updateTimer (id : nat) (f : Timer -> Timer) (st : State) : State :=
  st |> set_timers
          (List.map (fun t => if Nat.eqb (timerId t) id then f t else t) (timers st)).

(** [clearInterval(this.countdownInterval)]; clearing [null] does nothing. *)
Definition clearInterval (handle : option nat) (st : State) : State :=
  match handle with
  | None => st
  | Some id => updateTimer id (fun t => mkTimer (timerId t) (count t) false) st
  end.

Definition startCountdown (st : State) : State :=
  let id := length (timers st) in
  st |> set_isShuffling false
     |> set_countdownDisplay "flex"
     |> set_countdownText (showZ 1)
     |> set_countryNameVisible false
     |> startTween CountdownNumber (3 # 10) NoCallback
     |> set_timers (timers st ++ [mkTimer id 1 true])
     |> set_countdownInterval (Some id).

(** The value a [textContent] setter stores: [null] and [undefined] give the
    empty string. *)
Definition textOf (v : value) : result string :=
  match v with
  | VUndefined | VNull => Ok ""
  | _ => toStr v
  end.

Definition showCountryName (st : State) : State :=
  match currentFlag st with
  | None => st
  | Some flag =>
      match textOf (nameUzbek flag) with
      | Throw _ => st
      | Ok text =>
          st |> set_countryNameText text
             |> set_countryNameVisible true
             |> startTween CountryNameContainer (1 # 2) NoCallback
             |> set_isAnimating false
      end
  end.

(** [resetForNextRound]; nothing in the program calls it. *)
Definition resetForNextRound (st : State) : State :=
  st |> startTween CountryNameContainer (3 # 10) NameHidden
     |> startTween FlagImage (3 # 10) FlagReset.

(** One firing of the interval callback of [startCountdown]. *)
Definition tick (id : nat) (st : State) : State :=
  match findTimer id st with
  | None => st
  | Some t =>
      if active t then
        let count' := (count t - 1)%Z in
        let st1 := updateTimer id (fun t => mkTimer (timerId t) count' (active t)) st in
        if (count' >? 0)%Z then
          st1 |> startTween CountdownNumber (1 # 5) (ShowCount id)
        else
          st1 |> clearInterval (countdownInterval st1)
              |> startTween CountdownNumber (3 # 10) CountdownHidden
      else st
  end.

(** The [onComplete] closures. *)
Definition runCallback (w : World) (cb : Callback) (st : State) : State :=
  match cb with
  | NoCallback => st
  | HideStartScreen => st |> set_startScreenHidden true
  | LoadingHidden =>
      st |> set_loadingScreenActive false |> set_isLoading false |> playRound w
  | IndicatorHidden => st |> set_shuffleIndicatorActive false
  | RevealDone => st |> set_flagImageVisible true |> startCountdown
  | ShowCount id =>
      match findTimer id st with
      | None => st
      | Some t =>
          st |> set_countdownText (showZ (count t))
             |> startTween CountdownNumber (3 # 10) NoCallback
      end
  | CountdownHidden => st |> set_countdownDisplay "none" |> showCountryName
  | NameHidden => st |> set_countryNameVisible false |> set_countryNameText ""
  | FlagReset =>
      st |> set_flagImageSrc "" |> set_flagImageVisible false |> set_isAnimating false
  end.

(** The [onStart] closure of a shuffle step: [this.flagImage.src =
    randomFlag.flagUrl]; an exception leaves the image as it is. *)
Definition runOnStart (step : TimelineStep) (st : State) : State :=
  match onStart step with
  | Some (Some randomFlag) =>
      match toStr (flagUrl randomFlag) with
      | Ok src => st |> set_flagImageSrc src
      | Throw _ => st
      end
  | _ => st
  end.

Fixpoint removeAt {A : Type} (i : nat) (l : list A) : list A :=
  match l, i with
  | [], _ => []
  | _ :: rest, O => rest
  | x :: rest, S i' => x :: removeAt i' rest
  end.

Fixpoint replaceAt {A : Type} (i : nat) (y : A) (l : list A) : list A :=
  match l, i with
  | [], _ => []
  | _ :: rest, O => y :: rest
  | x :: rest, S i' => x :: replaceAt i' y rest
  end.

(** The [i]-th running animation makes its next move: a tween completes and
    runs [onComplete]; the timeline starts its next tween, or, having none
    left, completes and resumes [playRound]. *)
Definition advance (w : World) (i : nat) (st : State) : State :=
  match nth_error (animations st) i with
  | None => st
  | Some (Tween _ _ cb) =>
      st |> set_animations (removeAt i (animations st)) |> runCallback w cb
  | Some (ShuffleTimeline []) =>
      st |> set_animations (removeAt i (animations st)) |> afterShuffle w
  | Some (ShuffleTimeline (step :: rest)) =>
      st |> set_animations (replaceAt i (ShuffleTimeline rest) (animations st))
         |> runOnStart step
  end.

Definition startGame (w : World) (st : State) : State :=
  if isAnimating st || isShuffling st || isLoading st then st
  else
    let st1 := st |> startTween StartScreen (1 # 2) HideStartScreen in
    if Nat.eqb (length (flags st1)) 0 then loadFlags w st1 else playRound w st1.

(** The [keydown] listener. *)
Definition onKeyDown (w : World) (key : string) (st : State) : State :=
  if String.eqb key "Enter" then
    if startScreenHidden st then
      if negb (isShuffling st) then playRound w st else st
    else startGame w st
  else st.

(** ** Events *)

Inductive Event : Type :=
| Click                      (* the enter button is clicked *)
| KeyDown (key : string)
| Advance (i : nat)          (* animation [i] makes its next move *)
| Tick (id : nat).           (* interval [id] fires *)

Definition step (w : World) (ev : Event) (st : State) : State :=
  match ev with
  | Click => startGame w st
  | KeyDown key => onKeyDown w key st
  | Advance i => advance w i st
  | Tick id => tick id st
  end.

Definition run (w : World) (evs : list Event) (st : State) : State :=
  fold_left (fun s ev => step w ev s) evs st.

(** The game as the constructor leaves it, on a page that shows the start
    screen and nothing else. *)
Definition newGame : State :=
  mkState [] false false false None None
    false false false "" "" false "" "" false "" "" false
    [] [] [] [] [] 0.

(** ** Checks and sample inputs used by the properties below *)

(** The table has a non-empty entry for [n]. *)
Definition hasTranslation (n : string) : bool :=
  match translations !! n with
  | Some t => negb (String.eqb t "")
  | None => false
  end.

(** The invariant of the working set, on one entry: an image address that
    the parsers' own test ([||], [&&]) takes for present, and a name of the
    allow-list. *)
Definition usableEntry (e : FlagEntry) : Prop :=
  truthy (flagUrl e) = true /\ includesName (name e) = true.

(** A record whose [flags] object has neither [svg] nor [png]. *)
Definition franceWithoutImage : value :=
  VObj [("name", VStr "France"); ("flags", VObj [])].

Definition nextJsBody : value :=
  VObj [("pageProps", VObj [("countries", VArr [franceWithoutImage])])].

(** The two REST Countries v3.1 addresses answer 500, the third address
    answers [nextJsBody]. *)
Definition nextJsWorld : World :=
  mkWorld
    (fun requestNo _ =>
       if (requestNo <? 2)%nat then Responded 500 (Json VNull)
       else Responded 200 (Json nextJsBody))
    (fun _ => 0%Q)
    None.

(** *** The loop of [loadFlags], told as a list

    The addresses the loop gets to, each with what its request came to; the
    first request of the call is number [base]. *)

Abbreviation Attempt := (Endpoint * result (option (list FlagEntry)))%type.

(** The loop [break]s on this. *)
Definition loaded (r : result (option (list FlagEntry))) : bool :=
  match r with
  | Ok parsed => nonEmpty parsed
  | Throw _ => false
  end.

Fixpoint attempts (w : World) (endpoints : list Endpoint) (base : nat) : list Attempt :=
  match endpoints with
  | [] => []
  | endpoint :: rest =>
      let r := fetchAndParse w base endpoint in
      (endpoint, r) :: (if loaded r then [] else attempts w rest (S base))
  end.

Definition warning (endpoint : Endpoint) (error : JsError) : ConsoleEntry :=
  ConsoleWarn ("Failed to load from " +:+ url endpoint +:+ ":") (message error).

Definition attemptEntries (a : Attempt) : list ConsoleEntry :=
  ConsoleLog ("Trying API: " +:+ url (fst a))
  :: match snd a with
     | Ok parsed =>
         if nonEmpty parsed then
           [ConsoleLog ("Successfully loaded " +:+ showNat (length (default [] parsed))
                        +:+ " flags from " +:+ url (fst a))]
         else []
     | Throw error => [warning (fst a) error]
     end.

Definition flagsAfter (atts : list Attempt) (flags0 : list FlagEntry) : list FlagEntry :=
  fold_left
    (fun fl a => if loaded (snd a)
                 then match snd a with Ok parsed => default [] parsed | Throw _ => fl end
                 else fl)
    atts flags0.

Definition localFlags (atts : list Attempt) (flags0 : option (list FlagEntry))
  : option (list FlagEntry) :=
  fold_left (fun fl a => match snd a with Ok parsed => parsed | Throw _ => fl end)
    atts flags0.

Definition localError (atts : list Attempt) (error0 : option JsError) : option JsError :=
  fold_left (fun e a => match snd a with Ok _ => e | Throw error => Some error end)
    atts error0.

Definition afterAttempts (atts : list Attempt) (st : State) : State :=
  st |> set_console (console st ++ flat_map attemptEntries atts)
     |> set_fetched (fetched st ++ List.map (fun a => url (fst a)) atts)
     |> set_flags (flagsAfter atts (flags st)).

(** Endpoint [k] is reached: no endpoint before it made the loop [break]. *)
Definition reached (w : World) (endpoints : list Endpoint) (base k : nat) : Prop :=
  forall j endpoint, (j < k)%nat -> nth_error endpoints j = Some endpoint ->
    loaded (fetchAndParse w (base + j) endpoint) = false.

(** What a call of [loadFlags] entered in [st] added to the console. *)
Definition printed (st st' : State) : list ConsoleEntry :=
  skipn (length (console st)) (console st').

(** Every address answers 200 with the empty array. *)
Definition emptyListWorld : World :=
  mkWorld (fun _ _ => Responded 200 (Json (VArr []))) (fun _ => 0%Q) None.

(** *** States of the round *)

(** Events the program raises by itself: animations moving on and intervals
    firing.  Clicks and key presses are the player's. *)
Definition automatic (ev : Event) : bool :=
  match ev with
  | Advance _ | Tick _ => true
  | Click | KeyDown _ => false
  end.

(** Callbacks that touch neither the round nor the name on display. *)
Definition passive (cb : Callback) : bool :=
  match cb with
  | NoCallback | HideStartScreen | IndicatorHidden => true
  | _ => false
  end.

(** Nothing is under way that could change the round: every interval is
    cleared and every running animation is a tween with a passive callback. *)
Definition quiet (st : State) : Prop :=
  Forall (fun t => active t = false) (timers st) /\
  Forall (fun a => match a with
                   | Tween _ _ cb => passive cb = true
                   | ShuffleTimeline _ => False
                   end) (animations st).

(** No round is between its shuffle and its reveal, and no tween of
    [resetForNextRound] is running. *)
Definition noRelease (st : State) : Prop :=
  Forall (fun a => match a with
                   | Tween _ _ FlagReset => False
                   | Tween _ _ _ => True
                   | ShuffleTimeline _ => False
                   end) (animations st).

(** Timer handles are given out in order. *)
Definition handlesInOrder (st : State) : Prop :=
  Forall (fun t => (timerId t < length (timers st))%nat) (timers st).

(** The lock is held with no entry selected and nothing under way that
    could select one. *)
Definition stuck (st : State) : Prop :=
  isAnimating st = true /\ currentFlag st = None /\ noRelease st.

(** *** Draws

    What rounding can move: one part in [2 ^ 52]. *)
Definition slack : Q := pow2 (-52).

(** [index] is the cell the draw [r] falls in when the interval from 0 to 1
    is cut into [cells] cells of equal width, the two ends of each cell
    being good to one part in [2 ^ 52]: [r] is in the cell of [index] widened
    by that much, and a draw inside a cell narrowed by that much has the
    index of that cell.  A draw spread evenly over the interval gives each
    index of [0, cells) the same share, 1/[cells], to that precision. *)
Definition cellOf (r : Q) (cells index : Z) : Prop :=
  (0 <= index < cells)%Z /\
  (inject_Z index / inject_Z cells * (1 - slack) <= r /\
   r < inject_Z (index + 1) / inject_Z cells * (1 + slack))%Q /\
  forall j : Z, (0 <= j)%Z ->
    (inject_Z j / inject_Z cells * (1 + slack) <= r)%Q ->
    (r <= inject_Z (j + 1) / inject_Z cells * (1 - slack))%Q ->
    index = j.

(** *** A sample session: the first address answers with France and Japan,
    every draw is 1/2, the audio interface works. *)

Definition france : value :=
  VObj [("name", VObj [("common", VStr "France")]);
        ("flags", VObj [("svg", VStr "https://flagcdn.com/fr.svg")]);
        ("cca2", VStr "FR")].

Definition japan : value :=
  VObj [("name", VObj [("common", VStr "Japan")]);
        ("flags", VObj [("png", VStr "https://flagcdn.com/w320/jp.png")]);
        ("cca2", VStr "JP")].

Definition sampleWorld : World :=
  mkWorld (fun _ _ => Responded 200 (Json (VArr [france; japan])))
          (fun _ => (1 # 2)%Q)
          None.

(** The button is clicked, the start screen and the loading screen fade
    out: the first round is shuffling. *)
Definition shufflingGame : State :=
  run sampleWorld [Click; Advance 0; Advance 0] newGame.

(** The timeline has run its thirteen steps and its closing tween, and
    [playRound] has chosen the flag and started the reveal. *)
Definition revealedGame : State :=
  run sampleWorld (repeat (Advance 1) 15) shufflingGame.

Definition japanEntry : FlagEntry :=
  mkFlag (VStr "Japan") (VStr "Yaponiya")
    (VStr "https://flagcdn.com/w320/jp.png") (VStr "JP").

(** The reveal has completed, the interval has fired once and the countdown
    number has faded out: the name is on display. *)
Definition nameShownGame : State :=
  run sampleWorld [Advance 2; Tick 0; Advance 3] revealedGame.


(** The first request is answered 404, the second with the empty array,
    the others with France and Japan. *)
Definition fallbackWorld : World :=
  mkWorld
    (fun requestNo _ =>
       match requestNo with
       | 0 => Responded 404 (BadJson "Unexpected token")
       | 1 => Responded 200 (Json (VArr []))
       | _ => Responded 200 (Json (VArr [france; japan]))
       end)
    (fun _ => (1 # 2)%Q)
    None.

(** No request gets through. *)
Definition offlineWorld : World :=
  mkWorld (fun _ _ => Rejected "Failed to fetch") (fun _ => (1 # 2)%Q) None.

Definition secondEndpoint : Endpoint :=
  mkEndpoint "https://restcountries.com/v3.1/all" parseRestCountriesV3.

Definition franceEntry : FlagEntry :=
  mkFlag (VStr "France") (VStr "Fransiya")
    (VStr "https://flagcdn.com/fr.svg") (VStr "FR").

(** *** What holds in every state the game gets to *)

(** The parts of a round under way among the running animations: the
    shuffle timeline, the reveal and the fade that ends the countdown. *)
Definition roundTask (a : Task) : bool :=
  match a with
  | ShuffleTimeline _ => true
  | Tween _ _ RevealDone => true
  | Tween _ _ CountdownHidden => true
  | Tween _ _ _ => false
  end.

Definition countdownFade (a : Task) : bool :=
  match a with
  | Tween _ _ CountdownHidden => true
  | _ => false
  end.

(** Tweens only the [count > 0] branch of the interval callback and
    [resetForNextRound] start. *)
Definition neverStarted (a : Task) : bool :=
  match a with
  | Tween _ _ (ShowCount _) => true
  | Tween _ _ NameHidden => true
  | Tween _ _ FlagReset => true
  | _ => false
  end.

Definition timerOn (st : State) : bool := existsb active (timers st).

(** How many rounds are under way: parts of a round among the animations,
    plus one for an interval that is set. *)
Definition underWay (st : State) : nat :=
  length (List.filter roundTask (animations st)) + (if timerOn st then 1 else 0).

(** The countdown is on: its interval is set or its last fade is running. *)
Definition counting (st : State) : bool :=
  existsb countdownFade (animations st) || timerOn st.

(** An entry as the parsers make them for the working set: a name of the
    allow-list with the table's translation. *)
Definition entryOk (e : FlagEntry) : Prop :=
  exists n t, name e = VStr n /\ In n popularCountryNames /\
              translations !! n = Some t /\ nameUzbek e = VStr t.

Record sound (st : State) : Prop := mkSound {
  one_round : (underWay st <= 1)%nat;
  round_locked :
    underWay st = 1%nat -> isAnimating st = true /\ countryNameVisible st = false;
  shuffling_locked : isShuffling st = true -> isAnimating st = true;
  counting_not_shuffling : counting st = true -> isShuffling st = false;
  nothing_dead : Forall (fun a => neverStarted a = false) (animations st);
  timers_in_place :
    forall i t, nth_error (timers st) i = Some t ->
      timerId t = i /\
      (active t = true -> count t = 1%Z /\ countdownInterval st = Some i);
  counter_text : countdownText st = "" \/ countdownText st = "1";
  flags_ok : Forall entryOk (flags st);
  current_in_flags : forall f, currentFlag st = Some f -> In f (flags st);
  shown_name :
    countryNameVisible st = true ->
    exists f t, currentFlag st = Some f /\ nameUzbek f = VStr t /\
                countryNameText st = t
}.

(** The states the game gets to from its construction, in some world, by
    some sequence of events. *)
Definition reachable (st : State) : Prop :=
  exists w evs, st = run w evs newGame.

(** The event makes [playRound] run: a click on the button, the Enter key,
    or the completion of the fade of the loading screen. *)
Definition startsRound (ev : Event) (st : State) : Prop :=
  match ev with
  | Click => True
  | KeyDown key => key = "Enter"
  | Advance i =>
      exists target duration,
        nth_error (animations st) i = Some (Tween target duration LoadingHidden)
  | Tick _ => False
  end.



(** The start screen has faded out while the loading screen is still on. *)
Definition loadingGame : State := run sampleWorld [Click; Advance 0] newGame.

(** Nothing could be loaded, the start screen has faded out, Enter has asked
    for a round and its timeline, built over the empty working set, has run
    its thirteen steps and its closing tween. *)
Definition strandedGame : State :=
  run offlineWorld
    ([Click; Advance 0; KeyDown "Enter"] ++ repeat (Advance 2) 14) newGame.

(** * Properties *)

(** Unfolds the field updates and reads the fields of the result. *)
Ltac state_cbn :=
  cbv beta iota delta [
       flags isLoading isAnimating isShuffling currentFlag
       countdownInterval startScreenHidden loadingScreenActive
       gameScreenActive countdownDisplay countdownText countryNameVisible
       countryNameText infoDisplay shuffleIndicatorActive flagImageSrc
       flagImageAlt flagImageVisible animations timers console alerts
       fetched randomCalls set_flags set_isLoading set_isAnimating
       set_isShuffling set_currentFlag set_countdownInterval
       set_startScreenHidden set_loadingScreenActive set_gameScreenActive
       set_countdownDisplay set_countdownText set_countryNameVisible
       set_countryNameText set_infoDisplay set_shuffleIndicatorActive
       set_flagImageSrc set_flagImageAlt set_flagImageVisible
       set_animations set_timers set_console set_alerts set_fetched
       set_randomCalls logLine startTask startTween ].

(** The same in the hypotheses too. *)
Ltac state_cbn_all :=
  cbv beta iota delta [
       flags isLoading isAnimating isShuffling currentFlag
       countdownInterval startScreenHidden loadingScreenActive
       gameScreenActive countdownDisplay countdownText countryNameVisible
       countryNameText infoDisplay shuffleIndicatorActive flagImageSrc
       flagImageAlt flagImageVisible animations timers console alerts
       fetched randomCalls set_flags set_isLoading set_isAnimating
       set_isShuffling set_currentFlag set_countdownInterval
       set_startScreenHidden set_loadingScreenActive set_gameScreenActive
       set_countdownDisplay set_countdownText set_countryNameVisible
       set_countryNameText set_infoDisplay set_shuffleIndicatorActive
       set_flagImageSrc set_flagImageAlt set_flagImageVisible
       set_animations set_timers set_console set_alerts set_fetched
       set_randomCalls logLine startTask startTween ] in *.

(** ** Positions past a prefix of a list *)

Lemma nth_error_beyond {A : Type} (l l' : list A) (k : nat) :
  nth_error (l ++ l') (length l + k) = nth_error l' k.
Proof. induction l as [|x l IH]; [reflexivity | exact IH]. Qed.

Lemma removeAt_beyond {A : Type} (l l' : list A) (k : nat) :
  removeAt (length l + k) (l ++ l') = l ++ removeAt k l'.
Proof.
  induction l as [|x l IH]; [reflexivity|].
  change (x :: removeAt (length l + k) (l ++ l') = x :: (l ++ removeAt k l')).
  by rewrite IH.
Qed.

Lemma replaceAt_beyond {A : Type} (l l' : list A) (k : nat) (y : A) :
  replaceAt (length l + k) y (l ++ l') = l ++ replaceAt k y l'.
Proof.
  induction l as [|x l IH]; [reflexivity|].
  change (x :: replaceAt (length l + k) y (l ++ l') = x :: (l ++ replaceAt k y l')).
  by rewrite IH.
Qed.

(** ** The result monad and the array methods *)

Lemma bindR_Ok {A B : Type} (r : result A) (k : A -> result B) (b : B) :
  bindR r k = Ok b -> exists a, r = Ok a /\ k a = Ok b.
Proof. destruct r as [a|e]; simpl; [eauto | discriminate]. Qed.

Ltac inv_bind :=
  repeat match goal with
    | H : bindR _ _ = Ok _ |- _ =>
        apply bindR_Ok in H; destruct H as (? & ? & H)
    | H : (if ?b then _ else _) = Ok _ |- _ => destruct b eqn:?
    | H : Ok _ = Ok _ |- _ => injection H as H
    | H : Throw _ = Ok _ |- _ => discriminate H
    end.

Lemma filterR_Ok {A : Type} (p : A -> result bool) (l kept : list A) :
  filterR p l = Ok kept ->
  forall x, In x kept -> In x l /\ p x = Ok true.
Proof.
  revert kept. induction l as [|a l IH]; simpl; intros kept H x Hx.
  - injection H as <-. destruct Hx.
  - apply bindR_Ok in H as (b & Hb & H).
    apply bindR_Ok in H as (kept' & Hk & H).
    injection H as <-. destruct b.
    + destruct Hx as [<-|Hx]; [auto|]. destruct (IH _ Hk _ Hx); auto.
    + destruct (IH _ Hk _ Hx); auto.
Qed.

Lemma mapR_Ok {A B : Type} (f : A -> result B) (l : list A) (ys : list B) :
  mapR f l = Ok ys ->
  forall y, In y ys -> exists x, In x l /\ f x = Ok y.
Proof.
  revert ys. induction l as [|a l IH]; simpl; intros ys H y Hy.
  - injection H as <-. destruct Hy.
  - apply bindR_Ok in H as (b & Hb & H).
    apply bindR_Ok in H as (ys' & Hys & H).
    injection H as <-. destruct Hy as [<-|Hy]; [eauto|].
    destruct (IH _ Hys _ Hy) as (x & ? & ?). eauto.
Qed.

#[local] Arguments inStrings : simpl never.

Lemma inStrings_In (k : string) (l : list string) :
  inStrings k l = true <-> In k l.
Proof.
  unfold inStrings. rewrite existsb_exists. split.
  - intros (x & Hx & Heq). apply String.eqb_eq in Heq. by subst.
  - intros H. exists k. split; [done | apply String.eqb_refl].
Qed.

Lemma includesName_spec (v : value) :
  includesName v = true <-> exists s, v = VStr s /\ In s popularCountryNames.
Proof.
  split.
  - unfold includesName. destruct v; try discriminate.
    intros H%inStrings_In. eauto.
  - intros (s & -> & H). unfold includesName. by apply inStrings_In.
Qed.

Lemma filterPopularCountries_In (l : list FlagEntry) (e : FlagEntry) :
  In e (filterPopularCountries l) <-> In e l /\ includesName (name e) = true.
Proof. unfold filterPopularCountries. apply filter_In. Qed.

(** ** The translation table *)

Lemma translations_nonempty (s t : string) :
  translations !! s = Some t -> t <> "".
Proof.
  intros H. apply elem_of_list_to_map_2, list_elem_of_In in H.
  assert (Hall : forallb (fun p => negb (String.eqb (snd p) "")) translationPairs = true)
    by (vm_compute; reflexivity).
  rewrite forallb_forall in Hall. specialize (Hall _ H). cbn [snd] in Hall.
  intros ->. discriminate Hall.
Qed.

Lemma translationsAt_own (s t : string) :
  translations !! s = Some t -> translationsAt s = VStr t /\ truthy (VStr t) = true.
Proof.
  intros H. unfold translationsAt. rewrite H. split; [reflexivity|].
  cbn [truthy]. apply translations_nonempty in H.
  destruct (String.eqb_spec t ""); [contradiction | done].
Qed.

(** On a string that names no member of [Object.prototype],
    [translateToUzbek] is the table lookup with the name itself as default. *)
Lemma translateToUzbek_plain (s : string) :
  inStrings s objectPrototypeKeys = false ->
  translateToUzbek (VStr s) = Ok (VStr (default s (translations !! s))).
Proof.
  intros Hproto. unfold translateToUzbek. cbn [toStr bindR]. f_equal.
  destruct (translations !! s) as [t|] eqn:Ht.
  - apply translationsAt_own in Ht as [-> Htr]. unfold orElse. by rewrite Htr.
  - unfold translationsAt, protoLookup. rewrite Ht, Hproto. reflexivity.
Qed.

Lemma popular_hasTranslation (n : string) :
  In n popularCountryNames ->
  exists t, translations !! n = Some t /\ translateToUzbek (VStr n) = Ok (VStr t).
Proof.
  intros Hn.
  assert (Hall : forallb hasTranslation popularCountryNames = true)
    by (vm_compute; reflexivity).
  rewrite forallb_forall in Hall. specialize (Hall _ Hn).
  unfold hasTranslation in Hall.
  destruct (translations !! n) as [t|] eqn:Ht; [|discriminate].
  exists t. split; [done|].
  unfold translateToUzbek. cbn [toStr bindR]. f_equal.
  apply translationsAt_own in Ht as [-> Htr]. unfold orElse. by rewrite Htr.
Qed.


(** ** What the parsers put in an entry *)

Lemma getPropOpt_truthy (v : value) (k : string) :
  truthy v = true -> getPropOpt v k = getProp v k.
Proof. destruct v; simpl; intros H; try discriminate H; reflexivity. Qed.

(** A record that passes the test of the two REST Countries parsers gets an
    image address the test found present. *)
Lemma hasFlagImage_url (country url : value) :
  hasFlagImage country = Ok true ->
  flagsSvgOrPng country = Ok url ->
  truthy url = true.
Proof.
  unfold hasFlagImage, flagsSvgOrPng.
  destruct (getProp country "flags") as [fl|]; cbn [bindR]; [|discriminate].
  destruct (truthy fl) eqn:Hfl; [|discriminate].
  rewrite !(getPropOpt_truthy fl) by exact Hfl.
  destruct (getProp fl "svg") as [svg|]; cbn [bindR]; [|discriminate].
  destruct (truthy svg) eqn:Hsvg.
  - intros _ [= <-]. exact Hsvg.
  - destruct (getProp fl "png") as [png|]; cbn [bindR]; [|discriminate].
    intros [= Hpng] [= <-]. exact Hpng.
Qed.

Lemma parseRestCountriesV3_entries (data : value) (flags : list FlagEntry) :
  parseRestCountriesV3 data = Ok (Some flags) ->
  forall e, In e flags ->
    usableEntry e /\ translateToUzbek (name e) = Ok (nameUzbek e).
Proof.
  unfold parseRestCountriesV3. intros H e He.
  destruct (negb (isArray data)); [discriminate|].
  apply bindR_Ok in H as (kept & Hkept & H).
  apply bindR_Ok in H as (allFlags & Hall & H).
  injection H as <-.
  apply filterPopularCountries_In in He as [He Hname].
  destruct (mapR_Ok _ _ _ Hall _ He) as (country & Hc & Hentry).
  destruct (filterR_Ok _ _ _ Hkept _ Hc) as [_ Himg].
  inv_bind. subst e. cbn [name nameUzbek flagUrl] in *.
  repeat split; [eapply hasFlagImage_url; eassumption | assumption |].
  congruence.
Qed.

Lemma parseRestCountriesV2_entries (data : value) (flags : list FlagEntry) :
  parseRestCountriesV2 data = Ok (Some flags) ->
  forall e, In e flags ->
    usableEntry e /\ translateToUzbek (name e) = Ok (nameUzbek e).
Proof.
  unfold parseRestCountriesV2. intros H e He.
  destruct (negb (isArray data)); [discriminate|].
  apply bindR_Ok in H as (kept & Hkept & H).
  apply bindR_Ok in H as (allFlags & Hall & H).
  injection H as <-.
  apply filterPopularCountries_In in He as [He Hname].
  destruct (mapR_Ok _ _ _ Hall _ He) as (country & Hc & Hentry).
  destruct (filterR_Ok _ _ _ Hkept _ Hc) as [_ Himg].
  inv_bind. subst e. cbn [name nameUzbek flagUrl] in *.
  repeat split; [eapply hasFlagImage_url; eassumption | assumption |].
  congruence.
Qed.

(** The third parser guarantees the name and its translation, not the image
    address. *)
Lemma parseNextJsCountries_entries (data : value) (flags : list FlagEntry) :
  parseNextJsCountries data = Ok (Some flags) ->
  forall e, In e flags ->
    includesName (name e) = true /\ translateToUzbek (name e) = Ok (nameUzbek e).
Proof.
  unfold parseNextJsCountries. intros H e He.
  apply bindR_Ok in H as (countries & Hcs & H).
  destruct (negb (truthy countries) || negb (isArray countries)); [discriminate|].
  apply bindR_Ok in H as (kept & Hkept & H).
  apply bindR_Ok in H as (allFlags & Hall & H).
  injection H as <-.
  apply filterPopularCountries_In in He as [He Hname].
  destruct (mapR_Ok _ _ _ Hall _ He) as (country & Hc & Hentry).
  apply bindR_Ok in Hentry as (url & Hurl & Hentry).
  apply bindR_Ok in Hentry as (nm & Hnm & Hentry).
  apply bindR_Ok in Hentry as (uz & Huz & Hentry).
  apply bindR_Ok in Hentry as (cd & Hcd & Hentry).
  injection Hentry as <-. cbn [name nameUzbek] in *. auto.
Qed.

(** An entry of the allow-list whose localized name was computed by
    [translateToUzbek] carries the table's entry. *)
Lemma popular_entry_translated (e : FlagEntry) :
  includesName (name e) = true ->
  translateToUzbek (name e) = Ok (nameUzbek e) ->
  exists n t, name e = VStr n /\ In n popularCountryNames /\
              translations !! n = Some t /\ nameUzbek e = VStr t.
Proof.
  intros (n & Hn & Hpop)%includesName_spec Htr.
  destruct (popular_hasTranslation n Hpop) as (t & Ht & Hcall).
  rewrite Hn, Hcall in Htr. injection Htr as Huz.
  exists n, t. auto.
Qed.

Lemma parser_entries (endpoint : Endpoint) (data : value) (flags : list FlagEntry) :
  In endpoint apiEndpoints ->
  parser endpoint data = Ok (Some flags) ->
  forall e, In e flags ->
    includesName (name e) = true /\ translateToUzbek (name e) = Ok (nameUzbek e).
Proof.
  intros Hep H e He. simpl in Hep.
  destruct Hep as [<-|[<-|[<-|[<-|[]]]]]; cbn [parser] in H.
  - destruct (parseRestCountriesV3_entries _ _ H e He) as [[_ ?] ?]; auto.
  - destruct (parseRestCountriesV3_entries _ _ H e He) as [[_ ?] ?]; auto.
  - exact (parseNextJsCountries_entries _ _ H e He).
  - destruct (parseRestCountriesV2_entries _ _ H e He) as [[_ ?] ?]; auto.
Qed.

(** C9. Every name of the allow-list is a key of the translation table, and
    every entry a parser of the loader returns has the table's entry for its
    name as localized name: for the working set the fallback to the name
    itself is never taken. *)
Theorem allow_list_within_translations :
  (forall n, In n popularCountryNames -> exists t, translations !! n = Some t) /\
  (forall endpoint data flags e,
     In endpoint apiEndpoints ->
     parser endpoint data = Ok (Some flags) ->
     In e flags ->
     exists n t, name e = VStr n /\ In n popularCountryNames /\
                 translations !! n = Some t /\ nameUzbek e = VStr t).
Proof.
  split.
  - intros n Hn. destruct (popular_hasTranslation n Hn) as (t & Ht & _). eauto.
  - intros endpoint data flags e Hep H He.
    destruct (parser_entries endpoint data flags Hep H e He).
    by apply popular_entry_translated.
Qed.

Lemma allow_list_within_translations_witness :
  In secondEndpoint apiEndpoints /\
  parser secondEndpoint (VArr [france; japan]) = Ok (Some [franceEntry; japanEntry]) /\
  In franceEntry [franceEntry; japanEntry] /\
  (exists t, translations !! "France" = Some t) /\
  (exists n t, name franceEntry = VStr n /\ In n popularCountryNames /\
               translations !! n = Some t /\ nameUzbek franceEntry = VStr t).
Proof.
  assert (Hep : In secondEndpoint apiEndpoints) by (right; left; reflexivity).
  assert (Hparse : parser secondEndpoint (VArr [france; japan])
                   = Ok (Some [franceEntry; japanEntry]))
    by (vm_compute; reflexivity).
  assert (Hin : In franceEntry [franceEntry; japanEntry]) by (left; reflexivity).
  assert (Hpop : In "France" popularCountryNames) by (left; reflexivity).
  destruct allow_list_within_translations as [Hkeys Hentries].
  split; [exact Hep|]. split; [exact Hparse|]. split; [exact Hin|].
  split; [exact (Hkeys _ Hpop)|].
  exact (Hentries _ _ _ _ Hep Hparse Hin).
Defined.

(** C8. [translateToUzbek("constructor")]: the table has no entry for the
    name, and the result is not the name but the member the table object
    inherits from [Object.prototype]. *)
Theorem translateToUzbek_inherited_member :
  translations !! "constructor" = None /\
  translateToUzbek (VStr "constructor") = Ok (VBuiltin "constructor") /\
  translateToUzbek (VStr "constructor") <> Ok (VStr "constructor").
Proof.
  assert (H : translateToUzbek (VStr "constructor") = Ok (VBuiltin "constructor"))
    by (vm_compute; reflexivity).
  split; [vm_compute; reflexivity|]. split; [exact H|].
  rewrite H. discriminate.
Qed.

(** C1. The third parser keeps a record whose [flags] object holds no image
    address: with the first two addresses failing, the loader puts an entry
    with an [undefined] image address in [this.flags]. *)
Theorem loadFlags_entry_without_image :
  parseNextJsCountries nextJsBody
    = Ok (Some [mkFlag (VStr "France") (VStr "Fransiya") VUndefined VUndefined]) /\
  flags (loadFlags nextJsWorld newGame)
    = [mkFlag (VStr "France") (VStr "Fransiya") VUndefined VUndefined] /\
  ~ Forall usableEntry (flags (loadFlags nextJsWorld newGame)).
Proof.
  assert (H : flags (loadFlags nextJsWorld newGame)
              = [mkFlag (VStr "France") (VStr "Fransiya") VUndefined VUndefined])
    by (vm_compute; reflexivity).
  split; [vm_compute; reflexivity|]. split; [exact H|].
  rewrite H. intros Hall. inversion Hall as [|? ? [Hurl _] _]. discriminate Hurl.
Qed.

(** ** The loop of [loadFlags] *)

Lemma afterAttempts_cons (a : Attempt) (atts : list Attempt) (st : State) :
  afterAttempts (a :: atts) st
  = afterAttempts atts
      (st |> set_console (console st ++ attemptEntries a)
          |> set_fetched (fetched st ++ [url (fst a)])
          |> set_flags (flagsAfter [a] (flags st))).
Proof.
  unfold afterAttempts.
  cbn [flat_map List.map flagsAfter fold_left console fetched flags
       set_console set_fetched set_flags].
  rewrite <- !app_assoc. reflexivity.
Qed.

(** The loop ends in the state and with the locals the list of attempts
    tells. *)
Lemma tryEndpoints_attempts (w : World) (endpoints : list Endpoint) :
  forall flags0 error0 st,
    tryEndpoints w endpoints flags0 error0 st
    = let atts := attempts w endpoints (length (fetched st)) in
      (afterAttempts atts st, localFlags atts flags0, localError atts error0).
Proof.
  induction endpoints as [|endpoint rest IH]; intros flags0 error0 st.
  - cbn [tryEndpoints attempts]. cbv zeta. unfold afterAttempts.
    cbn [flat_map List.map flagsAfter fold_left]. rewrite !app_nil_r.
    destruct st; reflexivity.
  - cbn [tryEndpoints attempts]. cbv zeta.
    cbn [logLine set_console fetched].
    destruct (fetchAndParse w (length (fetched st)) endpoint) as [parsed|error] eqn:Hr.
    + cbn [loaded]. destruct (nonEmpty parsed) eqn:Hne.
      * cbn [localFlags localError fold_left snd].
        unfold afterAttempts, flagsAfter, attemptEntries, logLine.
        cbn [flat_map List.map fold_left snd fst loaded]. rewrite Hne.
        cbn [console fetched flags set_console set_fetched set_flags].
        rewrite !app_nil_r, <- !app_assoc. reflexivity.
      * rewrite IH. cbv zeta. rewrite afterAttempts_cons.
        cbn [fetched set_fetched set_console]. rewrite length_app, Nat.add_1_r.
        cbn [localFlags localError fold_left snd].
        unfold flagsAfter, attemptEntries. cbn [fold_left snd fst loaded].
        rewrite Hne. reflexivity.
    + rewrite IH. cbv zeta. rewrite afterAttempts_cons.
      cbn [loaded fetched set_fetched set_console logLine].
      rewrite length_app, Nat.add_1_r.
      cbn [localFlags localError fold_left snd].
      unfold flagsAfter, attemptEntries, warning.
      cbn [fold_left snd fst loaded console set_console set_fetched].
      unfold logLine. cbn [console set_console set_fetched].
      rewrite <- !app_assoc. reflexivity.
Qed.

Lemma reached_tail (w : World) (endpoint : Endpoint) (rest : list Endpoint)
    (base k : nat) :
  reached w (endpoint :: rest) base (S k) ->
  loaded (fetchAndParse w base endpoint) = false /\ reached w rest (S base) k.
Proof.
  intros H. split.
  - specialize (H 0 endpoint (Nat.lt_0_succ k) eq_refl).
    by rewrite Nat.add_0_r in H.
  - intros j e Hj He. specialize (H (S j) e (proj1 (Nat.succ_lt_mono j k) Hj) He).
    by rewrite Nat.add_succ_r in H.
Qed.

Lemma attempts_nth (w : World) (endpoints : list Endpoint) :
  forall base k endpoint,
    reached w endpoints base k ->
    nth_error endpoints k = Some endpoint ->
    nth_error (attempts w endpoints base) k
    = Some (endpoint, fetchAndParse w (base + k) endpoint).
Proof.
  induction endpoints as [|e rest IH]; intros base k endpoint Hreach Hk.
  - destruct k; discriminate Hk.
  - destruct k as [|k]; cbn [attempts nth_error] in *.
    + injection Hk as ->. by rewrite Nat.add_0_r.
    + apply reached_tail in Hreach as [Hfirst Hrest]. rewrite Hfirst.
      rewrite (IH (S base) k endpoint Hrest Hk). by rewrite Nat.add_succ_r.
Qed.

Lemma attempts_stop (w : World) (endpoints : list Endpoint) :
  forall base k a,
    nth_error (attempts w endpoints base) k = Some a ->
    loaded (snd a) = true ->
    length (attempts w endpoints base) = S k.
Proof.
  induction endpoints as [|e rest IH]; intros base k a Hk Hl.
  - destruct k; discriminate Hk.
  - cbn [attempts] in *. destruct k as [|k]; cbn [nth_error] in Hk.
    + injection Hk as <-. cbn [snd] in Hl. by rewrite Hl.
    + destruct (loaded (fetchAndParse w base e)).
      * destruct k; discriminate Hk.
      * cbn [length]. f_equal. by eapply IH.
Qed.

Lemma attempts_In (w : World) (endpoints : list Endpoint) :
  forall base a,
    In a (attempts w endpoints base) ->
    exists k, nth_error endpoints k = Some (fst a) /\
              snd a = fetchAndParse w (base + k) (fst a).
Proof.
  induction endpoints as [|e rest IH]; intros base a Ha.
  - destruct Ha.
  - cbn [attempts] in Ha. destruct Ha as [<-|Ha].
    + exists 0. by rewrite Nat.add_0_r.
    + destruct (loaded (fetchAndParse w base e)); [destruct Ha|].
      destruct (IH _ _ Ha) as (k & Hk & Hr). exists (S k).
      by rewrite Nat.add_succ_r.
Qed.

(** [loadFlags] in one piece. *)
Lemma loadFlags_attempts (w : World) (st : State) :
  loadFlags w st
  = let atts := attempts w apiEndpoints (length (fetched st)) in
    let st1 := afterAttempts atts
                 (st |> set_isLoading true |> set_loadingScreenActive true) in
    if nonEmpty (localFlags atts None)
    then st1 |> startTween LoadingScreen (1 # 2) LoadingHidden
    else loadFlagsCatch
           (default (mkError "All API endpoints failed") (localError atts None)) st1.
Proof.
  unfold loadFlags, loadFlagsTry. rewrite tryEndpoints_attempts. cbv zeta.
  cbn [fetched set_isLoading set_loadingScreenActive].
  destruct (nonEmpty _); reflexivity.
Qed.

Lemma loadFlags_fetched (w : World) (st : State) :
  fetched (loadFlags w st)
  = fetched st ++ List.map (fun a => url (fst a))
                    (attempts w apiEndpoints (length (fetched st))).
Proof.
  rewrite loadFlags_attempts. cbv zeta. destruct (nonEmpty _); reflexivity.
Qed.

Lemma loadFlags_flags (w : World) (st : State) :
  flags (loadFlags w st)
  = flagsAfter (attempts w apiEndpoints (length (fetched st))) (flags st).
Proof.
  rewrite loadFlags_attempts. cbv zeta. destruct (nonEmpty _); reflexivity.
Qed.

Lemma loadFlags_printed (w : World) (st : State) :
  exists rest,
    printed st (loadFlags w st)
    = flat_map attemptEntries (attempts w apiEndpoints (length (fetched st))) ++ rest
    /\ forall text detail, ~ In (ConsoleWarn text detail) rest.
Proof.
  unfold printed. rewrite loadFlags_attempts. cbv zeta.
  destruct (nonEmpty _).
  - exists []. cbn [console startTween startTask set_animations afterAttempts
                    set_console set_fetched set_flags set_isLoading
                    set_loadingScreenActive].
    rewrite app_nil_r, skipn_app, skipn_all, Nat.sub_diag. split; [reflexivity|].
    intros ? ? [].
  - eexists [_].
    cbn [console loadFlagsCatch logLine startTween startTask set_animations
         afterAttempts set_console set_fetched set_flags set_isLoading
         set_loadingScreenActive set_alerts set_startScreenHidden].
    rewrite <- app_assoc, skipn_app, skipn_all, Nat.sub_diag.
    split; [reflexivity|]. intros ? ? [H|[]]. discriminate H.
Qed.

Lemma reached_succ (w : World) (endpoints : list Endpoint) (base k : nat)
    (endpoint : Endpoint) :
  reached w endpoints base k ->
  nth_error endpoints k = Some endpoint ->
  loaded (fetchAndParse w (base + k) endpoint) = false ->
  reached w endpoints base (S k).
Proof.
  intros Hreach Hk Hfail j e Hj He.
  destruct (Nat.eq_dec j k) as [->|Hne].
  - rewrite Hk in He. injection He as <-. exact Hfail.
  - apply (Hreach j e); [lia | exact He].
Qed.

(** A reached endpoint is fetched, as the request its position tells. *)
Lemma loadFlags_fetches_reached (w : World) (st : State) (k : nat)
    (endpoint : Endpoint) :
  nth_error apiEndpoints k = Some endpoint ->
  reached w apiEndpoints (length (fetched st)) k ->
  nth_error (fetched (loadFlags w st)) (length (fetched st) + k)
  = Some (url endpoint).
Proof.
  intros Hk Hreach. rewrite loadFlags_fetched.
  rewrite nth_error_app2 by lia.
  replace (length (fetched st) + k - length (fetched st)) with k by lia.
  rewrite nth_error_map, (attempts_nth _ _ _ _ _ Hreach Hk). reflexivity.
Qed.

Lemma flagsAfter_first_loaded (w : World) (endpoints : list Endpoint) :
  forall base k endpoint parsed flags0,
    reached w endpoints base k ->
    nth_error endpoints k = Some endpoint ->
    fetchAndParse w (base + k) endpoint = Ok parsed ->
    nonEmpty parsed = true ->
    flagsAfter (attempts w endpoints base) flags0 = default [] parsed.
Proof.
  induction endpoints as [|e rest IH]; intros base k endpoint parsed flags0 Hreach Hk Hr Hne.
  - destruct k; discriminate Hk.
  - destruct k as [|k]; cbn [attempts nth_error] in *.
    + injection Hk as ->. rewrite Nat.add_0_r in Hr. rewrite Hr.
      cbn [loaded]. rewrite Hne. unfold flagsAfter. cbn [fold_left snd loaded].
      by rewrite Hne.
    + apply reached_tail in Hreach as [Hfirst Hrest]. rewrite Hfirst.
      unfold flagsAfter. cbn [fold_left snd]. rewrite Hfirst.
      rewrite Nat.add_succ_r in Hr. exact (IH _ _ _ _ _ Hrest Hk Hr Hne).
Qed.

(** C3, refuted as stated. Every address answers with the empty array: the
    first endpoint comes to an empty list, the loader goes on to the other
    three, and the console holds no warning. *)
Lemma loadFlags_empty_list_not_warned :
  (exists endpoint,
     nth_error apiEndpoints 0 = Some endpoint /\
     fetchAndParse emptyListWorld 0 endpoint = Ok (Some [])) /\
  fetched (loadFlags emptyListWorld newGame) = List.map url apiEndpoints /\
  (forall text detail,
     ~ In (ConsoleWarn text detail) (console (loadFlags emptyListWorld newGame))).
Proof.
  split; [eexists; split; [reflexivity | vm_compute; reflexivity]|].
  split; [vm_compute; reflexivity|].
  intros text detail Hin.
  assert (Hc : exists entries,
             console (loadFlags emptyListWorld newGame) = entries /\
             forallb (fun e => match e with ConsoleWarn _ _ => false | _ => true end)
               entries = true)
    by (eexists; split; [reflexivity | vm_compute; reflexivity]).
  destruct Hc as (entries & Heq & Hall). rewrite Heq in Hin.
  rewrite forallb_forall in Hall. specialize (Hall _ Hin). discriminate Hall.
Qed.

(** C3, amended. For every endpoint the loader reaches: it is fetched, in
    the order of the list.  When its parsed and filtered list is not empty
    the loader keeps that list and fetches nothing after it.  When the
    attempt throws (the request, a status outside 200-299, an error-shaped
    body, the parser), the warning is printed and the next endpoint is
    fetched.  When the parser gives [null] or the filtered list is empty, the
    next endpoint is fetched and no warning is printed for this one. *)
Theorem loadFlags_fallback (w : World) (st : State) (k : nat) (endpoint : Endpoint) :
  let base := length (fetched st) in
  let st' := loadFlags w st in
  let fetchedNext :=
    forall next, nth_error apiEndpoints (S k) = Some next ->
      nth_error (fetched st') (base + S k) = Some (url next) in
  nth_error apiEndpoints k = Some endpoint ->
  reached w apiEndpoints base k ->
  nth_error (fetched st') (base + k) = Some (url endpoint) /\
  match fetchAndParse w (base + k) endpoint with
  | Ok parsed =>
      if nonEmpty parsed then
        flags st' = default [] parsed /\ length (fetched st') = base + S k
      else
        fetchedNext /\
        forall detail,
          ~ In (ConsoleWarn ("Failed to load from " +:+ url endpoint +:+ ":") detail)
               (printed st st')
  | Throw error =>
      fetchedNext /\ In (warning endpoint error) (printed st st')
  end.
Proof.
  intros base st' fetchedNext Hk Hreach.
  split; [by apply loadFlags_fetches_reached|].
  pose proof (attempts_nth _ _ _ _ _ Hreach Hk) as Hnth. fold base in Hnth.
  destruct (loadFlags_printed w st) as (tail & Hprinted & Htail).
  fold st' base in Hprinted.
  assert (Hnext : loaded (fetchAndParse w (base + k) endpoint) = false -> fetchedNext).
  { intros Hfail next Hn. apply loadFlags_fetches_reached; [exact Hn|].
    by eapply reached_succ. }
  destruct (fetchAndParse w (base + k) endpoint) as [parsed|error] eqn:Hr.
  - destruct (nonEmpty parsed) eqn:Hne.
    + split.
      * unfold st'. rewrite loadFlags_flags.
        by eapply flagsAfter_first_loaded.
      * unfold st'. rewrite loadFlags_fetched, length_app, length_map.
        f_equal. eapply attempts_stop; [exact Hnth|]. exact Hne.
    + split; [apply Hnext; exact Hne|].
      intros detail Hin. rewrite Hprinted in Hin.
      apply in_app_or in Hin as [Hin|Hin]; [|by eapply Htail].
      apply in_flat_map in Hin as (a & Ha & Hin).
      apply attempts_In in Ha as (j & Hj & Hout). fold base in Hout.
      destruct a as [e r]. cbn [fst snd] in *. unfold attemptEntries in Hin.
      cbn [fst snd] in Hin. destruct Hin as [Hin|Hin]; [discriminate Hin|].
      destruct r as [p|err].
      * destruct (nonEmpty p); [destruct Hin as [Hin|[]]; discriminate Hin | destruct Hin].
      * destruct Hin as [Hin|[]]. injection Hin as Htext _.
        assert (j = k) as ->.
        { clear -Hj Hk Htext.
          do 5 (try destruct j as [|j]); try discriminate Hj;
            do 5 (try destruct k as [|k]); try discriminate Hk;
            try reflexivity;
            injection Hj as <-; injection Hk as <-;
            vm_compute in Htext; discriminate Htext. }
        rewrite Hj in Hk. injection Hk as ->. congruence.
  - split; [by apply Hnext|].
    rewrite Hprinted. apply in_or_app. left.
    apply in_flat_map. exists (endpoint, Throw error).
    split; [eapply nth_error_In; exact Hnth|].
    unfold attemptEntries. cbn [fst snd]. right. left. reflexivity.
Qed.

Lemma loadFlags_fallback_witness :
  nth_error apiEndpoints 1 = Some secondEndpoint /\
  reached fallbackWorld apiEndpoints (length (fetched newGame)) 1 /\
  fetchAndParse fallbackWorld 1 secondEndpoint = Ok (Some []) /\
  nth_error (fetched (loadFlags fallbackWorld newGame)) 1 = Some (url secondEndpoint) /\
  (forall detail,
     ~ In (ConsoleWarn ("Failed to load from " +:+ url secondEndpoint +:+ ":") detail)
          (printed newGame (loadFlags fallbackWorld newGame))).
Proof.
  assert (Hreach : reached fallbackWorld apiEndpoints (length (fetched newGame)) 1).
  { intros j e Hj He. destruct j as [|j]; [|lia].
    injection He as <-. vm_compute. reflexivity. }
  assert (Hr : fetchAndParse fallbackWorld 1 secondEndpoint = Ok (Some []))
    by (vm_compute; reflexivity).
  pose proof (loadFlags_fallback fallbackWorld newGame 1 secondEndpoint
                eq_refl Hreach) as H.
  cbv zeta in H. change (length (fetched newGame) + 1)%nat with 1%nat in H.
  rewrite Hr in H. cbn [nonEmpty] in H. destruct H as (Hfetched & _ & Hquiet).
  split; [reflexivity|]. split; [exact Hreach|]. split; [exact Hr|].
  split; [exact Hfetched | exact Hquiet].
Defined.

(** ** When no endpoint loads *)

Lemma localError_snoc (atts : list Attempt) (a : Attempt) (error0 : option JsError) :
  localError (atts ++ [a]) error0
  = match snd a with
    | Ok _ => localError atts error0
    | Throw error => Some error
    end.
Proof. unfold localError. rewrite fold_left_app. reflexivity. Qed.

(** The local [lastError] after the loop: the error of the last attempt that
    threw, or its initial value when none did. *)
Lemma localError_last (atts : list Attempt) (error0 : option JsError) :
  (exists k endpoint error,
     localError atts error0 = Some error /\
     nth_error atts k = Some (endpoint, Throw error) /\
     forall j a e, (k < j)%nat -> nth_error atts j = Some a -> snd a <> Throw e)
  \/ (localError atts error0 = error0 /\
      forall a e, In a atts -> snd a <> Throw e).
Proof.
  induction atts as [|a atts IH] using rev_ind.
  - right. split; [reflexivity|]. intros ? ? [].
  - rewrite localError_snoc. destruct a as [endpoint [parsed|error]]; cbn [snd].
    + destruct IH as [(k & ep & err & Herr & Hk & Hlater)|[Hnone Hall]].
      * left. exists k, ep, err. split; [exact Herr|]. split.
        { rewrite nth_error_app1; [exact Hk|].
          apply nth_error_Some. rewrite Hk. discriminate. }
        intros j a e Hj Ha.
        destruct (Nat.lt_ge_cases j (length atts)) as [Hlt|Hge].
        { rewrite nth_error_app1 in Ha by exact Hlt. by eapply Hlater. }
        rewrite nth_error_app2 in Ha by exact Hge.
        destruct (j - length atts) as [|[|n]]; cbn in Ha; [|discriminate Ha..].
        injection Ha as <-. discriminate.
      * right. split; [exact Hnone|].
        intros a e [Ha|[<-|[]]]%in_app_or; [by apply Hall | discriminate].
    + left. exists (length atts), endpoint, error. split; [reflexivity|]. split.
      * rewrite nth_error_app2 by lia. by rewrite Nat.sub_diag.
      * intros j a e Hj Ha.
        assert (Hnone : nth_error (atts ++ [(endpoint, Throw error)]) j = None).
        { apply nth_error_None. rewrite length_app. cbn [length]. lia. }
        congruence.
Qed.

Lemma attempts_length_le (w : World) (endpoints : list Endpoint) :
  forall base, (length (attempts w endpoints base) <= length endpoints)%nat.
Proof.
  induction endpoints as [|e rest IH]; intros base; cbn [attempts length]; [lia|].
  destruct (loaded _); cbn [length]; [lia|]. specialize (IH (S base)). lia.
Qed.

Lemma localFlags_not_loaded (atts : list Attempt) :
  forall flags0,
    nonEmpty flags0 = false ->
    (forall a, In a atts -> loaded (snd a) = false) ->
    nonEmpty (localFlags atts flags0) = false.
Proof.
  induction atts as [|a atts IH]; intros flags0 H0 Hall; [exact H0|].
  unfold localFlags. cbn [fold_left]. apply IH.
  - pose proof (Hall a (or_introl eq_refl)) as Ha.
    destruct (snd a); [exact Ha | exact H0].
  - intros b Hb. apply Hall. by right.
Qed.

Lemma flagsAfter_not_loaded (atts : list Attempt) (flags0 : list FlagEntry) :
  (forall a, In a atts -> loaded (snd a) = false) ->
  flagsAfter atts flags0 = flags0.
Proof.
  induction atts as [|a atts IH]; intros Hall; [reflexivity|].
  unfold flagsAfter. cbn [fold_left].
  rewrite (Hall a (or_introl eq_refl)). apply IH.
  intros b Hb. apply Hall. by right.
Qed.

(** When no endpoint comes to a non-empty list, the [try] block of
    [loadFlags] throws: the error of the last attempt that threw, or, when
    none threw, a new error.  The [catch] block then shows one alert, clears
    [isLoading], takes the loading screen away, shows the start screen again
    and leaves [this.flags] as it was. *)
Lemma loadFlags_failure (w : World) (st : State) :
  let base := length (fetched st) in
  let st' := loadFlags w st in
  (forall k endpoint, nth_error apiEndpoints k = Some endpoint ->
     loaded (fetchAndParse w (base + k) endpoint) = false) ->
  exists error,
    snd (loadFlagsTry w (st |> set_isLoading true |> set_loadingScreenActive true))
      = Throw error /\
    ((exists k endpoint,
        nth_error apiEndpoints k = Some endpoint /\
        fetchAndParse w (base + k) endpoint = Throw error /\
        forall j later e, (k < j)%nat -> nth_error apiEndpoints j = Some later ->
          fetchAndParse w (base + j) later <> Throw e)
     \/ (error = mkError "All API endpoints failed" /\
         forall k endpoint e, nth_error apiEndpoints k = Some endpoint ->
           fetchAndParse w (base + k) endpoint <> Throw e)) /\
    alerts st' = alerts st ++
      [if includes "fields" (message error) then fieldsMessage else connectionMessage] /\
    isLoading st' = false /\
    loadingScreenActive st' = false /\
    startScreenHidden st' = false /\
    flags st' = flags st /\
    (flags st = [] -> flags st' = []).
Proof.
  intros base st' Hfail.
  set (atts := attempts w apiEndpoints base).
  assert (Hreach : forall k, reached w apiEndpoints base k).
  { intros k j e _ He. by apply Hfail. }
  assert (Hatt : forall k endpoint, nth_error apiEndpoints k = Some endpoint ->
            nth_error atts k = Some (endpoint, fetchAndParse w (base + k) endpoint)).
  { intros k e He. by apply attempts_nth. }
  assert (Hin : forall a, In a atts ->
            exists k, nth_error apiEndpoints k = Some (fst a) /\
                      snd a = fetchAndParse w (base + k) (fst a)).
  { intros a Ha. by apply attempts_In. }
  assert (Hnot : forall a, In a atts -> loaded (snd a) = false).
  { intros a (k & Hk & ->)%Hin. by apply Hfail. }
  assert (Hlocal : nonEmpty (localFlags atts None) = false)
    by (by apply localFlags_not_loaded).
  exists (default (mkError "All API endpoints failed") (localError atts None)).
  assert (Hst' : st' = loadFlagsCatch
            (default (mkError "All API endpoints failed") (localError atts None))
            (afterAttempts atts (st |> set_isLoading true |> set_loadingScreenActive true))).
  { unfold st'. rewrite loadFlags_attempts. cbv zeta. fold base atts.
    by rewrite Hlocal. }
  split.
  { unfold loadFlagsTry. rewrite tryEndpoints_attempts. cbv zeta.
    cbn [fetched set_isLoading set_loadingScreenActive]. fold base atts.
    by rewrite Hlocal. }
  split.
  { destruct (localError_last atts None)
      as [(k & endpoint & error & -> & Hk & Hlater)|[-> Hall]]; cbn [default].
    - left.
      assert (Hep : nth_error apiEndpoints k = Some endpoint /\
                    fetchAndParse w (base + k) endpoint = Throw error).
      { destruct (nth_error apiEndpoints k) as [ep'|] eqn:Hep'.
        - pose proof (Hatt _ _ Hep') as Hk'. rewrite Hk in Hk'.
          injection Hk' as -> Hr. auto.
        - exfalso. apply nth_error_None in Hep'.
          assert (k < length atts)%nat
            by (apply nth_error_Some; rewrite Hk; discriminate).
          pose proof (attempts_length_le w apiEndpoints base) as Hle.
          change (attempts w apiEndpoints base) with atts in Hle. lia. }
      destruct Hep as [Hep Hr]. exists k, endpoint.
      split; [exact Hep|]. split; [exact Hr|].
      intros j later e Hj Hl Hthrow.
      apply (Hlater j _ e Hj (Hatt _ _ Hl)). exact Hthrow.
    - right. split; [reflexivity|].
      intros k endpoint e Hk Hr. apply (Hall (endpoint, Throw e) e); [|reflexivity].
      rewrite <- Hr. eapply nth_error_In. by apply Hatt. }
  rewrite Hst'. unfold afterAttempts.
  cbn [loadFlagsCatch logLine startTween startTask alerts isLoading
       loadingScreenActive startScreenHidden flags set_animations set_console
       set_fetched set_flags set_alerts set_isLoading set_loadingScreenActive
       set_startScreenHidden].
  rewrite (flagsAfter_not_loaded _ _ Hnot). repeat split; auto.
Qed.

(** The state the [catch] block leaves, field by field. *)
Lemma loadFlags_failure_state (w : World) (st : State) :
  (forall k endpoint, nth_error apiEndpoints k = Some endpoint ->
     loaded (fetchAndParse w (length (fetched st) + k) endpoint) = false) ->
  exists error,
    loadFlags w st
    = loadFlagsCatch error
        (afterAttempts (attempts w apiEndpoints (length (fetched st)))
           (st |> set_isLoading true |> set_loadingScreenActive true)) /\
    flagsAfter (attempts w apiEndpoints (length (fetched st))) (flags st) = flags st.
Proof.
  intros Hfail.
  set (atts := attempts w apiEndpoints (length (fetched st))).
  assert (Hnot : forall a, In a atts -> loaded (snd a) = false).
  { intros a Ha. destruct (attempts_In _ _ _ _ Ha) as (k & Hk & ->). by apply Hfail. }
  exists (default (mkError "All API endpoints failed") (localError atts None)).
  split; [|by apply flagsAfter_not_loaded].
  rewrite loadFlags_attempts. cbv zeta. fold atts.
  by rewrite (localFlags_not_loaded atts None eq_refl Hnot).
Qed.

(** C4. A click on the button with nothing loaded, in a world where no
    endpoint comes to a non-empty list.  [loadFlags] fails with the error of
    the last attempt that threw (a new error when none threw); its [catch]
    block shows one alert, clears [isLoading], takes the loading screen away,
    removes [hidden] from the start screen and leaves [this.flags] empty.
    But the fade [startGame] started on the start screen before the load is
    still running, and its completion hides the start screen again: the
    game then rests with nothing loaded, no lock held and the start screen
    hidden, not as it was before the load. *)
Theorem failed_load_start_screen_hidden_again (w : World) (st : State) :
  isAnimating st = false ->
  isShuffling st = false ->
  isLoading st = false ->
  flags st = [] ->
  (forall k endpoint, nth_error apiEndpoints k = Some endpoint ->
     loaded (fetchAndParse w (length (fetched st) + k) endpoint) = false) ->
  let failed := step w Click st in
  let rest := step w (Advance (length (animations st))) failed in
  (exists error,
     snd (loadFlagsTry w
            (st |> startTween StartScreen (1 # 2) HideStartScreen
                |> set_isLoading true |> set_loadingScreenActive true))
       = Throw error /\
     ((exists k endpoint,
         nth_error apiEndpoints k = Some endpoint /\
         fetchAndParse w (length (fetched st) + k) endpoint = Throw error /\
         forall j later e, (k < j)%nat -> nth_error apiEndpoints j = Some later ->
           fetchAndParse w (length (fetched st) + j) later <> Throw e)
      \/ (error = mkError "All API endpoints failed" /\
          forall k endpoint e, nth_error apiEndpoints k = Some endpoint ->
            fetchAndParse w (length (fetched st) + k) endpoint <> Throw e)) /\
     alerts failed = alerts st ++
       [if includes "fields" (message error) then fieldsMessage else connectionMessage]) /\
  (isLoading failed = false /\
   loadingScreenActive failed = false /\
   startScreenHidden failed = false /\
   flags failed = [] /\
   animations failed
   = animations st ++ [Tween StartScreen (1 # 2) HideStartScreen;
                       Tween StartScreen (1 # 2) NoCallback]) /\
  (startScreenHidden rest = true /\
   flags rest = [] /\
   isLoading rest = false /\
   loadingScreenActive rest = false /\
   isAnimating rest = false /\
   isShuffling rest = false /\
   gameScreenActive rest = gameScreenActive st /\
   alerts rest = alerts failed).
Proof.
  intros Ha Hs Hl Hflags Hfail. cbv zeta. cbn [step]. unfold startGame.
  rewrite Ha, Hs, Hl. cbn [orb].
  set (st0 := st |> startTween StartScreen (1 # 2) HideStartScreen).
  assert (Hf0 : flags st0 = []) by (unfold st0; by destruct st).
  rewrite Hf0. cbn [length Nat.eqb].
  assert (Hfetched : fetched st0 = fetched st) by (unfold st0; by destruct st).
  assert (Hfail0 : forall k endpoint, nth_error apiEndpoints k = Some endpoint ->
            loaded (fetchAndParse w (length (fetched st0) + k) endpoint) = false)
    by (rewrite Hfetched; exact Hfail).
  destruct (loadFlags_failure w st0 Hfail0)
    as (error & Hthrow & Hlast & Halert & _).
  cbv zeta in Hlast. rewrite Hfetched in Hlast.
  destruct (loadFlags_failure_state w st0 Hfail0) as (error' & Hstate & Hkept).
  assert (Halerts0 : alerts st0 = alerts st) by (unfold st0; by destruct st).
  split.
  { exists error. split; [exact Hthrow|]. split; [exact Hlast|].
    rewrite Halert. by rewrite Halerts0. }
  rewrite Hstate. unfold loadFlagsCatch, afterAttempts.
  cbn [flags set_isLoading set_loadingScreenActive]. rewrite Hkept, Hf0.
  clear Hfetched Hfail0 Hthrow Hlast Halert Halerts0 Hstate Hkept Hf0 Hfail.
  unfold st0. clear st0. destruct st. state_cbn_all. subst.
  rewrite <- !app_assoc. cbn [app]. split; [by repeat split|].
  unfold advance. state_cbn.
  replace (length animations0) with (length animations0 + 0)%nat by lia.
  rewrite nth_error_beyond, removeAt_beyond. cbn [nth_error removeAt runCallback].
  state_cbn. by repeat split.
Qed.

Lemma failed_load_start_screen_hidden_again_witness :
  isAnimating newGame = false /\
  isShuffling newGame = false /\
  isLoading newGame = false /\
  flags newGame = [] /\
  (forall k endpoint, nth_error apiEndpoints k = Some endpoint ->
     loaded (fetchAndParse offlineWorld (length (fetched newGame) + k) endpoint) = false) /\
  alerts (step offlineWorld Click newGame) = [connectionMessage] /\
  startScreenHidden (step offlineWorld Click newGame) = false /\
  startScreenHidden (run offlineWorld [Click; Advance 0] newGame) = true /\
  flags (run offlineWorld [Click; Advance 0] newGame) = [] /\
  isAnimating (run offlineWorld [Click; Advance 0] newGame) = false.
Proof.
  assert (Hfail : forall k endpoint, nth_error apiEndpoints k = Some endpoint ->
            loaded (fetchAndParse offlineWorld (length (fetched newGame) + k) endpoint)
            = false)
    by (intros k endpoint _; reflexivity).
  destruct (failed_load_start_screen_hidden_again offlineWorld newGame
              eq_refl eq_refl eq_refl eq_refl Hfail)
    as (_ & (_ & _ & Hshown & _) & (Hhidden & Hflags & _ & _ & Hlock & _)).
  split; [reflexivity|]. split; [reflexivity|]. split; [reflexivity|].
  split; [reflexivity|]. split; [exact Hfail|].
  split; [vm_compute; reflexivity|]. split; [exact Hshown|].
  split; [exact Hhidden|]. split; [exact Hflags | exact Hlock].
Defined.

(** ** The guard of [playRound] and [startGame] *)

Lemma start_request_ignored_while_locked_aux (w : World) (st : State) :
  isShuffling st || isAnimating st = true ->
  playRound w st = st /\
  step w (KeyDown "Enter") st = st /\
  step w Click st = st.
Proof.
  intros Hlock.
  assert (Hplay : playRound w st = st) by (unfold playRound; by rewrite Hlock).
  assert (Hstart : startGame w st = st).
  { unfold startGame.
    destruct (isShuffling st), (isAnimating st); try discriminate Hlock; reflexivity. }
  split; [exact Hplay|]. split; [|exact Hstart].
  cbn [step]. unfold onKeyDown. cbn [String.eqb Ascii.eqb Bool.eqb andb].
  destruct (startScreenHidden st); [|exact Hstart].
  destruct (negb (isShuffling st)); [exact Hplay | reflexivity].
Qed.

(** C2. While [isShuffling] or [isAnimating] is set, [playRound] returns the
    state it was given, and so do the two handlers that ask for a round, the
    [keydown] listener on Enter and the click on the button: no field, no
    animation, no timer and no draw changes. *)
Theorem start_request_ignored_while_locked (w : World) (st : State) :
  isShuffling st || isAnimating st = true ->
  playRound w st = st /\
  step w (KeyDown "Enter") st = st /\
  step w Click st = st.
Proof. apply start_request_ignored_while_locked_aux. Qed.

Lemma start_request_ignored_while_locked_witness :
  isShuffling shufflingGame || isAnimating shufflingGame = true /\
  playRound sampleWorld shufflingGame = shufflingGame /\
  step sampleWorld (KeyDown "Enter") shufflingGame = shufflingGame /\
  step sampleWorld Click shufflingGame = shufflingGame.
Proof.
  split; [reflexivity|].
  apply (start_request_ignored_while_locked sampleWorld shufflingGame).
  reflexivity.
Defined.

(** ** A lock that is never released *)

Lemma In_removeAt {A : Type} (i : nat) (l : list A) (x : A) :
  In x (removeAt i l) -> In x l.
Proof.
  revert i. induction l as [|a l IH]; intros i H; [destruct i; destruct H|].
  destruct i as [|i]; cbn [removeAt] in H; [by right|].
  destruct H as [<-|H]; [by left | right; eauto].
Qed.

Lemma Forall_removeAt {A : Type} (P : A -> Prop) (i : nat) (l : list A) :
  Forall P l -> Forall P (removeAt i l).
Proof.
  rewrite !List.Forall_forall. intros H x Hx. apply H. by eapply In_removeAt.
Qed.

Lemma Forall_nth_error {A : Type} (P : A -> Prop) (l : list A) (i : nat) (x : A) :
  Forall P l -> nth_error l i = Some x -> P x.
Proof.
  rewrite List.Forall_forall. intros H Hx. apply H. by eapply nth_error_In.
Qed.

Lemma playRound_locked (w : World) (st : State) :
  isAnimating st = true -> playRound w st = st.
Proof. intros H. unfold playRound. by rewrite H, orb_true_r. Qed.

Lemma startGame_locked (w : World) (st : State) :
  isAnimating st = true -> startGame w st = st.
Proof. intros H. unfold startGame. by rewrite H. Qed.

Lemma stuck_tick (id : nat) (st : State) : stuck st -> stuck (tick id st).
Proof.
  intros (Hanim & Hflag & Hrel). unfold tick.
  destruct (findTimer id st) as [t|]; [|by repeat split].
  destruct (active t); [|by repeat split].
  destruct (_ >? 0)%Z.
  - repeat split; [exact Hanim | exact Hflag |].
    unfold noRelease in *. cbn. apply Forall_app. split; [exact Hrel|].
    by repeat constructor.
  - unfold clearInterval. cbn [countdownInterval updateTimer set_timers].
    destruct (countdownInterval st); repeat split;
      try exact Hanim; try exact Hflag;
      unfold noRelease in *; cbn; (apply Forall_app; split; [exact Hrel|]);
      by repeat constructor.
Qed.

Lemma stuck_advance (w : World) (i : nat) (st : State) :
  stuck st -> stuck (advance w i st).
Proof.
  intros (Hanim & Hflag & Hrel). unfold advance.
  destruct (nth_error (animations st) i) as [task|] eqn:Hi; [|by repeat split].
  pose proof (Forall_nth_error _ _ _ _ Hrel Hi) as Htask.
  pose proof (Forall_removeAt _ i _ Hrel) as Hrest.
  destruct task as [target duration cb|steps]; [|destruct Htask].
  destruct cb; try destruct Htask; cbn [runCallback].
  - by repeat split.
  - by repeat split.
  - rewrite playRound_locked by exact Hanim. by repeat split.
  - by repeat split.
  - repeat split; [exact Hanim | exact Hflag |].
    unfold noRelease in *. cbn. apply Forall_app. split; [exact Hrest|].
    by repeat constructor.
  - unfold findTimer. cbn [timers set_animations].
    destruct (List.find _ (timers st)); [|by repeat split].
    repeat split; [exact Hanim | exact Hflag |].
    unfold noRelease in *. cbn. apply Forall_app. split; [exact Hrest|].
    by repeat constructor.
  - unfold showCountryName. cbn [currentFlag set_countdownDisplay set_animations].
    rewrite Hflag. by repeat split.
  - by repeat split.
Qed.

Lemma stuck_step (w : World) (ev : Event) (st : State) :
  stuck st -> stuck (step w ev st).
Proof.
  intros Hst. pose proof Hst as (Hanim & _ & _).
  destruct ev as [|key|i|id]; cbn [step].
  - by rewrite startGame_locked.
  - unfold onKeyDown. destruct (String.eqb key "Enter"); [|exact Hst].
    destruct (startScreenHidden st).
    + destruct (negb (isShuffling st)); [by rewrite playRound_locked | exact Hst].
    + by rewrite startGame_locked.
  - by apply stuck_advance.
  - by apply stuck_tick.
Qed.

Lemma stuck_run (w : World) (evs : list Event) :
  forall st, stuck st -> stuck (run w evs st).
Proof.
  induction evs as [|ev evs IH]; intros st Hst; [exact Hst|].
  cbn [run fold_left]. apply IH. by apply stuck_step.
Qed.

(** ** The countdown *)

Lemma find_fresh_timer (l : list Timer) (id : nat) (t : Timer) :
  Forall (fun t' => (timerId t' < id)%nat) l ->
  timerId t = id ->
  List.find (fun t' => Nat.eqb (timerId t') id) (l ++ [t]) = Some t.
Proof.
  intros Hl Ht. induction Hl as [|a l Ha _ IH]; cbn [List.find app].
  - by rewrite Ht, Nat.eqb_refl.
  - destruct (Nat.eqb_spec (timerId a) id); [lia | exact IH].
Qed.

Lemma map_fresh_timer (l : list Timer) (id : nat) (t : Timer) (f : Timer -> Timer) :
  Forall (fun t' => (timerId t' < id)%nat) l ->
  timerId t = id ->
  List.map (fun t' => if Nat.eqb (timerId t') id then f t' else t') (l ++ [t])
  = l ++ [f t].
Proof.
  intros Hl Ht. induction Hl as [|a l Ha _ IH]; cbn [List.map app].
  - by rewrite Ht, Nat.eqb_refl.
  - destruct (Nat.eqb_spec (timerId a) id); [lia | by rewrite IH].
Qed.

Lemma nth_error_after {A : Type} (l : list A) (a b : A) :
  nth_error (l ++ [a; b]) (S (length l)) = Some b.
Proof. induction l; [reflexivity | exact IHl]. Qed.

Lemma removeAt_after {A : Type} (l : list A) (a b : A) :
  removeAt (S (length l)) (l ++ [a; b]) = l ++ [a].
Proof.
  induction l as [|x l IH]; [reflexivity|].
  change (x :: removeAt (S (length l)) (l ++ [a; b]) = x :: (l ++ [a])).
  by rewrite IH.
Qed.

Lemma startCountdown_timers (st : State) :
  timers (startCountdown st)
  = timers st ++ [mkTimer (length (timers st)) 1 true].
Proof. reflexivity. Qed.

Lemma startCountdown_handle (st : State) :
  countdownInterval (startCountdown st) = Some (length (timers st)).
Proof. reflexivity. Qed.

(** The first firing of the interval [startCountdown] has just set. *)
Lemma tick_after_startCountdown (st : State) :
  handlesInOrder st ->
  tick (length (timers st)) (startCountdown st)
  = startCountdown st
      |> set_timers (timers st ++ [mkTimer (length (timers st)) 0 false])
      |> startTween CountdownNumber (3 # 10) CountdownHidden.
Proof.
  intros Hord. unfold handlesInOrder in Hord. destruct st. cbn [timers] in *.
  unfold tick, findTimer, startCountdown. state_cbn.
  rewrite (find_fresh_timer _ _ _ Hord) by reflexivity. cbn [active count timerId].
  change (1 - 1 >? 0)%Z with false. cbv iota.
  unfold clearInterval, updateTimer. state_cbn.
  rewrite (map_fresh_timer _ _ _ _ Hord) by reflexivity. cbn [timerId count active].
  rewrite (map_fresh_timer _ _ _ _ Hord) by reflexivity. cbn [timerId count active].
  reflexivity.
Qed.

(** C5. [startCountdown] sets an interval whose [count] is 1 and shows "1".
    The first firing brings [count] to 0, clears the interval and starts the
    fade of the number, the text still "1"; when the fade completes the
    countdown is hidden, the localized name of the current flag is shown and
    [isAnimating] is cleared.  The text of the counter is "1" throughout, and
    the interval does not fire again. *)
Theorem countdown_single_tick (w : World) (st : State) (flag : FlagEntry)
    (text : string) :
  currentFlag st = Some flag ->
  textOf (nameUzbek flag) = Ok text ->
  handlesInOrder st ->
  let id := length (timers st) in
  let st0 := startCountdown st in
  let st1 := step w (Tick id) st0 in
  let st2 := step w (Advance (S (length (animations st)))) st1 in
  (findTimer id st0 = Some (mkTimer id 1 true) /\
   countdownInterval st0 = Some id /\
   countdownText st0 = "1") /\
  (findTimer id st1 = Some (mkTimer id 0 false) /\
   countdownText st1 = "1" /\
   countryNameVisible st1 = false /\
   isAnimating st1 = isAnimating st) /\
  (countdownText st2 = "1" /\
   countdownDisplay st2 = "none" /\
   countryNameText st2 = text /\
   countryNameVisible st2 = true /\
   isAnimating st2 = false /\
   step w (Tick id) st2 = st2).
Proof.
  intros Hflag Htext Hord. cbv zeta. cbn [step].
  rewrite (tick_after_startCountdown st Hord).
  unfold handlesInOrder in Hord. destruct st. cbn [timers currentFlag animations] in *.
  subst. unfold findTimer, startCountdown. state_cbn.
  rewrite !(find_fresh_timer _ _ _ Hord) by reflexivity.
  split; [repeat split|]. split; [repeat split|].
  unfold advance. state_cbn. rewrite <- app_assoc. cbn [app].
  rewrite nth_error_after, removeAt_after. cbn [runCallback].
  unfold showCountryName. state_cbn. rewrite Htext. state_cbn.
  repeat split.
  unfold tick, findTimer. state_cbn.
  rewrite (find_fresh_timer _ _ _ Hord) by reflexivity. reflexivity.
Qed.

Lemma countdown_single_tick_witness :
  currentFlag revealedGame = Some japanEntry /\
  handlesInOrder revealedGame /\
  countryNameText
    (step sampleWorld (Advance (S (length (animations revealedGame))))
       (step sampleWorld (Tick (length (timers revealedGame)))
          (startCountdown revealedGame)))
    = "Yaponiya" /\
  isAnimating
    (step sampleWorld (Advance (S (length (animations revealedGame))))
       (step sampleWorld (Tick (length (timers revealedGame)))
          (startCountdown revealedGame)))
    = false.
Proof.
  assert (Hord : handlesInOrder revealedGame) by constructor.
  assert (Hflag : currentFlag revealedGame = Some japanEntry)
    by (vm_compute; reflexivity).
  assert (Htext : textOf (nameUzbek japanEntry) = Ok "Yaponiya") by reflexivity.
  split; [exact Hflag|]. split; [exact Hord|].
  pose proof (countdown_single_tick sampleWorld revealedGame japanEntry
                "Yaponiya" Hflag Htext Hord) as H.
  cbv zeta in H. destruct H as (_ & _ & _ & _ & Hname & _ & Hanim & _).
  split; [exact Hname | exact Hanim].
Defined.

(** ** The name on display *)

Lemma quiet_tick (id : nat) (st : State) : quiet st -> tick id st = st.
Proof.
  intros [Htimers _]. unfold tick, findTimer.
  destruct (List.find _ (timers st)) as [t|] eqn:Hfind; [|reflexivity].
  apply find_some in Hfind as [Hin _].
  rewrite List.Forall_forall in Htimers. by rewrite (Htimers _ Hin).
Qed.

(** In a quiet state a completing animation changes, besides the list of
    animations, at most the classes of the start screen and of the shuffle
    indicator. *)
Lemma quiet_advance (w : World) (i : nat) (st : State) :
  quiet st ->
  let st' := advance w i st in
  quiet st' /\
  currentFlag st' = currentFlag st /\
  countryNameVisible st' = countryNameVisible st /\
  countryNameText st' = countryNameText st /\
  isAnimating st' = isAnimating st /\
  isShuffling st' = isShuffling st.
Proof.
  intros [Htimers Hanims]. cbv zeta. unfold advance.
  destruct (nth_error (animations st) i) as [task|] eqn:Hi; [|by repeat split].
  pose proof (Forall_nth_error _ _ _ _ Hanims Hi) as Htask.
  pose proof (Forall_removeAt _ i _ Hanims) as Hrest.
  destruct task as [target duration cb|steps]; [|destruct Htask].
  destruct cb; try discriminate Htask; cbn [runCallback];
    unfold quiet; state_cbn; repeat split; assumption.
Qed.

Lemma quiet_run (w : World) (evs : list Event) :
  forall st,
    quiet st ->
    forallb automatic evs = true ->
    let st' := run w evs st in
    quiet st' /\
    currentFlag st' = currentFlag st /\
    countryNameVisible st' = countryNameVisible st /\
    countryNameText st' = countryNameText st /\
    isAnimating st' = isAnimating st /\
    isShuffling st' = isShuffling st.
Proof.
  induction evs as [|ev evs IH]; intros st Hq Hauto; cbv zeta;
    [change (run w [] st) with st; split; [exact Hq | by repeat split]|].
  cbn [forallb] in Hauto. apply andb_true_iff in Hauto as [Hev Hauto].
  change (run w (ev :: evs) st) with (run w evs (step w ev st)).
  destruct ev as [|key|i|id]; try discriminate Hev; cbn [step].
  - destruct (quiet_advance w i st Hq) as (Hq' & E1 & E2 & E3 & E4 & E5).
    destruct (IH _ Hq' Hauto) as (Hq'' & F1 & F2 & F3 & F4 & F5).
    split; [exact Hq''|]. repeat split; congruence.
  - rewrite (quiet_tick id st Hq). exact (IH _ Hq Hauto).
Qed.

Lemma nameShownGame_quiet : quiet nameShownGame.
Proof.
  unfold quiet.
  assert (Ht : timers nameShownGame = [mkTimer 0 0 false])
    by (vm_compute; reflexivity).
  assert (Ha : animations nameShownGame
               = [Tween ShuffleIndicator (3 # 10) NoCallback;
                  Tween ShuffleIndicator (3 # 10) IndicatorHidden;
                  Tween CountdownNumber (3 # 10) NoCallback;
                  Tween CountryNameContainer (1 # 2) NoCallback])
    by (vm_compute; reflexivity).
  rewrite Ht, Ha. split; repeat constructor.
Qed.

(** A round started from a state where the lock is free. *)
Lemma playRound_unlocked (w : World) (st : State) :
  isShuffling st = false ->
  isAnimating st = false ->
  let next := playRound w st in
  isShuffling next = true /\
  isAnimating next = true /\
  countryNameVisible next = false /\
  countryNameText next = "" /\
  currentFlag next = currentFlag st.
Proof.
  intros Hs Ha. cbv zeta. unfold playRound. rewrite Hs, Ha. cbn [orb].
  unfold shuffleFlags, playDrumRollSound.
  destruct (audioError w) as [[made msg]|]; state_cbn; by repeat split.
Qed.

(** C6, refuted as stated. In the sample session the name is on display
    with the lock free; whatever animations complete and intervals fire
    afterwards, with no request from the player, the flag stays selected and
    its name stays on display. *)
Lemma nameShown_does_not_reset :
  countryNameVisible nameShownGame = true /\
  currentFlag nameShownGame = Some japanEntry /\
  isAnimating nameShownGame = false /\
  (forall evs, forallb automatic evs = true ->
     currentFlag (run sampleWorld evs nameShownGame) = Some japanEntry /\
     countryNameVisible (run sampleWorld evs nameShownGame) = true /\
     countryNameText (run sampleWorld evs nameShownGame) = "Yaponiya").
Proof.
  assert (Hv : countryNameVisible nameShownGame = true) by (vm_compute; reflexivity).
  assert (Hf : currentFlag nameShownGame = Some japanEntry) by (vm_compute; reflexivity).
  assert (Ht : countryNameText nameShownGame = "Yaponiya") by (vm_compute; reflexivity).
  split; [exact Hv|]. split; [exact Hf|]. split; [vm_compute; reflexivity|].
  intros evs Hauto.
  destruct (quiet_run sampleWorld evs _ nameShownGame_quiet Hauto)
    as (_ & -> & -> & -> & _). auto.
Qed.

(** ** The draws of a round *)

(** *** Powers of two and the rounding of doubles *)

Lemma pow2_pos (k : Z) : (0 < pow2 k)%Q.
Proof. apply Qpower_0_lt. reflexivity. Qed.

Lemma pow2_add (a b : Z) : (pow2 (a + b) == pow2 a * pow2 b)%Q.
Proof. apply Qpower_plus. discriminate. Qed.

Lemma pow2_succ (k : Z) : (pow2 (k + 1) == 2 * pow2 k)%Q.
Proof. rewrite pow2_add. change (pow2 1) with 2%Q. ring. Qed.

Lemma pow2_le (a b : Z) : (a <= b)%Z -> (pow2 a <= pow2 b)%Q.
Proof. intros H. apply Qpower_le_compat_l; [exact H | discriminate]. Qed.

Lemma pow2_lt (a b : Z) : (a < b)%Z -> (pow2 a < pow2 b)%Q.
Proof. intros H. apply Qpower_lt_compat_l; [exact H | reflexivity]. Qed.

Lemma pow2_Z (k : Z) : (0 <= k)%Z -> (pow2 k == inject_Z (2 ^ k))%Q.
Proof. intros H. unfold pow2. by rewrite Zpower_Qpower. Qed.

Lemma pow2_sub (a b : Z) : (pow2 (a - b) == pow2 a / pow2 b)%Q.
Proof.
  pose proof (pow2_pos b) as Hb.
  assert (E : (pow2 a == pow2 (a - b) * pow2 b)%Q).
  { rewrite <- pow2_add. by replace (a - b + b)%Z with a by lia. }
  rewrite E. field. lra.
Qed.

(** [binade x] is the exponent of the power of two at or below [x]. *)
Lemma binade_spec (x : Q) :
  (0 < x)%Q -> (pow2 (binade x) <= x /\ x < pow2 (binade x + 1))%Q.
Proof.
  intros Hx. unfold binade.
  destruct x as [a b]. cbn [Qnum Qden].
  assert (Ha : (0 < a)%Z) by (unfold Qlt in Hx; cbn in Hx; lia).
  pose proof (Z.log2_spec a Ha) as [Ha1 Ha2].
  pose proof (Z.log2_spec (Zpos b) ltac:(lia)) as [Hb1 Hb2].
  pose proof (Z.log2_nonneg a) as Hla. pose proof (Z.log2_nonneg (Zpos b)) as Hlb.
  set (la := Z.log2 a) in *. set (lb := Z.log2 (Zpos b)) in *.
  assert (Hq : (a # b == inject_Z a / inject_Z (Zpos b))%Q) by apply Qmake_Qdiv.
  assert (HA1 : (pow2 la <= inject_Z a)%Q) by (rewrite pow2_Z by lia; by rewrite <- Zle_Qle).
  assert (HA2 : (inject_Z a < 2 * pow2 la)%Q).
  { rewrite <- pow2_succ, pow2_Z by lia. rewrite <- Zlt_Qlt. by rewrite <- Z.add_1_r in Ha2. }
  assert (HB1 : (pow2 lb <= inject_Z (Zpos b))%Q) by (rewrite pow2_Z by lia; by rewrite <- Zle_Qle).
  assert (HB2 : (inject_Z (Zpos b) < 2 * pow2 lb)%Q).
  { rewrite <- pow2_succ, pow2_Z by lia. rewrite <- Zlt_Qlt. by rewrite <- Z.add_1_r in Hb2. }
  pose proof (pow2_pos la) as Pla. pose proof (pow2_pos lb) as Plb.
  assert (Hk : (pow2 (la - lb) * pow2 lb == pow2 la)%Q).
  { rewrite <- pow2_add. by replace (la - lb + lb)%Z with la by lia. }
  pose proof (pow2_pos (la - lb)) as Pk.
  assert (HB0 : (0 < inject_Z (Zpos b))%Q) by lra.
  destruct (Qle_bool (pow2 (la - lb)) (a # b)) eqn:Htest.
  - apply Qle_bool_iff in Htest. split; [exact Htest|].
    rewrite pow2_succ, Hq. apply Qlt_shift_div_r; [exact HB0|].
    set (P := pow2 (la - lb)) in *. set (B := inject_Z (Zpos b)) in *.
    set (A := inject_Z a) in *. set (L := pow2 lb) in *. set (M := pow2 la) in *.
    nra.
  - assert (Hlt : (a # b < pow2 (la - lb))%Q).
    { apply Qnot_le_lt. intros H. apply Qle_bool_iff in H. congruence. }
    replace (la - lb - 1 + 1)%Z with (la - lb)%Z by lia. split; [|exact Hlt].
    assert (E : (pow2 (la - lb) == 2 * pow2 (la - lb - 1))%Q).
    { rewrite <- pow2_succ. by replace (la - lb - 1 + 1)%Z with (la - lb)%Z by lia. }
    rewrite Hq. apply Qle_shift_div_l; [exact HB0|].
    set (P := pow2 (la - lb)) in *. set (P' := pow2 (la - lb - 1)) in *.
    set (B := inject_Z (Zpos b)) in *.
    set (A := inject_Z a) in *. set (L := pow2 lb) in *. set (M := pow2 la) in *.
    nra.
Qed.

Lemma binade_unique (x : Q) (E : Z) :
  (pow2 E <= x)%Q -> (x < pow2 (E + 1))%Q -> binade x = E.
Proof.
  intros H1 H2.
  assert (Hx : (0 < x)%Q) by (pose proof (pow2_pos E); lra).
  destruct (binade_spec x Hx) as [B1 B2].
  assert (L1 : (binade x < E + 1)%Z).
  { apply (Qpower_lt_compat_l_inv 2); [|reflexivity]. fold (pow2 (binade x)) (pow2 (E + 1)). lra. }
  assert (L2 : (E < binade x + 1)%Z).
  { apply (Qpower_lt_compat_l_inv 2); [|reflexivity]. fold (pow2 E) (pow2 (binade x + 1)). lra. }
  lia.
Qed.

(** *** Rounding to an integer, ties to even *)

Lemma roundHalfEven_near (y : Q) :
  (y - (1 # 2) <= inject_Z (roundHalfEven y) /\ inject_Z (roundHalfEven y) <= y + (1 # 2))%Q.
Proof.
  unfold roundHalfEven. pose proof (Qfloor_le y) as H1. pose proof (Qlt_floor y) as H2.
  rewrite inject_Z_plus in H2. change (inject_Z 1) with 1%Q in H2.
  set (n := Qfloor y) in *.
  destruct (Qcompare_spec (y - inject_Z n) (1 # 2)) as [He|Hl|Hg].
  - destruct (Z.even n); [|rewrite inject_Z_plus; change (inject_Z 1) with 1%Q]; lra.
  - lra.
  - rewrite inject_Z_plus. change (inject_Z 1) with 1%Q. lra.
Qed.

Lemma roundHalfEven_above (y : Q) (k : Z) :
  (inject_Z k <= y)%Q -> (k <= roundHalfEven y)%Z.
Proof.
  intros H. assert (Hk : (k <= Qfloor y)%Z).
  { rewrite <- (Qfloor_Z k). by apply Qfloor_resp_le. }
  unfold roundHalfEven.
  destruct (y - inject_Z (Qfloor y) ?= 1 # 2)%Q; [destruct (Z.even (Qfloor y))|..]; lia.
Qed.

Lemma roundHalfEven_below (y : Q) (k : Z) :
  (y <= inject_Z k)%Q -> (roundHalfEven y <= k)%Z.
Proof.
  intros H. pose proof (Qfloor_le y) as H1.
  assert (Hk : (Qfloor y <= k)%Z) by (rewrite Zle_Qle; lra).
  destruct (Z.eq_dec (Qfloor y) k) as [E|E].
  - (* [y] is [k] itself *)
    assert (Hy : (y == inject_Z k)%Q) by (rewrite <- E in *; lra).
    unfold roundHalfEven. rewrite E.
    destruct (Qcompare_spec (y - inject_Z k) (1 # 2)) as [He|Hl|Hg]; [lra | lia | lra].
  - assert (Hk' : (Qfloor y + 1 <= k)%Z) by lia.
    unfold roundHalfEven.
    destruct (y - inject_Z (Qfloor y) ?= 1 # 2)%Q; [destruct (Z.even (Qfloor y))|..]; lia.
Qed.

(** *** Rounding to a double *)

Lemma roundDouble_positive (x : Q) : (0 < x)%Q -> roundDouble x = roundPositive x.
Proof. intros H. unfold roundDouble. by destruct (Qcompare_spec x 0); [lra | lra |]. Qed.

Lemma roundDouble_zero (x : Q) : (x == 0)%Q -> roundDouble x = 0%Q.
Proof. intros H. unfold roundDouble. by destruct (Qcompare_spec x 0); [| lra | lra]. Qed.

Lemma roundPositive_near (x : Q) :
  let u := pow2 (ulpExponent x) in
  (x - u * (1 # 2) <= roundPositive x /\ roundPositive x <= x + u * (1 # 2))%Q.
Proof.
  cbv zeta. unfold roundPositive. set (u := pow2 (ulpExponent x)).
  pose proof (pow2_pos (ulpExponent x)) as Hu. fold u in Hu.
  destruct (roundHalfEven_near (x / u)) as [H1 H2].
  set (m := inject_Z (roundHalfEven (x / u))) in *.
  assert (E : (x == x / u * u)%Q) by (field; lra).
  set (y := (x / u)%Q) in *.
  assert (A1 : ((y - (1 # 2)) * u <= m * u)%Q) by (apply Qmult_le_compat_r; lra).
  assert (A2 : (m * u <= (y + (1 # 2)) * u)%Q) by (apply Qmult_le_compat_r; lra).
  assert (R1 : ((y - (1 # 2)) * u == y * u - u * (1 # 2))%Q) by ring.
  assert (R2 : ((y + (1 # 2)) * u == y * u + u * (1 # 2))%Q) by ring.
  lra.
Qed.

(** A multiple of the unit in the last place of [x] on one side of [x] is
    on the same side of the double [x] rounds to. *)
Lemma roundPositive_grid (x : Q) (k : Z) :
  let g := (inject_Z k * pow2 (ulpExponent x))%Q in
  ((g <= x -> g <= roundPositive x) /\ (x <= g -> roundPositive x <= g))%Q.
Proof.
  cbv zeta. unfold roundPositive. set (u := pow2 (ulpExponent x)).
  pose proof (pow2_pos (ulpExponent x)) as Hu. fold u in Hu.
  assert (E : (x == x / u * u)%Q) by (field; lra).
  split; intros H.
  - assert (Hk : (inject_Z k <= x / u)%Q) by (apply Qle_shift_div_l; lra).
    apply roundHalfEven_above in Hk. rewrite Zle_Qle in Hk.
    apply Qmult_le_compat_r; lra.
  - assert (Hk : (x / u <= inject_Z k)%Q) by (apply Qle_shift_div_r; lra).
    apply roundHalfEven_below in Hk. rewrite Zle_Qle in Hk.
    apply Qmult_le_compat_r; lra.
Qed.

Lemma ulpExponent_below (x : Q) (K : Z) :
  (0 < x)%Q -> (x < pow2 K)%Q -> (-1021 <= K)%Z -> (ulpExponent x <= K - 53)%Z.
Proof.
  intros Hx HK HKmin. destruct (binade_spec x Hx) as [B1 _].
  assert (L : (binade x < K)%Z).
  { apply (Qpower_lt_compat_l_inv 2); [|reflexivity]. fold (pow2 (binade x)) (pow2 K). lra. }
  unfold ulpExponent. lia.
Qed.

Lemma ulpExponent_normal (x : Q) :
  (pow2 (-1022) <= x)%Q -> ulpExponent x = (binade x - 52)%Z.
Proof.
  intros Hx. pose proof (pow2_pos (-1022)) as Hp.
  destruct (binade_spec x ltac:(lra)) as [_ B2].
  assert (L : (-1022 < binade x + 1)%Z).
  { apply (Qpower_lt_compat_l_inv 2); [|reflexivity]. fold (pow2 (-1022)) (pow2 (binade x + 1)). lra. }
  unfold ulpExponent. lia.
Qed.

Lemma roundDouble_nonneg (x : Q) : (0 <= x)%Q -> (0 <= roundDouble x)%Q.
Proof.
  intros Hx. destruct (Qlt_le_dec 0 x) as [Hpos|H0].
  - rewrite roundDouble_positive by exact Hpos.
    destruct (roundPositive_grid x 0) as [H _]. cbv zeta in H.
    assert (E : (inject_Z 0 * pow2 (ulpExponent x) == 0)%Q) by ring.
    rewrite E in H. by apply H, Qlt_le_weak.
  - rewrite roundDouble_zero by lra. lra.
Qed.

(** Below [pow2 K] a double and what it is the rounding of are at most half
    a unit in the last place apart. *)
Lemma roundDouble_near (x : Q) (K : Z) :
  (0 <= x)%Q -> (x < pow2 K)%Q -> (-1021 <= K)%Z ->
  (x - pow2 (K - 54) <= roundDouble x /\ roundDouble x <= x + pow2 (K - 54))%Q.
Proof.
  intros Hx HK Hmin. pose proof (pow2_pos (K - 54)) as Hp.
  destruct (Qlt_le_dec 0 x) as [Hpos|H0].
  - rewrite roundDouble_positive by exact Hpos.
    pose proof (roundPositive_near x) as Hn. cbv zeta in Hn.
    pose proof (pow2_le _ _ (ulpExponent_below x K Hpos HK Hmin)) as Hu.
    assert (E : (pow2 (K - 53) == 2 * pow2 (K - 54))%Q).
    { rewrite <- pow2_succ. by replace (K - 54 + 1)%Z with (K - 53)%Z by lia. }
    set (u := pow2 (ulpExponent x)) in *. set (p := pow2 (K - 54)) in *.
    set (p' := pow2 (K - 53)) in *. clearbody u p p'. lra.
  - rewrite roundDouble_zero by lra. set (p := pow2 (K - 54)) in *. clearbody p. lra.
Qed.

(** In the normal range the two are at most one part in [2 ^ 53] apart. *)
Lemma roundDouble_relative (x : Q) :
  (pow2 (-1022) <= x)%Q ->
  (x * (1 - pow2 (-53)) <= roundDouble x /\ roundDouble x <= x * (1 + pow2 (-53)))%Q.
Proof.
  intros Hx. pose proof (pow2_pos (-1022)) as Hp.
  assert (Hpos : (0 < x)%Q) by lra.
  rewrite roundDouble_positive by exact Hpos.
  pose proof (roundPositive_near x) as Hn. cbv zeta in Hn.
  rewrite (ulpExponent_normal x Hx) in Hn.
  destruct (binade_spec x Hpos) as [B1 _].
  assert (E : (pow2 (binade x - 52) == 2 * (pow2 (binade x) * pow2 (-53)))%Q).
  { rewrite <- pow2_add, <- pow2_succ. by replace (binade x + -53 + 1)%Z with (binade x - 52)%Z by lia. }
  pose proof (pow2_pos (-53)) as He.
  assert (M : (pow2 (binade x) * pow2 (-53) <= x * pow2 (-53))%Q)
    by (apply Qmult_le_compat_r; lra).
  set (u := pow2 (binade x - 52)) in *. set (e := pow2 (-53)) in *.
  set (b := (pow2 (binade x) * e)%Q) in *. clearbody u b.
  assert (R1 : (x * (1 - e) == x - x * e)%Q) by ring.
  assert (R2 : (x * (1 + e) == x + x * e)%Q) by ring.
  lra.
Qed.

(** A multiple of [pow2 q] on one side of [x] is on the same side of the
    double [x] rounds to, as long as [x] is below [pow2 (q + 53)]. *)
Lemma roundDouble_grid (x : Q) (q k : Z) :
  (0 <= x)%Q -> (x < pow2 (q + 53))%Q -> (-1074 <= q)%Z ->
  let g := (inject_Z k * pow2 q)%Q in
  ((g <= x -> g <= roundDouble x) /\ (x <= g -> roundDouble x <= g))%Q.
Proof.
  intros Hx Hq Hmin. cbv zeta.
  destruct (Qlt_le_dec 0 x) as [Hpos|H0].
  - rewrite roundDouble_positive by exact Hpos.
    pose proof (ulpExponent_below x (q + 53) Hpos Hq ltac:(lia)) as He.
    assert (E : (inject_Z k * pow2 q
                 == inject_Z (k * 2 ^ (q - ulpExponent x)) * pow2 (ulpExponent x))%Q).
    { rewrite inject_Z_mult, <- pow2_Z by lia. rewrite <- Qmult_assoc, <- pow2_add.
      by replace (q - ulpExponent x + ulpExponent x)%Z with q by lia. }
    rewrite E. apply roundPositive_grid.
  - rewrite roundDouble_zero by lra. split; intros H; lra.
Qed.

Lemma pow2_m53 : pow2 (-53) = (1 # 9007199254740992)%Q.
Proof. reflexivity. Qed.

(** The doubles below 1 end at [1 - 2 ^ -53]. *)
Lemma roundDouble_below_one (x : Q) :
  (0 <= x)%Q -> (roundDouble x < 1)%Q -> (roundDouble x <= 1 - pow2 (-53))%Q.
Proof.
  intros Hx H1. rewrite pow2_m53.
  destruct (Qlt_le_dec x (1 # 2)) as [Hhalf|Hhalf].
  - destruct (roundDouble_near x (-1) Hx) as [_ Hn]; [exact Hhalf | lia |].
    change (pow2 (-1 - 54)) with (1 # 36028797018963968)%Q in Hn. lra.
  - destruct (Qlt_le_dec x 1) as [Hone|Hone].
    + assert (Hb : binade x = (-1)%Z) by (apply binade_unique; [exact Hhalf | exact Hone]).
      rewrite roundDouble_positive in * by lra.
      unfold roundPositive in *. unfold ulpExponent in *. rewrite Hb in *.
      change (Z.max (-1 - 52) (-1074)) with (-53)%Z in *. rewrite pow2_m53 in *.
      set (m := roundHalfEven _) in *.
      assert (Hm : (m < 9007199254740992)%Z).
      { rewrite Zlt_Qlt. set (M := inject_Z m) in *.
        change (inject_Z 9007199254740992) with (9007199254740992 # 1)%Q. lra. }
      assert (Hm' : (inject_Z m <= inject_Z 9007199254740991)%Q) by (rewrite <- Zle_Qle; lia).
      change (inject_Z 9007199254740991) with (9007199254740991 # 1)%Q in Hm'.
      set (M := inject_Z m) in *. lra.
    + exfalso. destruct (Qlt_le_dec x 2) as [Htwo|Htwo].
      * destruct (roundDouble_grid x (-52) 4503599627370496 Hx) as [Hg _];
          [exact Htwo | lia |]. cbv zeta in Hg.
        change (inject_Z 4503599627370496 * pow2 (-52))%Q
          with ((4503599627370496 # 1) * (1 # 4503599627370496))%Q in Hg.
        assert (G : (1 <= roundDouble x)%Q) by (apply Qle_trans with (2 := Hg ltac:(lra)); lra).
        lra.
      * assert (Hn : (pow2 (-1022) <= x)%Q).
        { apply Qle_trans with (pow2 1); [apply pow2_le; lia | exact Htwo]. }
        destruct (roundDouble_relative x Hn) as [Hr _]. rewrite pow2_m53 in Hr.
        assert (R : (x * (1 - (1 # 9007199254740992)) == x - x * (1 # 9007199254740992))%Q) by ring.
        lra.
Qed.

Lemma roundDouble_negative (x : Q) : (x < 0)%Q -> (roundDouble x <= 0)%Q.
Proof.
  intros H. unfold roundDouble. destruct (Qcompare_spec x 0); [lra | | lra].
  pose proof (roundDouble_nonneg (- x) ltac:(lra)) as Hn.
  rewrite roundDouble_positive in Hn by lra. lra.
Qed.

(** Whatever is rounded: a double below 1 is at most [1 - 2 ^ -53]. *)
Lemma double_below_one (x : Q) :
  (roundDouble x < 1)%Q -> (roundDouble x <= 1 - pow2 (-53))%Q.
Proof.
  intros H. destruct (Qlt_le_dec x 0) as [Hneg|Hpos].
  - pose proof (roundDouble_negative x Hneg). rewrite pow2_m53. lra.
  - by apply roundDouble_below_one.
Qed.

Lemma Qfloor_iff (x : Q) (z : Z) :
  Qfloor x = z <-> (inject_Z z <= x /\ x < inject_Z (z + 1))%Q.
Proof.
  split.
  - intros <-. split; [apply Qfloor_le | apply Qlt_floor].
  - intros [Hle Hlt]. apply Z.le_antisymm.
    + apply Z.lt_succ_r. rewrite <- Z.add_1_r, Zlt_Qlt.
      eapply Qle_lt_trans; [apply Qfloor_le | exact Hlt].
    + rewrite <- (Qfloor_Z z). by apply Qfloor_resp_le.
Qed.

Lemma slack_value : slack = (1 # 4503599627370496)%Q.
Proof. reflexivity. Qed.

Lemma tiny_below_half (x : Q) : (x < pow2 (-1022))%Q -> (x < 1 # 2)%Q.
Proof.
  intros H. apply Qlt_le_trans with (1 := H).
  change (1 # 2)%Q with (pow2 (-1)). apply pow2_le. lia.
Qed.

(** The floor of a rounded number, against the number itself. *)
Lemma floor_rounded_inner (x : Q) (j : Z) :
  (0 <= j)%Z ->
  (inject_Z j * (1 + slack) <= x)%Q ->
  (x <= inject_Z (j + 1) * (1 - slack))%Q ->
  Qfloor (roundDouble x) = j.
Proof.
  intros Hj Hlo Hhi. rewrite slack_value in *. apply Qfloor_iff.
  rewrite inject_Z_plus in *. change (inject_Z 1) with 1%Q in *.
  destruct (Z.eq_dec j 0%Z) as [->|Hne].
  - change (inject_Z 0) with 0%Q in *.
    assert (Hx : (0 <= x)%Q) by lra.
    destruct (roundDouble_near x 0 Hx) as [_ Hn]; [change (pow2 0) with 1%Q; lra | lia |].
    change (pow2 (0 - 54)) with (1 # 18014398509481984)%Q in Hn.
    pose proof (roundDouble_nonneg x Hx). split; lra.
  - assert (HJ : (1 <= inject_Z j)%Q) by (change 1%Q with (inject_Z 1); rewrite <- Zle_Qle; lia).
    set (J := inject_Z j) in *. clearbody J.
    assert (Hnormal : (pow2 (-1022) <= x)%Q).
    { apply Qle_trans with (pow2 0); [apply pow2_le; lia | change (pow2 0) with 1%Q; lra]. }
    destruct (roundDouble_relative x Hnormal) as [Hr1 Hr2]. rewrite pow2_m53 in *.
    split; lra.
Qed.

Lemma floor_rounded_outer (x : Q) :
  (0 <= x)%Q ->
  let j := Qfloor (roundDouble x) in
  (0 <= j)%Z /\
  (inject_Z j * (1 - slack) <= x /\ x < inject_Z (j + 1) * (1 + slack))%Q.
Proof.
  intros Hx. cbv zeta. rewrite slack_value.
  pose proof (roundDouble_nonneg x Hx) as Hnn.
  assert (Hj : (0 <= Qfloor (roundDouble x))%Z).
  { change 0%Z with (Qfloor 0). by apply Qfloor_resp_le. }
  split; [exact Hj|].
  pose proof (Qfloor_le (roundDouble x)) as F1. pose proof (Qlt_floor (roundDouble x)) as F2.
  rewrite inject_Z_plus in *. change (inject_Z 1) with 1%Q in *.
  assert (HJ : (0 <= inject_Z (Qfloor (roundDouble x)))%Q)
    by (change 0%Q with (inject_Z 0); by rewrite <- Zle_Qle).
  destruct (Qlt_le_dec x (pow2 (-1022))) as [Htiny|Hnormal].
  - pose proof (tiny_below_half x Htiny) as Hhalf.
    destruct (roundDouble_near x (-1) Hx Hhalf ltac:(lia)) as [_ Hn].
    change (pow2 (-1 - 54)) with (1 # 36028797018963968)%Q in Hn.
    assert (Hz : Qfloor (roundDouble x) = 0%Z).
    { apply Qfloor_iff. change (inject_Z 0) with 0%Q. change (inject_Z (0 + 1)) with 1%Q.
      split; lra. }
    rewrite Hz. change (inject_Z 0) with 0%Q. split; lra.
  - destruct (roundDouble_relative x Hnormal) as [Hr1 Hr2]. rewrite pow2_m53 in *.
    set (J := inject_Z (Qfloor (roundDouble x))) in *. clearbody J.
    set (y := roundDouble x) in *. clearbody y.
    split; lra.
Qed.

(** The floor of the rounded product of a double below 1 and a count is
    below the count. *)
Lemma floor_rounded_range (r : Q) (n : Z) :
  (0 <= r)%Q -> (r <= 1 - pow2 (-53))%Q -> (1 <= n)%Z ->
  (0 <= Qfloor (roundDouble (r * inject_Z n)) < n)%Z.
Proof.
  intros H0 H1 Hn. rewrite pow2_m53 in H1.
  assert (HN : (1 <= inject_Z n)%Q) by (change 1%Q with (inject_Z 1); by rewrite <- Zle_Qle).
  assert (Hx : (0 <= r * inject_Z n)%Q) by (apply Qmult_le_0_compat; lra).
  destruct (floor_rounded_outer _ Hx) as [Hj _]. cbv zeta in Hj. split; [exact Hj|].
  assert (Hlt : (roundDouble (r * inject_Z n) < inject_Z n)%Q).
  { assert (Hup : (r * inject_Z n <= (1 - (1 # 9007199254740992)) * inject_Z n)%Q)
      by (apply Qmult_le_compat_r; lra).
    set (N := inject_Z n) in *. set (x := (r * N)%Q) in *.
    destruct (Qlt_le_dec x (pow2 (-1022))) as [Htiny|Hnormal].
    - pose proof (tiny_below_half x Htiny) as Hhalf.
      destruct (roundDouble_near x (-1) Hx Hhalf ltac:(lia)) as [_ Hnear].
      change (pow2 (-1 - 54)) with (1 # 36028797018963968)%Q in Hnear. clearbody N. lra.
    - destruct (roundDouble_relative x Hnormal) as [_ Hr]. rewrite pow2_m53 in Hr.
      assert (R : ((1 - (1 # 9007199254740992)) * N == N - N * (1 # 9007199254740992))%Q) by ring.
      set (y := roundDouble x) in *. clearbody y N. lra. }
  rewrite Zlt_Qlt. eapply Qle_lt_trans; [apply Qfloor_le | exact Hlt].
Qed.

Lemma scaled_le (a c r N : Q) :
  (0 < N)%Q -> (a / N * c <= r <-> a * c <= r * N)%Q.
Proof.
  intros HN. assert (E : (a / N * c == a * c / N)%Q) by (field; lra).
  rewrite E. split; intros H.
  - assert (E' : (a * c == a * c / N * N)%Q) by (field; lra).
    rewrite E'. apply Qmult_le_compat_r; lra.
  - apply Qle_shift_div_r; [exact HN | exact H].
Qed.

Lemma scaled_ge (a c r N : Q) :
  (0 < N)%Q -> (r <= a / N * c <-> r * N <= a * c)%Q.
Proof.
  intros HN. assert (E : (a / N * c == a * c / N)%Q) by (field; lra).
  rewrite E. split; intros H.
  - assert (E' : (a * c == a * c / N * N)%Q) by (field; lra).
    rewrite E'. apply Qmult_le_compat_r; lra.
  - apply Qle_shift_div_l; [exact HN | exact H].
Qed.

Lemma scaled_gt (a c r N : Q) :
  (0 < N)%Q -> (r * N < a * c -> r < a / N * c)%Q.
Proof.
  intros HN H. assert (E : (a / N * c == a * c / N)%Q) by (field; lra).
  rewrite E. apply Qlt_shift_div_l; [exact HN | exact H].
Qed.

(** [Math.floor(r * cells)] is the cell of [r]. *)
Lemma floor_cell (r : Q) (cells : Z) :
  (0 <= r)%Q -> (r <= 1 - pow2 (-53))%Q -> (0 < cells)%Z ->
  cellOf r cells (Qfloor (roundDouble (r * inject_Z cells))).
Proof.
  intros H0 H1 Hc.
  assert (HN : (0 < inject_Z cells)%Q)
    by (change 0%Q with (inject_Z 0); by rewrite <- Zlt_Qlt).
  assert (Hx : (0 <= r * inject_Z cells)%Q) by (apply Qmult_le_0_compat; lra).
  split; [apply floor_rounded_range; [exact H0 | exact H1 | lia]|].
  destruct (floor_rounded_outer _ Hx) as (_ & Hlo & Hhi). cbv zeta in Hlo, Hhi.
  split; [split|].
  - by apply scaled_le.
  - by apply scaled_gt.
  - intros j Hj Hjlo Hjhi. apply floor_rounded_inner; [exact Hj | |].
    + by apply scaled_le.
    + by apply scaled_ge.
Qed.




Lemma shuffleSteps_length (w : World) (flags : list FlagEntry) (interval : Q) :
  forall n next, length (shuffleSteps w flags interval next n) = n.
Proof. induction n as [|n IH]; intros next; cbn [shuffleSteps length]; [done | by rewrite IH]. Qed.


Lemma nth_error_replaceAt {A : Type} (l : list A) (i : nat) (x y : A) :
  nth_error l i = Some x -> nth_error (replaceAt i y l) i = Some y.
Proof.
  revert i. induction l as [|a l IH]; intros i H; [destruct i; discriminate H|].
  destruct i as [|i]; [reflexivity|]. cbn [replaceAt nth_error] in *. by apply IH.
Qed.

Lemma replaceAt_same {A : Type} (l : list A) (i : nat) (x : A) :
  nth_error l i = Some x -> replaceAt i x l = l.
Proof.
  revert i. induction l as [|a l IH]; intros [|i] H; try discriminate H.
  - cbn in H. by injection H as ->.
  - cbn [replaceAt]. by rewrite (IH i H).
Qed.

Lemma replaceAt_twice {A : Type} (l : list A) (i : nat) (x y : A) :
  replaceAt i y (replaceAt i x l) = replaceAt i y l.
Proof.
  revert i. induction l as [|a l IH]; intros [|i]; try reflexivity.
  cbn [replaceAt]. by rewrite IH.
Qed.

Lemma run_app (w : World) (evs evs' : list Event) (st : State) :
  run w (evs ++ evs') st = run w evs' (run w evs st).
Proof. unfold run. apply fold_left_app. Qed.





Lemma flagAt_in_range (flags : list FlagEntry) (index : Z) :
  (0 <= index)%Z -> flagAt flags index = nth_error flags (Z.to_nat index).
Proof.
  intros H. unfold flagAt. destruct (Z.ltb_spec index 0); [lia | reflexivity].
Qed.

(** On the sample doubles the rounding of the exact product, sum and
    quotient is what the Standard Library's binary64 gives (the quotients by
    the two least samples overflow, and are left out). *)
Lemma roundDouble_matches_binary64 :
  forallb (fun x => forallb (fun y =>
      sameRounding (SpecFloat.SFmul 53 1024) Qmult x y
      && sameRounding (SpecFloat.SFadd 53 1024) Qplus x y) sampleDoubles)
    sampleDoubles = true /\
  forallb (fun x => forallb (sameRounding (SpecFloat.SFdiv 53 1024) Qdiv x)
                      (firstn 10 sampleDoubles))
    sampleDoubles = true.
Proof. split; vm_compute; reflexivity. Qed.

(** Rounding moves the edge of a cell: the double just below two thirds is
    in the fourth of six cells and in the second of three, and the rounded
    products are 4 and 2. *)
Lemma rounded_product_at_an_edge :
  let r := (6004799503160661 # 9007199254740992)%Q in
  roundDouble r = r /\
  (r * 6 < 4)%Q /\ shuffleCount r = 14%Z /\
  (r * 3 < 2)%Q /\ randomIndex r 3 = 2%Z.
Proof. cbv zeta. repeat split; vm_compute; reflexivity. Qed.

(** A value of [Math.random()] below 1 is at most [1 - 2 ^ -53]. *)
Lemma random_below_one (w : World) (i : nat) :
  (random w i < 1)%Q -> (random w i <= 1 - pow2 (-53))%Q.
Proof. apply double_below_one. Qed.

Lemma randomIndex_cell (w : World) (i n : nat) :
  (0 <= random w i /\ random w i < 1)%Q -> (0 < n)%nat ->
  cellOf (random w i) (Z.of_nat n) (randomIndex (random w i) n).
Proof.
  intros [H0 H1] Hn. apply floor_cell; [exact H0 | by apply random_below_one | lia].
Qed.






Lemma sampleWorld_draws (i : nat) :
  (0 <= random sampleWorld i /\ random sampleWorld i < 1)%Q.
Proof.
  unfold random. cbn [randomSource sampleWorld].
  assert (E : roundDouble (1 # 2) = (4503599627370496 # 9007199254740992)%Q)
    by (vm_compute; reflexivity).
  rewrite E. split; [discriminate | reflexivity].
Qed.


(** * Further properties *)

(** ** Counting in lists of animations *)

Lemma filter_removeAt {A : Type} (p : A -> bool) (l : list A) :
  forall i x,
    nth_error l i = Some x ->
    (length (List.filter p (removeAt i l)) + (if p x then 1 else 0)
     = length (List.filter p l))%nat.
Proof.
  induction l as [|a l IH]; intros i x Hi; [destruct i; discriminate Hi|].
  destruct i as [|i]; cbn [removeAt nth_error List.filter] in *.
  - injection Hi as ->. destruct (p x); cbn [length]; lia.
  - specialize (IH _ _ Hi). destruct (p a); cbn [length]; lia.
Qed.

Lemma filter_replaceAt {A : Type} (p : A -> bool) (l : list A) :
  forall i x y,
    nth_error l i = Some x ->
    (length (List.filter p (replaceAt i y l)) + (if p x then 1 else 0)
     = length (List.filter p l) + (if p y then 1 else 0))%nat.
Proof.
  induction l as [|a l IH]; intros i x y Hi; [destruct i; discriminate Hi|].
  destruct i as [|i]; cbn [replaceAt nth_error List.filter] in *.
  - injection Hi as ->. destruct (p x), (p y); cbn [length]; lia.
  - specialize (IH _ _ y Hi). destruct (p a); cbn [length]; lia.
Qed.

Lemma In_replaceAt {A : Type} (i : nat) (y : A) (l : list A) (x : A) :
  In x (replaceAt i y l) -> x = y \/ In x l.
Proof.
  revert i. induction l as [|a l IH]; intros i H; [destruct i; destruct H|].
  destruct i as [|i]; cbn [replaceAt] in H.
  - destruct H as [<-|H]; [by left | right; by right].
  - destruct H as [<-|H]; [right; by left|].
    destruct (IH _ H); [by left | right; by right].
Qed.

Lemma Forall_replaceAt {A : Type} (P : A -> Prop) (i : nat) (y : A) (l : list A) :
  P y -> Forall P l -> Forall P (replaceAt i y l).
Proof.
  rewrite !List.Forall_forall. intros Hy H x Hx.
  destruct (In_replaceAt _ _ _ _ Hx) as [->|Hin]; auto.
Qed.

Lemma filter_length_pos {A : Type} (p : A -> bool) (l : list A) (x : A) :
  In x l -> p x = true -> (1 <= length (List.filter p l))%nat.
Proof.
  intros Hin Hp.
  assert (Hf : In x (List.filter p l)) by (apply filter_In; auto).
  destruct (List.filter p l); [destruct Hf | cbn [length]; lia].
Qed.

Lemma existsb_false_filter {A : Type} (p q : A -> bool) (l : list A) :
  (forall x, q x = true -> p x = true) ->
  length (List.filter p l) = 0%nat ->
  existsb q l = false.
Proof.
  intros Hqp Hlen. destruct (existsb q l) eqn:He; [|reflexivity].
  apply existsb_exists in He as (x & Hin & Hq).
  pose proof (filter_length_pos p l x Hin (Hqp _ Hq)). lia.
Qed.

Lemma countdownFade_roundTask (a : Task) :
  countdownFade a = true -> roundTask a = true.
Proof. destruct a as [? ? []|]; cbn; congruence. Qed.

(** ** The invariant, operation by operation *)

Lemma underWay_free (st : State) :
  sound st -> isAnimating st = false -> underWay st = 0%nat /\ counting st = false.
Proof.
  intros H Ha. pose proof (one_round st H) as H1.
  pose proof (round_locked st H) as H2.
  assert (Hu : underWay st = 0%nat).
  { destruct (underWay st) as [|[|n]]; [reflexivity | | lia].
    destruct (H2 eq_refl) as [Hl _]. congruence. }
  split; [exact Hu|]. unfold underWay in Hu. unfold counting.
  destruct (timerOn st); [lia|]. rewrite orb_false_r.
  apply (existsb_false_filter roundTask); [apply countdownFade_roundTask | lia].
Qed.

Lemma sound_newGame : sound newGame.
Proof.
  constructor; cbn; try (intros; discriminate); auto.
  intros [|i] t H; discriminate H.
Qed.

Lemma sound_playRound (w : World) (st : State) :
  sound st -> sound (playRound w st).
Proof.
  intros H. unfold playRound.
  destruct (isShuffling st || isAnimating st) eqn:Hlock; [exact H|].
  apply orb_false_iff in Hlock as [Hs Ha].
  destruct (underWay_free st H Ha) as [Hu Hc].
  destruct H as [H1 H2 H3 H4 H5 H6 H7 H8 H9 H10].
  unfold shuffleFlags, playDrumRollSound.
  destruct st; unfold underWay, counting, timerOn in *;
    destruct (audioError w) as [[made msg]|]; state_cbn_all;
    (constructor; unfold underWay, counting, timerOn; state_cbn;
     [ rewrite <- app_assoc, List.filter_app, length_app; cbn; lia
     | auto
     | auto
     | rewrite <- app_assoc, existsb_app; cbn; rewrite orb_false_r; intros E; congruence
     | rewrite <- app_assoc; apply Forall_app; split; [exact H5 | by repeat constructor]
     | exact H6
     | by right
     | exact H8
     | exact H9
     | intros E; discriminate E ]).
Qed.

Lemma fetchAndParse_Ok (w : World) (requestNo : nat) (endpoint : Endpoint)
    (parsed : option (list FlagEntry)) :
  fetchAndParse w requestNo endpoint = Ok parsed ->
  exists data, parser endpoint data = Ok parsed.
Proof.
  unfold fetchAndParse.
  destruct (net w requestNo (url endpoint)) as [msg|status [msg|data]];
    try discriminate; destruct (negb (responseOk status)); try discriminate.
  destruct (isErrorObject data) as [[|]|]; cbn [bindR]; try discriminate; [|eauto].
  unfold newError. destruct (getProp data "message") as [m|]; cbn [bindR]; [|discriminate].
  destruct (toStr _); cbn [bindR]; discriminate.
Qed.

Lemma attempts_entries (w : World) (base : nat) (a : Attempt)
    (fl : list FlagEntry) :
  In a (attempts w apiEndpoints base) ->
  snd a = Ok (Some fl) ->
  Forall entryOk fl.
Proof.
  intros Ha Hr. apply attempts_In in Ha as (k & Hk & Hout).
  rewrite Hr in Hout. symmetry in Hout.
  apply fetchAndParse_Ok in Hout as (data & Hparse).
  apply List.Forall_forall. intros e He.
  destruct (parser_entries _ _ _ (nth_error_In _ _ Hk) Hparse e He) as [Hname Htr].
  exact (popular_entry_translated e Hname Htr).
Qed.

Lemma flagsAfter_entries (P : FlagEntry -> Prop) (atts : list Attempt) :
  forall flags0,
    Forall P flags0 ->
    (forall a fl, In a atts -> snd a = Ok (Some fl) -> Forall P fl) ->
    Forall P (flagsAfter atts flags0).
Proof.
  induction atts as [|a atts IH]; intros flags0 H0 Hall; [exact H0|].
  unfold flagsAfter. cbn [fold_left]. apply IH.
  - destruct (loaded (snd a)) eqn:Hl; [|exact H0].
    destruct (snd a) as [[fl|]|] eqn:Hr; try discriminate Hl.
    cbn [default]. apply (Hall a fl); [by left | exact Hr].
  - intros b fl Hb. apply Hall. by right.
Qed.

Lemma sound_loadFlags (w : World) (st : State) :
  flags st = [] -> sound st -> sound (loadFlags w st).
Proof.
  intros Hempty [H1 H2 H3 H4 H5 H6 H7 H8 H9 H10].
  assert (Hfl : Forall entryOk
            (flagsAfter (attempts w apiEndpoints (length (fetched st))) (flags st))).
  { apply flagsAfter_entries; [exact H8|]. intros a fl. apply attempts_entries. }
  assert (Hnone : currentFlag st = None).
  { destruct (currentFlag st) as [f|] eqn:Hf; [|reflexivity].
    specialize (H9 f eq_refl). rewrite Hempty in H9. destruct H9. }
  rewrite loadFlags_attempts. cbv zeta.
  unfold afterAttempts, loadFlagsCatch.
  destruct st; unfold underWay, counting, timerOn in *; state_cbn_all.
  destruct (nonEmpty _); state_cbn;
    (constructor; unfold underWay, counting, timerOn; state_cbn;
     [ rewrite List.filter_app, length_app; cbn; lia
     | rewrite List.filter_app, length_app; cbn; rewrite Nat.add_0_r; exact H2
     | exact H3
     | rewrite existsb_app; cbn; rewrite orb_false_r; exact H4
     | apply Forall_app; split; [exact H5 | by repeat constructor]
     | exact H6
     | exact H7
     | exact Hfl
     | intros f E; congruence
     | exact H10 ]).
Qed.

Lemma sound_startGame (w : World) (st : State) :
  sound st -> sound (startGame w st).
Proof.
  intros H. unfold startGame.
  destruct (isAnimating st || isShuffling st || isLoading st); [exact H|].
  assert (H' : sound (st |> startTween StartScreen (1 # 2) HideStartScreen)).
  { destruct H as [H1 H2 H3 H4 H5 H6 H7 H8 H9 H10].
    destruct st; unfold underWay, counting, timerOn in *; state_cbn_all.
    constructor; unfold underWay, counting, timerOn; state_cbn;
     [ rewrite List.filter_app, length_app; cbn; lia
     | rewrite List.filter_app, length_app; cbn; rewrite Nat.add_0_r; exact H2
     | exact H3
     | rewrite existsb_app; cbn; rewrite orb_false_r; exact H4
     | apply Forall_app; split; [exact H5 | by repeat constructor]
     | exact H6 | exact H7 | exact H8 | exact H9 | exact H10 ]. }
  destruct (Nat.eqb_spec (length (flags (st |> startTween StartScreen (1 # 2) HideStartScreen))) 0)
    as [Hlen|_].
  - apply sound_loadFlags; [|exact H'].
    destruct (flags _); [reflexivity | discriminate Hlen].
  - by apply sound_playRound.
Qed.

Lemma sound_onKeyDown (w : World) (key : string) (st : State) :
  sound st -> sound (onKeyDown w key st).
Proof.
  intros H. unfold onKeyDown.
  destruct (String.eqb key "Enter"); [|exact H].
  destruct (startScreenHidden st).
  - destruct (negb (isShuffling st)); [by apply sound_playRound | exact H].
  - by apply sound_startGame.
Qed.

(** Clearing the interval [id] once it has fired: every timer keeps its
    place and none is left set, when only the timer at [id] could be set. *)
Lemma timers_after_tick (timers : list Timer) (id : nat) (count' : Z) :
  (forall i t, nth_error timers i = Some t ->
     timerId t = i /\ (active t = true -> i = id)) ->
  let cleared :=
    List.map
      (fun t => if Nat.eqb (timerId t) id then mkTimer (timerId t) (count t) false else t)
      (List.map
         (fun t => if Nat.eqb (timerId t) id then mkTimer (timerId t) count' (active t) else t)
         timers) in
  (forall i t, nth_error cleared i = Some t -> timerId t = i /\ active t = false) /\
  existsb active cleared = false.
Proof.
  intros Hin. cbv zeta.
  assert (Hnth : forall i t,
            nth_error
              (List.map
                 (fun t => if Nat.eqb (timerId t) id
                           then mkTimer (timerId t) (count t) false else t)
                 (List.map
                    (fun t => if Nat.eqb (timerId t) id
                              then mkTimer (timerId t) count' (active t) else t)
                    timers)) i = Some t ->
            timerId t = i /\ active t = false).
  { intros i t. rewrite !nth_error_map.
    destruct (nth_error timers i) as [t0|] eqn:Ht0; [|discriminate].
    destruct (Hin _ _ Ht0) as [Hid Hact]. cbn [option_map].
    destruct (Nat.eqb_spec (timerId t0) id) as [Heq|Hne]; cbn [timerId].
    - rewrite Heq, Nat.eqb_refl. intros [= <-]. cbn. split; congruence.
    - destruct (Nat.eqb_spec (timerId t0) id); [contradiction|].
      intros [= <-]. split; [exact Hid|].
      destruct (active t0); [|reflexivity]. specialize (Hact eq_refl). congruence. }
  split; [exact Hnth|].
  destruct (existsb active _) eqn:He; [|reflexivity].
  apply existsb_exists in He as (t & Ht & Hact).
  apply In_nth_error in Ht as (i & Hi). destruct (Hnth _ _ Hi). congruence.
Qed.

Lemma sound_tick (id : nat) (st : State) : sound st -> sound (tick id st).
Proof.
  intros H. unfold tick.
  destruct (findTimer id st) as [t|] eqn:Hfind; [|exact H].
  destruct (active t) eqn:Hact; [|exact H].
  unfold findTimer in Hfind. apply find_some in Hfind as [Hin Hid].
  apply Nat.eqb_eq in Hid.
  destruct H as [H1 H2 H3 H4 H5 H6 H7 H8 H9 H10].
  assert (Hon : timerOn st = true).
  { unfold timerOn. apply existsb_exists. eauto. }
  apply In_nth_error in Hin as (i & Hi).
  destruct (H6 _ _ Hi) as [Hpos Hset]. destruct (Hset Hact) as [Hcount Hhandle].
  assert (i = id) as -> by congruence. clear Hpos.
  rewrite Hcount. change (1 - 1 >? 0)%Z with false. cbv iota.
  unfold clearInterval, updateTimer.
  assert (Hplace : forall i t, nth_error (timers st) i = Some t ->
            timerId t = i /\ (active t = true -> i = id)).
  { intros j t' Hj. destruct (H6 _ _ Hj) as [? Hs]. split; [assumption|].
    intros Ha. destruct (Hs Ha). congruence. }
  destruct (timers_after_tick (timers st) id (1 - 1) Hplace) as [Hcleared Hoff].
  cbv zeta in Hcleared, Hoff.
  destruct (H2 ltac:(unfold underWay in *; rewrite Hon in *; lia)) as [Hanim Hvis].
  assert (Hnoround : length (List.filter roundTask (animations st)) = 0%nat)
    by (unfold underWay in H1; rewrite Hon in H1; lia).
  assert (Hshuf : isShuffling st = false)
    by (apply H4; unfold counting; by rewrite Hon, orb_true_r).
  destruct st; unfold underWay, counting, timerOn in *; state_cbn_all.
  rewrite Hhandle. state_cbn.
  constructor; unfold underWay, counting, timerOn; state_cbn.
  - rewrite Hoff, List.filter_app, length_app. cbn. lia.
  - auto.
  - exact H3.
  - auto.
  - apply Forall_app. split; [exact H5 | by repeat constructor].
  - intros j t' Hj. destruct (Hcleared _ _ Hj) as [? Hinactive].
    split; [assumption|]. rewrite Hinactive. discriminate.
  - exact H7.
  - exact H8.
  - exact H9.
  - rewrite Hvis. discriminate.
Qed.

Lemma existsb_removeAt {A : Type} (p : A -> bool) (i : nat) (l : list A) :
  existsb p (removeAt i l) = true -> existsb p l = true.
Proof.
  rewrite !existsb_exists. intros (x & Hx & Hp). exists x.
  split; [by eapply In_removeAt | exact Hp].
Qed.

(** Taking away an animation that is no part of a round. *)
Lemma sound_drop (st : State) (i : nat) (a : Task) :
  sound st ->
  nth_error (animations st) i = Some a ->
  roundTask a = false ->
  sound (st |> set_animations (removeAt i (animations st))).
Proof.
  intros [H1 H2 H3 H4 H5 H6 H7 H8 H9 H10] Hi Ha.
  pose proof (filter_removeAt roundTask _ _ _ Hi) as Hcount. rewrite Ha in Hcount.
  destruct st; unfold underWay, counting, timerOn in *; state_cbn_all.
  constructor; unfold underWay, counting, timerOn; state_cbn.
  - lia.
  - intros E. apply H2. lia.
  - exact H3.
  - intros E. apply H4. apply orb_true_iff in E as [E|E].
    + apply existsb_removeAt in E. by rewrite E.
    + by rewrite E, orb_true_r.
  - by apply Forall_removeAt.
  - exact H6.
  - exact H7.
  - exact H8.
  - exact H9.
  - exact H10.
Qed.

(** Taking away the part of the round that is under way: it was the only
    one, no interval was set, and the lock was held with no name shown. *)
Lemma round_task_taken (st : State) (i : nat) (a : Task) :
  sound st ->
  nth_error (animations st) i = Some a ->
  roundTask a = true ->
  timerOn st = false /\
  length (List.filter roundTask (removeAt i (animations st))) = 0%nat /\
  existsb countdownFade (removeAt i (animations st)) = false /\
  isAnimating st = true /\
  countryNameVisible st = false.
Proof.
  intros [H1 H2 H3 H4 H5 H6 H7 H8 H9 H10] Hi Ha.
  pose proof (filter_removeAt roundTask _ _ _ Hi) as Hcount. rewrite Ha in Hcount.
  unfold underWay in *.
  assert (Hoff : timerOn st = false) by (destruct (timerOn st); [lia | reflexivity]).
  rewrite Hoff in *.
  assert (Hnone : length (List.filter roundTask (removeAt i (animations st))) = 0%nat) by lia.
  destruct (H2 ltac:(lia)) as [Hanim Hvis].
  repeat split; try assumption.
  apply (existsb_false_filter roundTask); [apply countdownFade_roundTask | exact Hnone].
Qed.

Lemma flagAt_In (flags : list FlagEntry) (i : Z) (f : FlagEntry) :
  flagAt flags i = Some f -> In f flags.
Proof.
  unfold flagAt. destruct (i <? 0)%Z; [discriminate|]. apply nth_error_In.
Qed.

Lemma entryOk_text (f : FlagEntry) :
  entryOk f -> exists t, nameUzbek f = VStr t /\ textOf (nameUzbek f) = Ok t.
Proof. intros (n & t & _ & _ & _ & ->). eauto. Qed.

Lemma sound_advance (w : World) (i : nat) (st : State) :
  sound st -> sound (advance w i st).
Proof.
  intros H. unfold advance.
  destruct (nth_error (animations st) i) as [task|] eqn:Hi; [|exact H].
  pose proof (Forall_nth_error _ _ _ _ (nothing_dead st H) Hi) as Hlive.
  destruct task as [target duration cb|[|s rest]].
  - destruct cb; try discriminate Hlive; cbn [runCallback].
    + (* NoCallback *) by eapply sound_drop.
    + (* HideStartScreen *)
      pose proof (sound_drop st i _ H Hi eq_refl) as [H1 H2 H3 H4 H5 H6 H7 H8 H9 H10].
      destruct st; unfold underWay, counting, timerOn in *; state_cbn_all.
      by constructor.
    + (* LoadingHidden *)
      apply sound_playRound.
      pose proof (sound_drop st i _ H Hi eq_refl) as [H1 H2 H3 H4 H5 H6 H7 H8 H9 H10].
      destruct st; unfold underWay, counting, timerOn in *; state_cbn_all.
      by constructor.
    + (* IndicatorHidden *)
      pose proof (sound_drop st i _ H Hi eq_refl) as [H1 H2 H3 H4 H5 H6 H7 H8 H9 H10].
      destruct st; unfold underWay, counting, timerOn in *; state_cbn_all.
      by constructor.
    + (* RevealDone *)
      destruct (round_task_taken st i _ H Hi eq_refl) as (Hoff & Hnone & Hnofade & Hanim & Hvis).
      destruct H as [H1 H2 H3 H4 H5 H6 H7 H8 H9 H10].
      pose proof (Forall_removeAt _ i _ H5) as H5'.
      unfold startCountdown.
      destruct st; unfold underWay, counting, timerOn in *; state_cbn_all.
      subst. constructor; unfold underWay, counting, timerOn; state_cbn.
      * rewrite List.filter_app, length_app, existsb_app. cbn. rewrite orb_true_r. lia.
      * auto.
      * discriminate.
      * auto.
      * apply Forall_app. split; [exact H5' | by repeat constructor].
      * intros j t Hj.
        destruct (Nat.lt_ge_cases j (length timers0)) as [Hlt|Hge].
        -- rewrite nth_error_app1 in Hj by exact Hlt.
           destruct (H6 _ _ Hj) as [Hid _]. split; [exact Hid|].
           intros Hact. exfalso.
           assert (existsb active timers0 = true)
             by (apply existsb_exists; exists t; split; [by eapply nth_error_In | exact Hact]).
           congruence.
        -- rewrite nth_error_app2 in Hj by exact Hge.
           destruct (j - length timers0)%nat as [|n] eqn:Hd;
             [|destruct n; discriminate Hj].
           injection Hj as <-. cbn [timerId count active].
           assert (j = length timers0) as -> by lia. auto.
      * by right.
      * exact H8.
      * exact H9.
      * discriminate.
    + (* CountdownHidden *)
      destruct (round_task_taken st i _ H Hi eq_refl) as (Hoff & Hnone & Hnofade & Hanim & Hvis).
      assert (Hshuf : isShuffling st = false).
      { apply (counting_not_shuffling st H). unfold counting.
        apply orb_true_iff. left. apply existsb_exists.
        eexists. split; [by eapply nth_error_In | reflexivity]. }
      destruct H as [H1 H2 H3 H4 H5 H6 H7 H8 H9 H10].
      pose proof (Forall_removeAt _ i _ H5) as H5'.
      unfold showCountryName.
      destruct st; unfold underWay, counting, timerOn in *; state_cbn_all.
      subst. destruct currentFlag0 as [flag|];
        [destruct (entryOk_text flag) as (t & Huz & Htext);
           [eapply List.Forall_forall; [exact H8 | by apply H9] |];
         rewrite Htext |];
        state_cbn; constructor; unfold underWay, counting, timerOn; state_cbn;
        rewrite ?List.filter_app, ?length_app, ?existsb_app, ?Hnone, ?Hnofade, ?Hoff;
        cbn [List.filter roundTask length existsb countdownFade orb Nat.add];
        try lia; try discriminate; try assumption; try (by right); auto.
      * apply Forall_app. split; [exact H5' | by repeat constructor].
      * intros _. eauto.
  - (* the timeline has run out *)
    destruct (round_task_taken st i _ H Hi eq_refl) as (Hoff & Hnone & Hnofade & Hanim & Hvis).
    destruct H as [H1 H2 H3 H4 H5 H6 H7 H8 H9 H10].
    pose proof (Forall_removeAt _ i _ H5) as H5'.
    unfold afterShuffle. cbv zeta.
    destruct st; unfold underWay, counting, timerOn in *; state_cbn_all.
    subst.
    destruct (flagAt flags0 _) as [flag|] eqn:Hflag;
      [apply flagAt_In in Hflag;
       destruct (toStr (flagUrl flag)); [destruct (toStr (name flag))|]|];
      state_cbn; constructor; unfold underWay, counting, timerOn; state_cbn;
      rewrite ?List.filter_app, ?length_app, ?existsb_app, ?Hnone, ?Hnofade, ?Hoff;
      cbn [List.filter roundTask length existsb countdownFade orb Nat.add];
      try lia; try discriminate; try assumption; auto;
      try (intros f [= <-]; exact Hflag).
    rewrite <- app_assoc. apply Forall_app.
    split; [exact H5' | by repeat constructor].
  - (* the timeline starts its next tween *)
    assert (Hst : sound (st |> set_animations
                           (replaceAt i (ShuffleTimeline rest) (animations st)))).
    { destruct H as [H1 H2 H3 H4 H5 H6 H7 H8 H9 H10].
      pose proof (filter_replaceAt roundTask _ _ _ (ShuffleTimeline rest) Hi) as Hcount.
      cbn [roundTask] in Hcount.
      assert (Hfade : existsb countdownFade
                        (replaceAt i (ShuffleTimeline rest) (animations st)) = true ->
                      existsb countdownFade (animations st) = true).
      { rewrite !existsb_exists. intros (x & Hx & Hp).
        destruct (In_replaceAt _ _ _ _ Hx) as [->|Hin]; [discriminate Hp | eauto]. }
      pose proof (Forall_replaceAt _ i (ShuffleTimeline rest) _ eq_refl H5) as H5'.
      destruct st; unfold underWay, counting, timerOn in *; state_cbn_all.
      constructor; unfold underWay, counting, timerOn; state_cbn;
        try assumption; try lia.
      - intros E. apply H2. lia.
      - intros E. apply H4. apply orb_true_iff in E as [E|E].
        + by rewrite (Hfade E).
        + by rewrite E, orb_true_r. }
    unfold runOnStart.
    destruct (onStart s) as [[randomFlag|]|]; try exact Hst.
    destruct (toStr (flagUrl randomFlag)); [|exact Hst].
    destruct Hst as [H1 H2 H3 H4 H5 H6 H7 H8 H9 H10].
    destruct st; unfold underWay, counting, timerOn in *; state_cbn_all.
    by constructor.
Qed.

Lemma sound_step (w : World) (ev : Event) (st : State) :
  sound st -> sound (step w ev st).
Proof.
  intros H. destruct ev as [|key|i|id]; cbn [step].
  - by apply sound_startGame.
  - by apply sound_onKeyDown.
  - by apply sound_advance.
  - by apply sound_tick.
Qed.

Lemma sound_run (w : World) (evs : list Event) :
  forall st, sound st -> sound (run w evs st).
Proof.
  induction evs as [|ev evs IH]; intros st H; [exact H|].
  change (run w (ev :: evs) st) with (run w evs (step w ev st)).
  apply IH. by apply sound_step.
Qed.

Lemma sound_reachable (st : State) : reachable st -> sound st.
Proof. intros (w & evs & ->). apply sound_run, sound_newGame. Qed.

Lemma shufflingGame_reachable : reachable shufflingGame.
Proof. exists sampleWorld, [Click; Advance 0; Advance 0]. reflexivity. Qed.

Lemma nameShownGame_reachable : reachable nameShownGame.
Proof.
  exists sampleWorld,
    ([Click; Advance 0; Advance 0] ++ repeat (Advance 1) 15
     ++ [Advance 2; Tick 0; Advance 3]).
  unfold nameShownGame, revealedGame, shufflingGame.
  by rewrite !run_app.
Qed.

(** ** What holds in every state the game gets to *)

(** X1. In every state the game gets to, whatever the answers of the
    network, the draws and the order of clicks, key presses, completing
    animations and firing intervals: at most one round is under way (one
    shuffle timeline, reveal, set interval or closing fade in all); while one
    is, [isAnimating] is set; and [isShuffling] is never set without
    [isAnimating]. *)
Theorem one_round_at_a_time (st : State) :
  reachable st ->
  (underWay st <= 1)%nat /\
  (underWay st = 1%nat -> isAnimating st = true) /\
  (isShuffling st = true -> isAnimating st = true).
Proof.
  intros H%sound_reachable. split; [apply (one_round st H)|]. split.
  - intros E. by destruct (round_locked st H E).
  - apply (shuffling_locked st H).
Qed.

Lemma one_round_at_a_time_witness :
  reachable shufflingGame /\
  underWay shufflingGame = 1%nat /\
  isAnimating shufflingGame = true.
Proof.
  assert (Hu : underWay shufflingGame = 1%nat) by (vm_compute; reflexivity).
  destruct (one_round_at_a_time shufflingGame shufflingGame_reachable)
    as (_ & Hlock & _).
  split; [exact shufflingGame_reachable|]. split; [exact Hu | exact (Hlock Hu)].
Defined.

(** X2. In no state the game gets to is a tween of the [count > 0] branch of
    the interval callback or of [resetForNextRound] running; every interval
    that is set has [count] 1 and is the one [countdownInterval] holds; and
    the countdown number reads "1", or nothing before the first round. *)
Theorem countdown_never_renumbers (st : State) :
  reachable st ->
  Forall (fun a => neverStarted a = false) (animations st) /\
  (forall t, In t (timers st) -> active t = true ->
     count t = 1%Z /\ countdownInterval st = Some (timerId t)) /\
  (countdownText st = "" \/ countdownText st = "1").
Proof.
  intros H%sound_reachable. split; [apply (nothing_dead st H)|].
  split; [|apply (counter_text st H)].
  intros t (i & Hi)%In_nth_error Hact.
  destruct (timers_in_place st H _ _ Hi) as [-> Hset]. by apply Hset.
Qed.

Lemma countdown_never_renumbers_witness :
  reachable nameShownGame /\
  Forall (fun a => neverStarted a = false) (animations nameShownGame) /\
  (countdownText nameShownGame = "" \/ countdownText nameShownGame = "1").
Proof.
  destruct (countdown_never_renumbers nameShownGame nameShownGame_reachable)
    as (Hdead & _ & Htext).
  split; [exact nameShownGame_reachable|]. split; [exact Hdead | exact Htext].
Defined.

(** X3. In every state the game gets to, each entry of [this.flags] has a
    name of the allow-list and, as localized name, the table's entry for it;
    and the current flag, when there is one, is an entry of [this.flags]. *)
Theorem working_set_entries (st : State) :
  reachable st ->
  Forall entryOk (flags st) /\
  (forall f, currentFlag st = Some f -> In f (flags st) /\ entryOk f).
Proof.
  intros H%sound_reachable. split; [apply (flags_ok st H)|].
  intros f Hf. pose proof (current_in_flags st H f Hf) as Hin.
  split; [exact Hin|].
  eapply List.Forall_forall; [apply (flags_ok st H) | exact Hin].
Qed.

Lemma working_set_entries_witness :
  reachable nameShownGame /\
  currentFlag nameShownGame = Some japanEntry /\
  In japanEntry (flags nameShownGame) /\
  entryOk japanEntry.
Proof.
  assert (Hf : currentFlag nameShownGame = Some japanEntry) by (vm_compute; reflexivity).
  destruct (working_set_entries nameShownGame nameShownGame_reachable) as [_ Hcur].
  destruct (Hcur _ Hf) as [Hin Hok].
  split; [exact nameShownGame_reachable|]. split; [exact Hf|].
  split; [exact Hin | exact Hok].
Defined.

(** X4. In every state the game gets to, a name on display is the table's
    translation of the name of the current flag, a name of the allow-list. *)
Theorem displayed_name_is_translation (st : State) :
  reachable st ->
  countryNameVisible st = true ->
  exists f n t,
    currentFlag st = Some f /\ In f (flags st) /\
    name f = VStr n /\ In n popularCountryNames /\
    translations !! n = Some t /\
    countryNameText st = t.
Proof.
  intros H%sound_reachable Hvis.
  destruct (shown_name st H Hvis) as (f & t & Hf & Huz & Htext).
  pose proof (current_in_flags st H f Hf) as Hin.
  assert (Hok : entryOk f)
    by (eapply List.Forall_forall; [apply (flags_ok st H) | exact Hin]).
  destruct Hok as (n & t' & Hn & Hpop & Htr & Huz').
  exists f, n, t'. repeat split; try assumption. congruence.
Qed.

Lemma displayed_name_is_translation_witness :
  reachable nameShownGame /\
  countryNameVisible nameShownGame = true /\
  exists f n t,
    currentFlag nameShownGame = Some f /\ In f (flags nameShownGame) /\
    name f = VStr n /\ In n popularCountryNames /\
    translations !! n = Some t /\
    countryNameText nameShownGame = t.
Proof.
  assert (Hv : countryNameVisible nameShownGame = true) by (vm_compute; reflexivity).
  split; [exact nameShownGame_reachable|]. split; [exact Hv|].
  exact (displayed_name_is_translation nameShownGame nameShownGame_reachable Hv).
Defined.

(** ** The working set is fetched once *)

Lemma playRound_keeps_flags (w : World) (st : State) :
  flags (playRound w st) = flags st /\ fetched (playRound w st) = fetched st.
Proof.
  unfold playRound, shuffleFlags, playDrumRollSound.
  destruct (isShuffling st || isAnimating st); [by split|].
  destruct (audioError w) as [[made msg]|]; state_cbn; by split.
Qed.

Lemma tick_keeps_flags (id : nat) (st : State) :
  flags (tick id st) = flags st /\ fetched (tick id st) = fetched st.
Proof.
  unfold tick, clearInterval, updateTimer.
  destruct (findTimer id st) as [t|]; [|by split].
  destruct (active t); [|by split].
  destruct (_ >? 0)%Z; state_cbn; [by split|].
  destruct st; state_cbn. destruct countdownInterval0; by split.
Qed.

Lemma advance_keeps_flags (w : World) (i : nat) (st : State) :
  flags (advance w i st) = flags st /\ fetched (advance w i st) = fetched st.
Proof.
  unfold advance.
  destruct (nth_error (animations st) i) as [[target duration cb|[|s rest]]|];
    [| | |by split].
  - destruct cb; cbn [runCallback];
      try (state_cbn; by split);
      try (unfold findTimer; destruct (List.find _ _); by split).
    + destruct (playRound_keeps_flags w
                  (st |> set_animations (removeAt i (animations st))
                      |> set_loadingScreenActive false |> set_isLoading false))
        as [-> ->]. by split.
    + unfold showCountryName. state_cbn. destruct st; state_cbn.
      destruct currentFlag0 as [flag|]; [destruct (textOf (nameUzbek flag))|]; by split.
  - unfold afterShuffle. cbv zeta. destruct st; state_cbn.
    destruct (flagAt flags0 _) as [flag|];
      [destruct (toStr (flagUrl flag)); [destruct (toStr (name flag))|]|]; by split.
  - unfold runOnStart.
    destruct (onStart s) as [[randomFlag|]|];
      [destruct (toStr (flagUrl randomFlag))|..]; by split.
Qed.

Lemma step_keeps_flags (w : World) (ev : Event) (st : State) :
  flags st <> [] ->
  flags (step w ev st) = flags st /\ fetched (step w ev st) = fetched st.
Proof.
  intros Hne.
  assert (Hstart : flags (startGame w st) = flags st
                   /\ fetched (startGame w st) = fetched st).
  { unfold startGame.
    destruct (isAnimating st || isShuffling st || isLoading st); [by split|].
    assert (Hlen : Nat.eqb (length (flags (st |> startTween StartScreen (1 # 2) HideStartScreen))) 0
                   = false).
    { apply Nat.eqb_neq. change (length (flags st) <> 0%nat).
      destruct (flags st); [contradiction | discriminate]. }
    rewrite Hlen.
    destruct (playRound_keeps_flags w (st |> startTween StartScreen (1 # 2) HideStartScreen))
      as [-> ->]. by split. }
  destruct ev as [|key|i|id]; cbn [step].
  - exact Hstart.
  - unfold onKeyDown. destruct (String.eqb key "Enter"); [|by split].
    destruct (startScreenHidden st); [|exact Hstart].
    destruct (negb (isShuffling st)); [apply playRound_keeps_flags | by split].
  - apply advance_keeps_flags.
  - apply tick_keeps_flags.
Qed.

(** X5. Once [this.flags] is not empty, nothing that happens changes it or
    fetches again: every later round draws from the same list. *)
Theorem working_set_fetched_once (w : World) (evs : list Event) (st : State) :
  flags st <> [] ->
  flags (run w evs st) = flags st /\ fetched (run w evs st) = fetched st.
Proof.
  revert st. induction evs as [|ev evs IH]; intros st Hne; [by split|].
  change (run w (ev :: evs) st) with (run w evs (step w ev st)).
  destruct (step_keeps_flags w ev st Hne) as [Hf Hq].
  destruct (IH (step w ev st)) as [-> ->]; [by rewrite Hf|]. by split.
Qed.

Lemma working_set_fetched_once_witness :
  flags nameShownGame <> [] /\
  flags (run fallbackWorld [KeyDown "Enter"; Click; Advance 0; Tick 0] nameShownGame)
    = flags nameShownGame /\
  fetched (run fallbackWorld [KeyDown "Enter"; Click; Advance 0; Tick 0] nameShownGame)
    = fetched nameShownGame.
Proof.
  assert (Hne : flags nameShownGame <> [])
    by (assert (Hl : length (flags nameShownGame) = 2%nat) by (vm_compute; reflexivity);
        intros E; rewrite E in Hl; discriminate Hl).
  split; [exact Hne|].
  exact (working_set_fetched_once fallbackWorld
           [KeyDown "Enter"; Click; Advance 0; Tick 0] nameShownGame Hne).
Defined.

(** ** More on the loader *)

Lemma attempts_prefix (w : World) (endpoints : list Endpoint) :
  forall base,
    List.map (fun a => url (fst a)) (attempts w endpoints base)
    = firstn (length (attempts w endpoints base)) (List.map url endpoints).
Proof.
  induction endpoints as [|e rest IH]; intros base; [reflexivity|].
  cbn [attempts List.map length firstn fst]. f_equal.
  destruct (loaded _); [reflexivity | apply IH].
Qed.

(** X6. A call of [loadFlags] makes at least one request and at most four,
    and the addresses it requests are the first ones of the fixed list, in
    the order of the list. *)
Theorem loadFlags_requests_prefix (w : World) (st : State) :
  exists n,
    (1 <= n <= 4)%nat /\
    fetched (loadFlags w st) = fetched st ++ firstn n (List.map url apiEndpoints).
Proof.
  exists (length (attempts w apiEndpoints (length (fetched st)))). split.
  - pose proof (attempts_length_le w apiEndpoints (length (fetched st))) as Hle.
    split; [|exact Hle]. cbn [apiEndpoints attempts length]. lia.
  - rewrite loadFlags_fetched. f_equal. apply attempts_prefix.
Qed.

(** X7. A reached endpoint that answers with a status outside 200-299 is
    warned about as ["HTTP <status>"], whatever its body holds: the body is
    not read. *)
Theorem bad_status_is_warned (w : World) (st : State) (k : nat)
    (endpoint : Endpoint) (status : nat) (body : Body) :
  nth_error apiEndpoints k = Some endpoint ->
  reached w apiEndpoints (length (fetched st)) k ->
  net w (length (fetched st) + k) (url endpoint) = Responded status body ->
  responseOk status = false ->
  fetchAndParse w (length (fetched st) + k) endpoint
    = Throw (mkError ("HTTP " +:+ showNat status)) /\
  In (ConsoleWarn ("Failed to load from " +:+ url endpoint +:+ ":")
        ("HTTP " +:+ showNat status))
     (printed st (loadFlags w st)).
Proof.
  intros Hk Hreach Hnet Hbad.
  assert (Hr : fetchAndParse w (length (fetched st) + k) endpoint
               = Throw (mkError ("HTTP " +:+ showNat status))).
  { unfold fetchAndParse. by rewrite Hnet, Hbad. }
  split; [exact Hr|].
  pose proof (attempts_nth _ _ _ _ _ Hreach Hk) as Hnth. rewrite Hr in Hnth.
  destruct (loadFlags_printed w st) as (tail & -> & _).
  apply in_or_app. left. apply in_flat_map.
  eexists. split; [eapply nth_error_In; exact Hnth|].
  unfold attemptEntries, warning. cbn [fst snd message]. right. by left.
Qed.

Lemma bad_status_is_warned_witness :
  nth_error apiEndpoints 0 = Some (mkEndpoint
    "https://restcountries.com/v3.1/all?fields=name,flags,cca2" parseRestCountriesV3) /\
  reached fallbackWorld apiEndpoints (length (fetched newGame)) 0 /\
  responseOk 404 = false /\
  In (ConsoleWarn
        "Failed to load from https://restcountries.com/v3.1/all?fields=name,flags,cca2:"
        "HTTP 404")
     (printed newGame (loadFlags fallbackWorld newGame)).
Proof.
  assert (Hreach : reached fallbackWorld apiEndpoints (length (fetched newGame)) 0)
    by (intros j e Hj; lia).
  split; [reflexivity|]. split; [exact Hreach|]. split; [reflexivity|].
  exact (proj2 (bad_status_is_warned fallbackWorld newGame 0 _ 404
                  (BadJson "Unexpected token") eq_refl Hreach eq_refl eq_refl)).
Defined.

Lemma localFlags_first_loaded (w : World) (endpoints : list Endpoint) :
  forall base k endpoint parsed flags0,
    reached w endpoints base k ->
    nth_error endpoints k = Some endpoint ->
    fetchAndParse w (base + k) endpoint = Ok parsed ->
    nonEmpty parsed = true ->
    localFlags (attempts w endpoints base) flags0 = parsed.
Proof.
  induction endpoints as [|e rest IH]; intros base k endpoint parsed flags0 Hreach Hk Hr Hne.
  - destruct k; discriminate Hk.
  - destruct k as [|k]; cbn [attempts nth_error] in *.
    + injection Hk as ->. rewrite Nat.add_0_r in Hr. rewrite Hr.
      cbn [loaded]. rewrite Hne. reflexivity.
    + apply reached_tail in Hreach as [Hfirst Hrest]. rewrite Hfirst.
      unfold localFlags. cbn [fold_left snd].
      rewrite Nat.add_succ_r in Hr. exact (IH _ _ _ _ _ Hrest Hk Hr Hne).
Qed.

Lemma nth_error_last_added {A : Type} (l : list A) (x : A) :
  nth_error (l ++ [x]) (length l) = Some x.
Proof. induction l; [reflexivity | exact IHl]. Qed.

Lemma removeAt_last_added {A : Type} (l : list A) (x : A) :
  removeAt (length l) (l ++ [x]) = l.
Proof.
  induction l as [|a l IH]; [reflexivity|].
  change (a :: removeAt (length l) (l ++ [x]) = a :: l). by rewrite IH.
Qed.

(** X8. When a reached endpoint yields a non-empty list, [loadFlags] shows no
    alert and leaves the start screen alone; [isLoading] and the loading
    screen stay on until the fade of the loading screen completes, and that
    completion clears them and, the lock being free, starts the first round
    by itself. *)
Theorem loadFlags_success_starts_round (w : World) (st : State) (k : nat)
    (endpoint : Endpoint) (parsed : option (list FlagEntry)) :
  nth_error apiEndpoints k = Some endpoint ->
  reached w apiEndpoints (length (fetched st)) k ->
  fetchAndParse w (length (fetched st) + k) endpoint = Ok parsed ->
  nonEmpty parsed = true ->
  isShuffling st = false ->
  isAnimating st = false ->
  let st' := loadFlags w st in
  let st'' := step w (Advance (length (animations st))) st' in
  (isLoading st' = true /\
   loadingScreenActive st' = true /\
   alerts st' = alerts st /\
   startScreenHidden st' = startScreenHidden st /\
   isShuffling st' = false /\
   animations st' = animations st ++ [Tween LoadingScreen (1 # 2) LoadingHidden]) /\
  (isLoading st'' = false /\
   loadingScreenActive st'' = false /\
   isShuffling st'' = true /\
   isAnimating st'' = true /\
   flags st'' = default [] parsed).
Proof.
  intros Hk Hreach Hr Hne Hs Ha. cbv zeta.
  pose proof (localFlags_first_loaded w _ _ _ _ _ None Hreach Hk Hr Hne) as Hlocal.
  pose proof (flagsAfter_first_loaded w _ _ _ _ _ (flags st) Hreach Hk Hr Hne) as Hflags.
  rewrite loadFlags_attempts. cbv zeta. rewrite Hlocal, Hne.
  unfold afterAttempts. cbn [flags set_isLoading set_loadingScreenActive].
  rewrite Hflags.
  destruct st; state_cbn_all. subst.
  split; [by repeat split|].
  cbn [step]. unfold advance. state_cbn.
  rewrite nth_error_last_added, removeAt_last_added. cbn [runCallback].
  unfold playRound. state_cbn. cbn [orb].
  unfold shuffleFlags, playDrumRollSound.
  destruct (audioError w) as [[made msg]|]; state_cbn; by repeat split.
Qed.

Lemma loadFlags_success_starts_round_witness :
  nth_error apiEndpoints 0 = Some (mkEndpoint
    "https://restcountries.com/v3.1/all?fields=name,flags,cca2" parseRestCountriesV3) /\
  reached sampleWorld apiEndpoints (length (fetched newGame)) 0 /\
  isLoading (loadFlags sampleWorld newGame) = true /\
  isShuffling
    (step sampleWorld (Advance (length (animations newGame)))
       (loadFlags sampleWorld newGame)) = true /\
  flags
    (step sampleWorld (Advance (length (animations newGame)))
       (loadFlags sampleWorld newGame)) = [franceEntry; japanEntry].
Proof.
  assert (Hreach : reached sampleWorld apiEndpoints (length (fetched newGame)) 0)
    by (intros j e Hj; lia).
  assert (Hr : fetchAndParse sampleWorld (length (fetched newGame) + 0)
                 (mkEndpoint "https://restcountries.com/v3.1/all?fields=name,flags,cca2"
                    parseRestCountriesV3)
               = Ok (Some [franceEntry; japanEntry]))
    by (vm_compute; reflexivity).
  pose proof (loadFlags_success_starts_round sampleWorld newGame 0 _ _
                eq_refl Hreach Hr eq_refl eq_refl eq_refl) as H.
  cbv zeta in H. destruct H as ((Hload & _) & (_ & _ & Hshuf & _ & Hflags)).
  split; [reflexivity|]. split; [exact Hreach|]. split; [exact Hload|].
  split; [exact Hshuf | exact Hflags].
Defined.

(** ** More on the parsers and the translation *)

Lemma filterR_throws {A : Type} (p : A -> result bool) (l : list A) (x : A)
    (e : JsError) :
  In x l -> p x = Throw e -> exists e', filterR p l = Throw e'.
Proof.
  intros Hin Hx. induction l as [|a l IH]; [destruct Hin|].
  cbn [filterR]. destruct (p a) as [b|e0] eqn:Ha; cbn [bindR]; [|eauto].
  destruct Hin as [->|Hin]; [congruence|].
  destruct (IH Hin) as (e' & ->). cbn [bindR]. eauto.
Qed.

(** X9. One [null] among the records of a response makes each parser throw:
    the whole response is lost, its other records with it. *)
Theorem null_record_loses_response (endpoint : Endpoint) (records : list value) :
  In endpoint apiEndpoints ->
  In VNull records ->
  exists e, parser endpoint (VArr records) = Throw e.
Proof.
  intros Hep Hnull.
  assert (H3 : exists e, parseRestCountriesV3 (VArr records) = Throw e).
  { unfold parseRestCountriesV3. cbn [isArray negb arrayItems].
    destruct (filterR_throws hasFlagImage records VNull _ Hnull eq_refl) as (e & ->).
    cbn [bindR]. eauto. }
  assert (H2 : exists e, parseRestCountriesV2 (VArr records) = Throw e).
  { unfold parseRestCountriesV2. cbn [isArray negb arrayItems].
    destruct (filterR_throws hasFlagImage records VNull _ Hnull eq_refl) as (e & ->).
    cbn [bindR]. eauto. }
  assert (Hn : exists e, parseNextJsCountries (VArr records) = Throw e).
  { unfold parseNextJsCountries, findCountries. cbn [getProp].
    change (protoLookup "pageProps") with VUndefined.
    cbn [bindR truthy isArray negb orb arrayItems].
    destruct (filterR_throws hasAnyFlagField records VNull _ Hnull eq_refl) as (e & ->).
    cbn [bindR]. eauto. }
  simpl in Hep. destruct Hep as [<-|[<-|[<-|[<-|[]]]]]; assumption.
Qed.

Lemma null_record_loses_response_witness :
  In secondEndpoint apiEndpoints /\
  In VNull [france; VNull; japan] /\
  exists e, parser secondEndpoint (VArr [france; VNull; japan]) = Throw e.
Proof.
  assert (Hep : In secondEndpoint apiEndpoints) by (right; left; reflexivity).
  assert (Hnull : In VNull [france; VNull; japan]) by (right; left; reflexivity).
  split; [exact Hep|]. split; [exact Hnull|].
  exact (null_record_loses_response secondEndpoint _ Hep Hnull).
Defined.

(** X10. [translateToUzbek] looks the name up by its string form: the result
    is the table's entry for that string, else the member of that name
    inherited from [Object.prototype], else the argument itself; so a name
    that counts as present never gets a localized name that counts as
    missing. *)
Theorem translateToUzbek_by_string_form (v u : value) :
  translateToUzbek v = Ok u ->
  (exists key,
     toStr v = Ok key /\
     match translations !! key with
     | Some t => u = VStr t
     | None => if inStrings key objectPrototypeKeys then u = VBuiltin key else u = v
     end) /\
  (truthy v = true -> truthy u = true).
Proof.
  unfold translateToUzbek. intros H.
  apply bindR_Ok in H as (key & Hkey & H). injection H as <-.
  unfold translationsAt, protoLookup, orElse.
  destruct (translations !! key) as [t|] eqn:Ht.
  - destruct (translationsAt_own _ _ Ht) as [_ Htr]. rewrite Htr.
    split; [exists key; by rewrite Ht | by intros _].
  - destruct (inStrings key objectPrototypeKeys) eqn:Hp; cbn [truthy].
    + split; [exists key; by rewrite Ht, Hp | by intros _].
    + split; [exists key; by rewrite Ht, Hp | by intros ?].
Qed.

Lemma translateToUzbek_by_string_form_witness :
  translateToUzbek (VArr [VStr "France"]) = Ok (VStr "Fransiya") /\
  (exists key,
     toStr (VArr [VStr "France"]) = Ok key /\
     match translations !! key with
     | Some t => VStr "Fransiya" = VStr t
     | None => if inStrings key objectPrototypeKeys
               then VStr "Fransiya" = VBuiltin key
               else VStr "Fransiya" = VArr [VStr "France"]
     end) /\
  includesName (VArr [VStr "France"]) = false.
Proof.
  assert (H : translateToUzbek (VArr [VStr "France"]) = Ok (VStr "Fransiya"))
    by (vm_compute; reflexivity).
  split; [exact H|]. split; [|reflexivity].
  exact (proj1 (translateToUzbek_by_string_form _ _ H)).
Defined.

(** ** The two ways to ask for a round *)

(** X11. While [isLoading] is set a click on the button does nothing, but
    once the start screen is hidden the Enter key starts a round all the
    same: [playRound] does not look at [isLoading]. *)
Theorem enter_starts_round_while_loading (w : World) (st : State) :
  isLoading st = true ->
  startScreenHidden st = true ->
  isShuffling st = false ->
  isAnimating st = false ->
  step w Click st = st /\
  isShuffling (step w (KeyDown "Enter") st) = true /\
  isAnimating (step w (KeyDown "Enter") st) = true /\
  isLoading (step w (KeyDown "Enter") st) = true.
Proof.
  intros Hl Hh Hs Ha. split.
  - cbn [step]. unfold startGame. by rewrite Hl, Ha, Hs.
  - cbn [step]. unfold onKeyDown. cbn [String.eqb Ascii.eqb Bool.eqb andb].
    rewrite Hh, Hs. cbn [negb].
    unfold playRound. rewrite Hs, Ha. cbn [orb].
    unfold shuffleFlags, playDrumRollSound.
    destruct st; state_cbn_all. subst.
    destruct (audioError w) as [[made msg]|]; state_cbn; by repeat split.
Qed.

Lemma enter_starts_round_while_loading_witness :
  isLoading loadingGame = true /\
  startScreenHidden loadingGame = true /\
  isShuffling loadingGame = false /\
  isAnimating loadingGame = false /\
  step sampleWorld Click loadingGame = loadingGame /\
  isShuffling (step sampleWorld (KeyDown "Enter") loadingGame) = true.
Proof.
  assert (Hl : isLoading loadingGame = true) by (vm_compute; reflexivity).
  assert (Hh : startScreenHidden loadingGame = true) by (vm_compute; reflexivity).
  assert (Hs : isShuffling loadingGame = false) by (vm_compute; reflexivity).
  assert (Ha : isAnimating loadingGame = false) by (vm_compute; reflexivity).
  destruct (enter_starts_round_while_loading sampleWorld loadingGame Hl Hh Hs Ha)
    as (Hclick & Hshuf & _).
  split; [exact Hl|]. split; [exact Hh|]. split; [exact Hs|]. split; [exact Ha|].
  split; [exact Hclick | exact Hshuf].
Defined.

(** ** A round over the empty working set *)

Lemma flagAt_nil (i : Z) : flagAt [] i = None.
Proof. unfold flagAt. destruct (i <? 0)%Z; [reflexivity|]. by destruct (Z.to_nat i). Qed.

Lemma roundTask_free_noRelease (l : list Task) :
  Forall (fun a => neverStarted a = false) l ->
  length (List.filter roundTask l) = 0%nat ->
  Forall (fun a => match a with
                   | Tween _ _ FlagReset => False
                   | Tween _ _ _ => True
                   | ShuffleTimeline _ => False
                   end) l.
Proof.
  intros Hlive Hnone. apply List.Forall_forall. intros a Hin.
  pose proof (proj1 (List.Forall_forall _ _) Hlive a Hin) as Ha.
  destruct (roundTask a) eqn:Hr.
  - pose proof (filter_length_pos roundTask l a Hin Hr). lia.
  - destruct a as [target duration cb|steps]; [|discriminate Hr].
    destruct cb; try exact I. discriminate Ha.
Qed.

(** X12. In a state the game gets to with nothing in its working set, a
    shuffle timeline that completes makes [playRound] read [flagUrl] of
    [undefined]: no flag is selected, and whatever happens afterwards the
    lock stays held, no name is shown and every request for a round leaves
    the state as it is. *)
Theorem empty_working_set_strands_round (w : World) (st : State) (i : nat)
    (evs : list Event) :
  reachable st ->
  flags st = [] ->
  nth_error (animations st) i = Some (ShuffleTimeline []) ->
  let st' := run w evs (step w (Advance i) st) in
  currentFlag st' = None /\
  isAnimating st' = true /\
  countryNameVisible st' = false /\
  playRound w st' = st' /\
  step w (KeyDown "Enter") st' = st' /\
  step w Click st' = st'.
Proof.
  intros Hreach Hflags Hi. cbv zeta.
  pose proof (sound_reachable st Hreach) as Hsound.
  destruct (round_task_taken st i _ Hsound Hi eq_refl) as (_ & Hnone & _ & Hanim & _).
  pose proof (Forall_removeAt _ i _ (nothing_dead st Hsound)) as Hlive.
  assert (Hstuck : stuck (step w (Advance i) st)).
  { cbn [step]. unfold advance. rewrite Hi. unfold afterShuffle. cbv zeta.
    cbn [flags set_animations].
    pose proof (roundTask_free_noRelease _ Hlive Hnone) as Hfree.
    unfold stuck, noRelease.
    destruct st. state_cbn_all. subst. rewrite flagAt_nil.
    by repeat split. }
  pose proof (stuck_run w evs _ Hstuck) as (Hlock & Hnoflag & _).
  pose proof (sound_run w evs _ (sound_step w (Advance i) st Hsound)) as Hsound'.
  split; [exact Hnoflag|]. split; [exact Hlock|]. split.
  - destruct (countryNameVisible (run w evs (step w (Advance i) st))) eqn:Hvis;
      [|reflexivity].
    destruct (shown_name _ Hsound' Hvis) as (f & t & Hf & _). congruence.
  - apply start_request_ignored_while_locked_aux. rewrite Hlock. apply orb_true_r.
Qed.

Lemma empty_working_set_strands_round_witness :
  reachable strandedGame /\
  flags strandedGame = [] /\
  nth_error (animations strandedGame) 2 = Some (ShuffleTimeline []) /\
  let st' := run offlineWorld [KeyDown "Enter"; Click]
               (step offlineWorld (Advance 2) strandedGame) in
  currentFlag st' = None /\
  isAnimating st' = true /\
  countryNameVisible st' = false /\
  playRound offlineWorld st' = st' /\
  step offlineWorld (KeyDown "Enter") st' = st' /\
  step offlineWorld Click st' = st'.
Proof.
  assert (Hreach : reachable strandedGame).
  { exists offlineWorld,
      ([Click; Advance 0; KeyDown "Enter"] ++ repeat (Advance 2) 14).
    reflexivity. }
  assert (Hflags : flags strandedGame = []) by (vm_compute; reflexivity).
  assert (Hi : nth_error (animations strandedGame) 2 = Some (ShuffleTimeline []))
    by (vm_compute; reflexivity).
  split; [exact Hreach|]. split; [exact Hflags|]. split; [exact Hi|].
  exact (empty_working_set_strands_round offlineWorld strandedGame 2
           [KeyDown "Enter"; Click] Hreach Hflags Hi).
Defined.

(** ** A round from the request to the name *)

(** The state the timeline leaves when its tweens have all started: only
    the image on display has changed. *)
Lemma timeline_runs_state (w : World) (i : nat) (steps : list TimelineStep) :
  forall st,
    nth_error (animations st) i = Some (ShuffleTimeline steps) ->
    exists src,
      run w (repeat (Advance i) (length steps)) st
      = st |> set_animations (replaceAt i (ShuffleTimeline []) (animations st))
           |> set_flagImageSrc src.
Proof.
  induction steps as [|s steps IH]; intros st Hi.
  - exists (flagImageSrc st). change (run w (repeat (Advance i) (length [])) st) with st.
    rewrite (replaceAt_same _ _ _ Hi). by destruct st.
  - change (run w (repeat (Advance i) (length (s :: steps))) st)
      with (run w (repeat (Advance i) (length steps)) (advance w i st)).
    assert (Hadv : exists src,
               advance w i st
               = st |> set_animations (replaceAt i (ShuffleTimeline steps) (animations st))
                    |> set_flagImageSrc src).
    { unfold advance. rewrite Hi. unfold runOnStart.
      destruct (onStart s) as [[randomFlag|]|];
        [destruct (toStr (flagUrl randomFlag)) as [src|]|..];
        [by exists src | | |]; (exists (flagImageSrc st)); by destruct st. }
    destruct Hadv as (src1 & ->).
    destruct (IH (st |> set_animations (replaceAt i (ShuffleTimeline steps) (animations st))
                     |> set_flagImageSrc src1)) as (src2 & ->).
    { cbn [animations set_flagImageSrc set_animations]. by eapply nth_error_replaceAt. }
    exists src2. destruct st. state_cbn. by rewrite replaceAt_twice.
Qed.

Lemma round_completes_from_timeline (w : World) (st : State) (before : list Task)
    (a : Task) (steps : list TimelineStep) (f : FlagEntry) (src n t : string) :
  animations st = before ++ [a; ShuffleTimeline steps] ->
  handlesInOrder st ->
  flagAt (flags st) (randomIndex (random w (randomCalls st)) (length (flags st)))
    = Some f ->
  toStr (flagUrl f) = Ok src ->
  name f = VStr n ->
  nameUzbek f = VStr t ->
  run w (repeat (Advance (S (length before))) (length steps + 1)
           ++ [Advance (length before + 2); Tick (length (timers st));
               Advance (length before + 3)]) st
  = st |> set_animations
            (before ++ [a; Tween ShuffleIndicator (3 # 10) IndicatorHidden;
                        Tween CountdownNumber (3 # 10) NoCallback;
                        Tween CountryNameContainer (1 # 2) NoCallback])
       |> set_randomCalls (S (randomCalls st))
       |> set_currentFlag (Some f)
       |> set_flagImageSrc src
       |> set_flagImageAlt n
       |> set_flagImageVisible true
       |> set_isShuffling false
       |> set_countdownDisplay "none"
       |> set_countdownText "1"
       |> set_timers (timers st ++ [mkTimer (length (timers st)) 0 false])
       |> set_countdownInterval (Some (length (timers st)))
       |> set_countryNameText t
       |> set_countryNameVisible true
       |> set_isAnimating false.
Proof.
  intros Hanim Hord Hflag Hsrc Hname Huz.
  rewrite repeat_app, <- app_assoc, run_app.
  destruct (timeline_runs_state w (S (length before)) steps st) as (src0 & ->).
  { rewrite Hanim. apply nth_error_after. }
  unfold handlesInOrder in Hord.
  destruct st. state_cbn_all. subst.
  cbn [repeat app].
  replace (S (length before)) with (length before + 1)%nat by lia.
  rewrite replaceAt_beyond. cbn [replaceAt].
  (* the timeline completes *)
  change (run w (?e :: ?es) ?s) with (run w es (step w e s)).
  cbn [step]. unfold advance at 1. state_cbn.
  rewrite nth_error_beyond. cbn [nth_error]. rewrite removeAt_beyond. cbn [removeAt].
  unfold afterShuffle. state_cbn. rewrite Hflag, Hsrc, Hname. cbn [toStr]. state_cbn.
  rewrite <- !app_assoc. cbn [app].
  (* the reveal completes *)
  change (run w (?e :: ?es) ?s) with (run w es (step w e s)).
  cbn [step]. unfold advance at 1. state_cbn.
  rewrite nth_error_beyond. cbn [nth_error]. rewrite removeAt_beyond. cbn [removeAt].
  unfold runCallback, startCountdown. state_cbn.
  rewrite <- !app_assoc. cbn [app].
  (* the interval fires *)
  change (run w (?e :: ?es) ?s) with (run w es (step w e s)).
  cbn [step]. unfold tick, findTimer. state_cbn.
  rewrite (find_fresh_timer _ _ _ Hord) by reflexivity. cbn [active count timerId].
  change (1 - 1 >? 0)%Z with false. cbv iota.
  unfold clearInterval, updateTimer. state_cbn.
  rewrite (map_fresh_timer _ _ _ _ Hord) by reflexivity. cbn [timerId count active].
  rewrite (map_fresh_timer _ _ _ _ Hord) by reflexivity. cbn [timerId count active].
  rewrite <- !app_assoc. cbn [app].
  (* the number has faded out *)
  change (run w (?e :: ?es) ?s) with (run w es (step w e s)).
  cbn [step]. unfold advance at 1. state_cbn.
  rewrite nth_error_beyond. cbn [nth_error]. rewrite removeAt_beyond. cbn [removeAt].
  unfold runCallback, showCountryName. state_cbn. rewrite Huz. cbn [textOf toStr]. state_cbn.
  rewrite <- !app_assoc. cbn [app].
  reflexivity.
Qed.

Lemma playRound_shape (w : World) (st : State) :
  isShuffling st = false ->
  isAnimating st = false ->
  let p := randomCalls (playDrumRollSound w st) in
  let duration := shuffleDuration (random w p) in
  let steps := shuffleCount (random w (p + 1)) in
  let st' := playRound w st in
  animations st'
    = animations st
      ++ [Tween ShuffleIndicator (3 # 10) NoCallback;
          ShuffleTimeline
            (shuffleSteps w (flags st) (fdiv duration (inject_Z steps)) (p + 2)
               (Z.to_nat steps) ++ [mkStep (1 # 5) None])] /\
  timers st' = timers st /\
  flags st' = flags st /\
  randomCalls st' = (p + 2 + Z.to_nat steps)%nat.
Proof.
  intros Hs Ha. cbv zeta. unfold playRound. rewrite Hs, Ha. cbn [orb].
  unfold shuffleFlags, playDrumRollSound.
  destruct (audioError w) as [[made msg]|]; state_cbn; rewrite <- app_assoc; by repeat split.
Qed.

Lemma sound_handlesInOrder (st : State) : sound st -> handlesInOrder st.
Proof.
  intros H. apply List.Forall_forall. intros t Hin.
  apply In_nth_error in Hin as (i & Hi).
  destruct (timers_in_place st H i t Hi) as (-> & _).
  apply nth_error_Some. by rewrite Hi.
Qed.

(** X13. From a state the game gets to with the lock free and a working set
    that is not empty, whose image addresses convert to strings, with every
    draw in the interval from 0 to 1 and whether or not the audio interface
    works: once the timeline of the round [playRound] starts has run its
    steps and completed, the reveal has completed, the interval has fired
    once and the number has faded out, with nothing else in between, an
    entry of the working set is the current flag, its image and its name
    are on the image, the countdown is hidden, the table's translation of
    its name is shown, and both locks are free again. *)
Theorem round_runs_to_the_name (w : World) (st : State) :
  reachable st ->
  flags st <> [] ->
  isShuffling st = false ->
  isAnimating st = false ->
  (forall i, (0 <= random w i /\ random w i < 1)%Q) ->
  Forall (fun e => exists src, toStr (flagUrl e) = Ok src) (flags st) ->
  let p := randomCalls (playDrumRollSound w st) in
  let steps := Z.to_nat (shuffleCount (random w (p + 1))) in
  let before := length (animations st) in
  let final :=
    run w (repeat (Advance (S before)) (steps + 2)
             ++ [Advance (before + 2); Tick (length (timers st));
                 Advance (before + 3)])
      (playRound w st) in
  exists f n t src,
    In f (flags st) /\ name f = VStr n /\ translations !! n = Some t /\
    toStr (flagUrl f) = Ok src /\
    flags final = flags st /\
    currentFlag final = Some f /\
    flagImageSrc final = src /\
    flagImageAlt final = n /\
    flagImageVisible final = true /\
    countdownDisplay final = "none" /\
    countryNameText final = t /\
    countryNameVisible final = true /\
    isShuffling final = false /\
    isAnimating final = false.
Proof.
  intros Hreach Hne Hs Ha Hdraw Hurl. cbv zeta.
  pose proof (sound_reachable st Hreach) as Hsound.
  destruct (playRound_shape w st Hs Ha) as (Hanim & Htim & Hfl & Hrc). cbv zeta in *.
  set (p := randomCalls (playDrumRollSound w st)) in *.
  set (count := shuffleCount (random w (p + 1))) in *.
  set (steps := shuffleSteps _ _ _ _ _ ++ _) in Hanim.
  assert (Hlen : (Z.to_nat count + 2 = length steps + 1)%nat).
  { unfold steps. rewrite length_app, shuffleSteps_length. cbn [length]. lia. }
  assert (Hsome : exists f,
             flagAt (flags st)
               (randomIndex (random w (p + 2 + Z.to_nat count)) (length (flags st)))
             = Some f).
  { assert (Hpos : (0 < length (flags st))%nat)
      by (destruct (flags st); [congruence | cbn [length]; lia]).
    destruct (randomIndex_cell w _ _ (Hdraw (p + 2 + Z.to_nat count)%nat) Hpos) as [Hin _].
    rewrite flagAt_in_range by lia.
    destruct (nth_error (flags st) _) as [f|] eqn:Hnth; [by exists f|].
    apply nth_error_None in Hnth. lia. }
  destruct Hsome as (f & Hflag).
  pose proof (flagAt_In _ _ _ Hflag) as Hin.
  pose proof (proj1 (List.Forall_forall _ _) (flags_ok st Hsound) f Hin)
    as (n & t & Hname & _ & Ht & Huz).
  pose proof (proj1 (List.Forall_forall _ _) Hurl f Hin) as (src & Hsrc).
  exists f, n, t, src.
  split; [exact Hin|]. split; [exact Hname|]. split; [exact Ht|]. split; [exact Hsrc|].
  rewrite Hlen, <- Htim.
  rewrite (round_completes_from_timeline w (playRound w st) (animations st) _ steps
             f src n t Hanim).
  - by repeat split.
  - unfold handlesInOrder. rewrite Htim. by apply sound_handlesInOrder.
  - by rewrite Hfl, Hrc.
  - exact Hsrc.
  - exact Hname.
  - exact Huz.
Qed.

Lemma round_runs_to_the_name_witness :
  reachable nameShownGame /\
  flags nameShownGame <> [] /\
  isShuffling nameShownGame = false /\
  isAnimating nameShownGame = false /\
  (forall i, (0 <= random sampleWorld i /\ random sampleWorld i < 1)%Q) /\
  Forall (fun e => exists src, toStr (flagUrl e) = Ok src) (flags nameShownGame) /\
  let p := randomCalls (playDrumRollSound sampleWorld nameShownGame) in
  let steps := Z.to_nat (shuffleCount (random sampleWorld (p + 1))) in
  let before := length (animations nameShownGame) in
  let final :=
    run sampleWorld
      (repeat (Advance (S before)) (steps + 2)
         ++ [Advance (before + 2); Tick (length (timers nameShownGame));
             Advance (before + 3)])
      (playRound sampleWorld nameShownGame) in
  exists f n t src,
    In f (flags nameShownGame) /\ name f = VStr n /\ translations !! n = Some t /\
    toStr (flagUrl f) = Ok src /\
    flags final = flags nameShownGame /\
    currentFlag final = Some f /\
    flagImageSrc final = src /\
    flagImageAlt final = n /\
    flagImageVisible final = true /\
    countdownDisplay final = "none" /\
    countryNameText final = t /\
    countryNameVisible final = true /\
    isShuffling final = false /\
    isAnimating final = false.
Proof.
  assert (Hfl : flags nameShownGame = [franceEntry; japanEntry])
    by (vm_compute; reflexivity).
  assert (Hne : flags nameShownGame <> []) by (rewrite Hfl; discriminate).
  assert (Hs : isShuffling nameShownGame = false) by (vm_compute; reflexivity).
  assert (Ha : isAnimating nameShownGame = false) by (vm_compute; reflexivity).
  pose proof sampleWorld_draws as Hdraw.
  assert (Hurl : Forall (fun e => exists src, toStr (flagUrl e) = Ok src)
                   (flags nameShownGame)).
  { rewrite Hfl. constructor; [eexists; reflexivity|].
    constructor; [eexists; reflexivity | constructor]. }
  split; [exact nameShownGame_reachable|]. split; [exact Hne|].
  split; [exact Hs|]. split; [exact Ha|]. split; [exact Hdraw|]. split; [exact Hurl|].
  exact (round_runs_to_the_name sampleWorld nameShownGame nameShownGame_reachable
           Hne Hs Ha Hdraw Hurl).
Defined.

(** ** The name at rest *)

(** With a name on display no round is under way. *)
Lemma name_shown_idle (st : State) :
  sound st -> countryNameVisible st = true ->
  timerOn st = false /\
  Forall (fun a => roundTask a = false) (animations st) /\
  exists f, currentFlag st = Some f /\ In f (flags st).
Proof.
  intros H Hvis.
  pose proof (one_round st H) as H1. pose proof (round_locked st H) as H2.
  assert (Hu : underWay st = 0%nat).
  { destruct (underWay st) as [|[|n]]; [reflexivity | | lia].
    destruct (H2 eq_refl) as [_ Hv]. congruence. }
  unfold underWay in Hu.
  split; [destruct (timerOn st); [lia | reflexivity]|]. split.
  - apply List.Forall_forall. intros a Hin.
    destruct (roundTask a) eqn:Hr; [|reflexivity].
    pose proof (filter_length_pos roundTask _ a Hin Hr). lia.
  - destruct (shown_name st H Hvis) as (f & t & Hf & _). exists f.
    split; [exact Hf | by apply (current_in_flags st H)].
Qed.

(** What [playRound] does to the name and the flag. *)
Lemma playRound_name (w : World) (st : State) :
  let next := playRound w st in
  currentFlag next = currentFlag st /\
  ((next = st) \/
   (isShuffling next = true /\ isAnimating next = true /\
    countryNameVisible next = false /\ countryNameText next = "")).
Proof.
  cbv zeta. destruct (isShuffling st || isAnimating st) eqn:Hlock.
  - unfold playRound. rewrite Hlock. split; [reflexivity | by left].
  - apply orb_false_iff in Hlock as [Hs Ha].
    destruct (playRound_unlocked w st Hs Ha) as (? & ? & ? & ? & ?).
    split; [assumption | right; by repeat split].
Qed.

Lemma resting_step (w : World) (ev : Event) (st : State) :
  sound st ->
  countryNameVisible st = true ->
  let st' := step w ev st in
  currentFlag st' = currentFlag st /\
  ((countryNameVisible st' = true /\ countryNameText st' = countryNameText st) \/
   (startsRound ev st /\
    isShuffling st' = true /\ isAnimating st' = true /\
    countryNameVisible st' = false /\ countryNameText st' = "")).
Proof.
  intros H Hvis. cbv zeta.
  destruct (name_shown_idle st H Hvis) as (Hoff & Hidle & f & Hf & Hin).
  assert (Hstart : forall st0,
            currentFlag st0 = currentFlag st ->
            countryNameVisible st0 = true ->
            countryNameText st0 = countryNameText st ->
            currentFlag (playRound w st0) = currentFlag st /\
            ((countryNameVisible (playRound w st0) = true /\
              countryNameText (playRound w st0) = countryNameText st) \/
             (isShuffling (playRound w st0) = true /\
              isAnimating (playRound w st0) = true /\
              countryNameVisible (playRound w st0) = false /\
              countryNameText (playRound w st0) = ""))).
  { intros st0 E1 E2 E3. destruct (playRound_name w st0) as [Hc [->|Hr]].
    - split; [exact E1 | left; by split].
    - split; [congruence | by right]. }
  assert (Hgame : currentFlag (startGame w st) = currentFlag st /\
            ((countryNameVisible (startGame w st) = true /\
              countryNameText (startGame w st) = countryNameText st) \/
             (isShuffling (startGame w st) = true /\
              isAnimating (startGame w st) = true /\
              countryNameVisible (startGame w st) = false /\
              countryNameText (startGame w st) = ""))).
  { unfold startGame.
    destruct (isAnimating st || isShuffling st || isLoading st);
      [split; [reflexivity | left; by split]|].
    assert (Hlen : Nat.eqb (length (flags (st |> startTween StartScreen (1 # 2) HideStartScreen))) 0
                   = false).
    { cbn [flags startTween startTask set_animations]. destruct (flags st); [destruct Hin | reflexivity]. }
    rewrite Hlen. apply Hstart; by destruct st. }
  destruct ev as [|key|i|id]; cbn [step startsRound].
  - destruct Hgame as [Hc [Hl|Hr]]; [by split; [|left] | by split; [|right]].
  - unfold onKeyDown. destruct (String.eqb_spec key "Enter") as [->|Hne];
      [|split; [reflexivity | left; by split]].
    destruct (startScreenHidden st).
    + destruct (negb (isShuffling st)); [|split; [reflexivity | left; by split]].
      destruct (Hstart st eq_refl Hvis eq_refl) as [Hc [Hl|Hr]];
        [by split; [|left] | by split; [|right]].
    + destruct Hgame as [Hc [Hl|Hr]]; [by split; [|left] | by split; [|right]].
  - unfold advance.
    destruct (nth_error (animations st) i) as [task|] eqn:Hi;
      [|split; [reflexivity | left; by split]].
    pose proof (Forall_nth_error _ _ _ _ Hidle Hi) as Hnoround.
    pose proof (Forall_nth_error _ _ _ _ (nothing_dead st H) Hi) as Hlive.
    destruct task as [target duration cb|steps]; [|discriminate Hnoround].
    destruct cb; try discriminate Hnoround; try discriminate Hlive; cbn [runCallback].
    + split; [by destruct st | left; by destruct st].
    + split; [by destruct st | left; by destruct st].
    + destruct (Hstart (st |> set_animations (removeAt i (animations st))
                           |> set_loadingScreenActive false |> set_isLoading false))
        as [Hc [Hl|Hr]]; try (by destruct st).
      * by split; [|left].
      * split; [exact Hc|]. right. split; [by exists target, duration | exact Hr].
    + split; [by destruct st | left; by destruct st].
  - unfold tick. destruct (findTimer id st) as [t|] eqn:Hfind;
      [|split; [reflexivity | left; by split]].
    destruct (active t) eqn:Hact; [|split; [reflexivity | left; by split]].
    exfalso. unfold findTimer in Hfind. apply find_some in Hfind as [Hint _].
    assert (Hon : timerOn st = true) by (unfold timerOn; apply existsb_exists; eauto).
    congruence.
Qed.

Lemma resting_run (w : World) (evs : list Event) :
  forall st,
    sound st ->
    countryNameVisible st = true ->
    let st' := run w evs st in
    (countryNameVisible st' = true /\
     countryNameText st' = countryNameText st /\
     currentFlag st' = currentFlag st) \/
    (exists before ev after,
       evs = before ++ ev :: after /\
       let rested := run w before st in
       let next := step w ev rested in
       (countryNameVisible rested = true /\
        countryNameText rested = countryNameText st /\
        currentFlag rested = currentFlag st) /\
       startsRound ev rested /\
       isShuffling next = true /\
       isAnimating next = true /\
       countryNameVisible next = false /\
       countryNameText next = "" /\
       currentFlag next = currentFlag st).
Proof.
  induction evs as [|ev evs IH]; intros st H Hvis; cbv zeta; [left; by repeat split|].
  change (run w (ev :: evs) st) with (run w evs (step w ev st)).
  destruct (resting_step w ev st H Hvis) as [Hflag [[Hv Ht]|(Hstart & Hs & Ha & Hv & Ht)]].
  - destruct (IH (step w ev st) (sound_step w ev st H) Hv)
      as [(Hv' & Ht' & Hf')|(before & ev' & after & -> & Hrest & Hstart & Hnext)].
    + left. split; [exact Hv'|]. split; congruence.
    + right. exists (ev :: before), ev', after. split; [reflexivity|].
      change (run w (ev :: before) st) with (run w before (step w ev st)).
      cbv zeta in *. destruct Hrest as (R1 & R2 & R3).
      destruct Hnext as (N1 & N2 & N3 & N4 & N5).
      split; [split; [exact R1 | split; congruence]|].
      split; [exact Hstart|]. repeat split; congruence.
  - right. exists [], ev, evs. split; [reflexivity|].
    change (run w [] st) with st. cbv zeta.
    split; [by repeat split|]. by repeat split.
Qed.

(** [loadFlags] leaves the current flag alone. *)
Lemma loadFlags_currentFlag (w : World) (st : State) :
  currentFlag (loadFlags w st) = currentFlag st.
Proof.
  rewrite loadFlags_attempts. cbv zeta.
  destruct (nonEmpty _); unfold loadFlagsCatch, afterAttempts; by destruct st.
Qed.

Lemma showCountryName_currentFlag (st : State) :
  currentFlag (showCountryName st) = currentFlag st.
Proof.
  unfold showCountryName. destruct (currentFlag st) as [f|] eqn:Hf; [|exact Hf].
  destruct (textOf (nameUzbek f)); [|exact Hf]. destruct st. exact Hf.
Qed.

(** Only the completion of a shuffle timeline writes [currentFlag]. *)
Lemma currentFlag_step (w : World) (ev : Event) (st : State) :
  currentFlag (step w ev st) = currentFlag st \/
  exists i, ev = Advance i /\ nth_error (animations st) i = Some (ShuffleTimeline []).
Proof.
  assert (Hgame : currentFlag (startGame w st) = currentFlag st).
  { unfold startGame. destruct (_ || _ || _); [reflexivity|].
    destruct (Nat.eqb _ 0).
    - rewrite loadFlags_currentFlag. by destruct st.
    - rewrite (proj1 (playRound_name w _)). by destruct st. }
  destruct ev as [|key|i|id]; cbn [step].
  - by left.
  - left. unfold onKeyDown. destruct (String.eqb key "Enter"); [|reflexivity].
    destruct (startScreenHidden st); [|exact Hgame].
    destruct (negb (isShuffling st)); [|reflexivity]. apply (playRound_name w st).
  - unfold advance. destruct (nth_error (animations st) i) as [task|] eqn:Hi; [|by left].
    destruct task as [target duration cb|[|s rest]].
    + left. destruct cb; cbn [runCallback]; try (by destruct st).
      * rewrite (proj1 (playRound_name w _)). by destruct st.
      * destruct (findTimer id _); by destruct st.
      * rewrite showCountryName_currentFlag. by destruct st.
    + right. by exists i.
    + left. unfold runOnStart.
      destruct (onStart s) as [[randomFlag|]|];
        [destruct (toStr (flagUrl randomFlag))|..]; by destruct st.
  - left. unfold tick. destruct (findTimer id st) as [t|]; [|reflexivity].
    destruct (active t); [|reflexivity].
    destruct (_ >? 0)%Z; unfold clearInterval, updateTimer.
    + by destruct st.
    + destruct (countdownInterval _); by destruct st.
Qed.

(** C6, amended. In a state the game gets to with a name on display, the
    round rests: whatever animations complete and intervals fire, the name
    stays on display and the flag stays selected, until an event makes
    [playRound] run with the lock free: a click on the button, the Enter
    key, or the completion of the fade of the loading screen, which starts a
    round by itself.  That start hides the name and empties its text, and
    leaves the flag selected: nothing but the completion of a shuffle
    timeline, the reveal of the next round, ever writes [currentFlag]. *)
Theorem name_stays_until_next_round (w : World) (st : State) (evs : list Event) :
  reachable st ->
  countryNameVisible st = true ->
  (let st' := run w evs st in
   (countryNameVisible st' = true /\
    countryNameText st' = countryNameText st /\
    currentFlag st' = currentFlag st) \/
   (exists before ev after,
      evs = before ++ ev :: after /\
      let rested := run w before st in
      let next := step w ev rested in
      (countryNameVisible rested = true /\
       countryNameText rested = countryNameText st /\
       currentFlag rested = currentFlag st) /\
      startsRound ev rested /\
      isShuffling next = true /\
      isAnimating next = true /\
      countryNameVisible next = false /\
      countryNameText next = "" /\
      currentFlag next = currentFlag st)) /\
  (forall st0 ev,
     currentFlag (step w ev st0) = currentFlag st0 \/
     exists i, ev = Advance i /\
               nth_error (animations st0) i = Some (ShuffleTimeline [])).
Proof.
  intros Hreach Hvis. split.
  - apply resting_run; [by apply sound_reachable | exact Hvis].
  - intros st0 ev. apply currentFlag_step.
Qed.

Lemma name_stays_until_next_round_witness :
  reachable nameShownGame /\
  countryNameVisible nameShownGame = true /\
  (let st' := run sampleWorld [Advance 0; Tick 0; KeyDown "Enter"] nameShownGame in
   (countryNameVisible st' = true /\
    countryNameText st' = countryNameText nameShownGame /\
    currentFlag st' = currentFlag nameShownGame) \/
   (exists before ev after,
      [Advance 0; Tick 0; KeyDown "Enter"] = before ++ ev :: after /\
      let rested := run sampleWorld before nameShownGame in
      let next := step sampleWorld ev rested in
      (countryNameVisible rested = true /\
       countryNameText rested = countryNameText nameShownGame /\
       currentFlag rested = currentFlag nameShownGame) /\
      startsRound ev rested /\
      isShuffling next = true /\
      isAnimating next = true /\
      countryNameVisible next = false /\
      countryNameText next = "" /\
      currentFlag next = currentFlag nameShownGame)).
Proof.
  assert (Hvis : countryNameVisible nameShownGame = true) by (vm_compute; reflexivity).
  split; [exact nameShownGame_reachable|]. split; [exact Hvis|].
  exact (proj1 (name_stays_until_next_round sampleWorld nameShownGame
                  [Advance 0; Tick 0; KeyDown "Enter"]
                  nameShownGame_reachable Hvis)).
Defined.

(** ** The call of [showCountryName] *)












